(** * react-particles-lite: a shallow embedding of the simulation core

    The TypeScript sources embedded here are
      - utils/QuadTree.ts     (Boundary, QuadTree)
      - utils/physics.ts      (handleOutMode, applyAttraction)
      - utils/interaction.ts  (applyInteractions)
      - classes/Particle.ts   (constructor, animation handlers, update, getDepth,
                               the alpha and the sprite index of draw)
      - classes/Engine.ts     (calculateParticleCount, init, handleResize,
                               handleClick, render)

    Number model.  A JavaScript [number] is modelled as a rational [Q]; there
    is no NaN and no infinity, and equality of computed values is [Qeq]
    (written [==]).  Division by zero yields [0] in [Q], where JavaScript
    yields an infinity or NaN: the statements about a quotient assume its
    divisor is not zero.  Where the rounding of the program's binary64
    arithmetic decides a discrete result, the operations are rounded by [fl]:
    in [subdivide], whose sums place the edges of the quadrants, and in
    [calculateParticleCount], which takes the floor of a quotient.  Elsewhere
    the arithmetic is exact.

    Object model.  Particles are mutable objects shared by reference between
    the engine's array and the quad tree.  The array is the heap ([Heap]), a
    reference ([ref]) is an index into it, and the tree stores references.

    Host functions.  [Math.sqrt], [Math.cos], [Math.sin], [Math.atan2] and
    [Math.PI] are taken as a parameter ([MathLib]); [Math.random] is a stream
    of draws.  Canvas drawing calls have no effect on the simulation state and
    are left out; of [draw] the alpha and the choice of the sprite are kept. *)

From Stdlib Require Import QArith Qround Qminmax List Permutation Sorted.
From Stdlib Require Import Lia Lqa Bool Arith ZArith.
Import ListNotations.
Open Scope Q_scope.

(** ** Comparisons of numbers, as booleans *)

Definition Qleb (a b : Q) : bool := Qle_bool a b.
Definition Qltb (a b : Q) : bool := negb (Qle_bool b a).
Definition Qgeb (a b : Q) : bool := Qleb b a.
Definition Qgtb (a b : Q) : bool := Qltb b a.

(** ** Rounding to binary64

    [fl q] is the finite binary64 number nearest to [q], ties going to the
    even significand, with gradual underflow; a result beyond the largest
    finite binary64 number, which the program turns into an infinity, is
    outside the model. *)

(** The integer nearest to [n / d], for [d > 0], ties going to the even one. *)
Definition roundHalfEven (n d : Z) : Z :=
  let q := (n / d)%Z in
  let r := (n mod d)%Z in
  match (2 * r ?= d)%Z with
  | Lt => q
  | Gt => (q + 1)%Z
  | Eq => if Z.even q then q else (q + 1)%Z
  end.

(** The integer part of the binary logarithm of [n / d], for [n, d > 0]. *)
Definition floorLog2 (n d : Z) : Z :=
  let l := (Z.log2 n - Z.log2 d)%Z in
  if (if (0 <=? l)%Z then (d * 2 ^ l <=? n)%Z else (d <=? n * 2 ^ (- l))%Z)
  then l else (l - 1)%Z.

(** [n / d] rounded to 53 significant bits, or to a multiple of [2^-1074]
    when it is below [2^-1022]. *)
Definition flPos (n d : Z) : Q :=
  let e := Z.max (floorLog2 n d - 52) (-1074) in
  if (0 <=? e)%Z then inject_Z (roundHalfEven n (d * 2 ^ e) * 2 ^ e)
  else Qmake (roundHalfEven (n * 2 ^ (- e)) d) (Z.to_pos (2 ^ (- e))).

Definition fl (q : Q) : Q :=
  match Qnum (Qred q) with
  | Z0 => 0
  | Zpos n => Qred (flPos (Zpos n) (Zpos (Qden (Qred q))))
  | Zneg n => - Qred (flPos (Zpos n) (Zpos (Qden (Qred q))))
  end.

(** ** Configuration (types.ts, [IParticleParams] after the merge with a preset)

    The nested record is flattened; a field is named by its path.  Fields that
    only drive rendering (colour, shape, depth blur) are left out. *)

Inductive OutMode := mode_out | mode_bounce.
Inductive HoverMode := mode_grab | mode_bubble | mode_repulse.
Inductive ClickMode := mode_push | mode_remove.
Inductive RotateDirection := clockwise | counter_clockwise.
Inductive MoveDirection :=
| dir_none | dir_top | dir_top_left | dir_right | dir_top_right
| dir_bottom_right | dir_bottom | dir_bottom_left | dir_left
| dir_angle (a : Q).

Record Config := mkConfig {
  number_value : Q;
  number_density_enable : bool;
  number_density_area : Q;
  opacity_value : Q;
  opacity_random : bool;
  opacity_anim_enable : bool;
  opacity_anim_speed : Q;
  opacity_anim_opacity_min : Q;
  opacity_anim_sync : bool;
  size_value : Q;
  size_random : bool;
  size_anim_enable : bool;
  size_anim_speed : Q;
  size_anim_size_min : Q;
  size_anim_sync : bool;
  rotate_enable : bool;
  rotate_value : Q;
  rotate_random : bool;
  rotate_anim_enable : bool;
  rotate_anim_speed : Q;
  rotate_anim_direction : RotateDirection;
  rotate_anim_sync : bool;
  move_enable : bool;
  move_speed : Q;
  move_out_mode : OutMode;
  move_randomized_enable : bool;
  move_randomized_min : option Q;
  move_randomized_max : option Q;
  move_direction_to : MoveDirection;
  move_direction_random : bool;
  move_attract_enable : bool;
  move_attract_rotateX : Q;
  move_attract_rotateY : Q;
  sway_enable : bool;
  sway_amplitude : Q;
  sway_frequency : Q;
  sway_random : bool;
  onhover_enable : bool;
  onhover_mode : HoverMode;
  onclick_enable : bool;
  onclick_mode : ClickMode;
  modes_grab_distance : Q;
  modes_bubble_distance : Q;
  modes_bubble_size : Q;
  modes_bubble_opacity : option Q;
  modes_repulse_distance : Q;
  modes_push_quantity : Q;
  modes_remove_quantity : Q
}.

(** lib/defaults.ts, [DEFAULTS.default]. *)
Definition DEFAULTS_default : Config := {|
  number_value := 50; number_density_enable := true; number_density_area := 800;
  opacity_value := 0.5; opacity_random := false;
  opacity_anim_enable := false; opacity_anim_speed := 1;
  opacity_anim_opacity_min := 0.1; opacity_anim_sync := false;
  size_value := 3; size_random := true;
  size_anim_enable := false; size_anim_speed := 4;
  size_anim_size_min := 0.1; size_anim_sync := false;
  rotate_enable := true; rotate_value := 45; rotate_random := false;
  rotate_anim_enable := true; rotate_anim_speed := 2;
  rotate_anim_direction := counter_clockwise; rotate_anim_sync := false;
  move_enable := true; move_speed := 2; move_out_mode := mode_out;
  move_randomized_enable := false;
  move_randomized_min := None; move_randomized_max := None;
  move_direction_to := dir_none; move_direction_random := false;
  move_attract_enable := false;
  move_attract_rotateX := 3000; move_attract_rotateY := 3000;
  sway_enable := true; sway_amplitude := 10; sway_frequency := 0.05;
  sway_random := true;
  onhover_enable := true; onhover_mode := mode_repulse;
  onclick_enable := true; onclick_mode := mode_push;
  modes_grab_distance := 100;
  modes_bubble_distance := 200; modes_bubble_size := 80;
  modes_bubble_opacity := None;
  modes_repulse_distance := 200;
  modes_push_quantity := 4; modes_remove_quantity := 2
|}.

(** [deepMerge(DEFAULTS[preset], params)] for [params] that give a single
    leaf: that leaf replaces the preset's, the others are kept. *)
Definition with_number_value (v : Q) (c : Config) : Config :=
  mkConfig v (number_density_enable c) (number_density_area c)
    (opacity_value c) (opacity_random c) (opacity_anim_enable c)
    (opacity_anim_speed c) (opacity_anim_opacity_min c) (opacity_anim_sync c)
    (size_value c) (size_random c) (size_anim_enable c) (size_anim_speed c)
    (size_anim_size_min c) (size_anim_sync c) (rotate_enable c)
    (rotate_value c) (rotate_random c) (rotate_anim_enable c)
    (rotate_anim_speed c) (rotate_anim_direction c) (rotate_anim_sync c)
    (move_enable c) (move_speed c) (move_out_mode c)
    (move_randomized_enable c) (move_randomized_min c) (move_randomized_max c)
    (move_direction_to c) (move_direction_random c) (move_attract_enable c)
    (move_attract_rotateX c) (move_attract_rotateY c) (sway_enable c)
    (sway_amplitude c) (sway_frequency c) (sway_random c) (onhover_enable c)
    (onhover_mode c) (onclick_enable c) (onclick_mode c)
    (modes_grab_distance c) (modes_bubble_distance c) (modes_bubble_size c)
    (modes_bubble_opacity c) (modes_repulse_distance c)
    (modes_push_quantity c) (modes_remove_quantity c).
Definition with_number_density_enable (v : bool) (c : Config) : Config :=
  mkConfig (number_value c) v (number_density_area c) (opacity_value c)
    (opacity_random c) (opacity_anim_enable c) (opacity_anim_speed c)
    (opacity_anim_opacity_min c) (opacity_anim_sync c) (size_value c)
    (size_random c) (size_anim_enable c) (size_anim_speed c)
    (size_anim_size_min c) (size_anim_sync c) (rotate_enable c)
    (rotate_value c) (rotate_random c) (rotate_anim_enable c)
    (rotate_anim_speed c) (rotate_anim_direction c) (rotate_anim_sync c)
    (move_enable c) (move_speed c) (move_out_mode c)
    (move_randomized_enable c) (move_randomized_min c) (move_randomized_max c)
    (move_direction_to c) (move_direction_random c) (move_attract_enable c)
    (move_attract_rotateX c) (move_attract_rotateY c) (sway_enable c)
    (sway_amplitude c) (sway_frequency c) (sway_random c) (onhover_enable c)
    (onhover_mode c) (onclick_enable c) (onclick_mode c)
    (modes_grab_distance c) (modes_bubble_distance c) (modes_bubble_size c)
    (modes_bubble_opacity c) (modes_repulse_distance c)
    (modes_push_quantity c) (modes_remove_quantity c).
Definition with_number_density_area (v : Q) (c : Config) : Config :=
  mkConfig (number_value c) (number_density_enable c) v (opacity_value c)
    (opacity_random c) (opacity_anim_enable c) (opacity_anim_speed c)
    (opacity_anim_opacity_min c) (opacity_anim_sync c) (size_value c)
    (size_random c) (size_anim_enable c) (size_anim_speed c)
    (size_anim_size_min c) (size_anim_sync c) (rotate_enable c)
    (rotate_value c) (rotate_random c) (rotate_anim_enable c)
    (rotate_anim_speed c) (rotate_anim_direction c) (rotate_anim_sync c)
    (move_enable c) (move_speed c) (move_out_mode c)
    (move_randomized_enable c) (move_randomized_min c) (move_randomized_max c)
    (move_direction_to c) (move_direction_random c) (move_attract_enable c)
    (move_attract_rotateX c) (move_attract_rotateY c) (sway_enable c)
    (sway_amplitude c) (sway_frequency c) (sway_random c) (onhover_enable c)
    (onhover_mode c) (onclick_enable c) (onclick_mode c)
    (modes_grab_distance c) (modes_bubble_distance c) (modes_bubble_size c)
    (modes_bubble_opacity c) (modes_repulse_distance c)
    (modes_push_quantity c) (modes_remove_quantity c).
Definition with_opacity_anim_enable (v : bool) (c : Config) : Config :=
  mkConfig (number_value c) (number_density_enable c) (number_density_area c)
    (opacity_value c) (opacity_random c) v (opacity_anim_speed c)
    (opacity_anim_opacity_min c) (opacity_anim_sync c) (size_value c)
    (size_random c) (size_anim_enable c) (size_anim_speed c)
    (size_anim_size_min c) (size_anim_sync c) (rotate_enable c)
    (rotate_value c) (rotate_random c) (rotate_anim_enable c)
    (rotate_anim_speed c) (rotate_anim_direction c) (rotate_anim_sync c)
    (move_enable c) (move_speed c) (move_out_mode c)
    (move_randomized_enable c) (move_randomized_min c) (move_randomized_max c)
    (move_direction_to c) (move_direction_random c) (move_attract_enable c)
    (move_attract_rotateX c) (move_attract_rotateY c) (sway_enable c)
    (sway_amplitude c) (sway_frequency c) (sway_random c) (onhover_enable c)
    (onhover_mode c) (onclick_enable c) (onclick_mode c)
    (modes_grab_distance c) (modes_bubble_distance c) (modes_bubble_size c)
    (modes_bubble_opacity c) (modes_repulse_distance c)
    (modes_push_quantity c) (modes_remove_quantity c).
Definition with_size_random (v : bool) (c : Config) : Config :=
  mkConfig (number_value c) (number_density_enable c) (number_density_area c)
    (opacity_value c) (opacity_random c) (opacity_anim_enable c)
    (opacity_anim_speed c) (opacity_anim_opacity_min c) (opacity_anim_sync c)
    (size_value c) v (size_anim_enable c) (size_anim_speed c)
    (size_anim_size_min c) (size_anim_sync c) (rotate_enable c)
    (rotate_value c) (rotate_random c) (rotate_anim_enable c)
    (rotate_anim_speed c) (rotate_anim_direction c) (rotate_anim_sync c)
    (move_enable c) (move_speed c) (move_out_mode c)
    (move_randomized_enable c) (move_randomized_min c) (move_randomized_max c)
    (move_direction_to c) (move_direction_random c) (move_attract_enable c)
    (move_attract_rotateX c) (move_attract_rotateY c) (sway_enable c)
    (sway_amplitude c) (sway_frequency c) (sway_random c) (onhover_enable c)
    (onhover_mode c) (onclick_enable c) (onclick_mode c)
    (modes_grab_distance c) (modes_bubble_distance c) (modes_bubble_size c)
    (modes_bubble_opacity c) (modes_repulse_distance c)
    (modes_push_quantity c) (modes_remove_quantity c).
Definition with_size_anim_enable (v : bool) (c : Config) : Config :=
  mkConfig (number_value c) (number_density_enable c) (number_density_area c)
    (opacity_value c) (opacity_random c) (opacity_anim_enable c)
    (opacity_anim_speed c) (opacity_anim_opacity_min c) (opacity_anim_sync c)
    (size_value c) (size_random c) v (size_anim_speed c)
    (size_anim_size_min c) (size_anim_sync c) (rotate_enable c)
    (rotate_value c) (rotate_random c) (rotate_anim_enable c)
    (rotate_anim_speed c) (rotate_anim_direction c) (rotate_anim_sync c)
    (move_enable c) (move_speed c) (move_out_mode c)
    (move_randomized_enable c) (move_randomized_min c) (move_randomized_max c)
    (move_direction_to c) (move_direction_random c) (move_attract_enable c)
    (move_attract_rotateX c) (move_attract_rotateY c) (sway_enable c)
    (sway_amplitude c) (sway_frequency c) (sway_random c) (onhover_enable c)
    (onhover_mode c) (onclick_enable c) (onclick_mode c)
    (modes_grab_distance c) (modes_bubble_distance c) (modes_bubble_size c)
    (modes_bubble_opacity c) (modes_repulse_distance c)
    (modes_push_quantity c) (modes_remove_quantity c).
Definition with_move_out_mode (v : OutMode) (c : Config) : Config :=
  mkConfig (number_value c) (number_density_enable c) (number_density_area c)
    (opacity_value c) (opacity_random c) (opacity_anim_enable c)
    (opacity_anim_speed c) (opacity_anim_opacity_min c) (opacity_anim_sync c)
    (size_value c) (size_random c) (size_anim_enable c) (size_anim_speed c)
    (size_anim_size_min c) (size_anim_sync c) (rotate_enable c)
    (rotate_value c) (rotate_random c) (rotate_anim_enable c)
    (rotate_anim_speed c) (rotate_anim_direction c) (rotate_anim_sync c)
    (move_enable c) (move_speed c) v (move_randomized_enable c)
    (move_randomized_min c) (move_randomized_max c) (move_direction_to c)
    (move_direction_random c) (move_attract_enable c) (move_attract_rotateX c)
    (move_attract_rotateY c) (sway_enable c) (sway_amplitude c)
    (sway_frequency c) (sway_random c) (onhover_enable c) (onhover_mode c)
    (onclick_enable c) (onclick_mode c) (modes_grab_distance c)
    (modes_bubble_distance c) (modes_bubble_size c) (modes_bubble_opacity c)
    (modes_repulse_distance c) (modes_push_quantity c)
    (modes_remove_quantity c).
Definition with_move_attract_enable (v : bool) (c : Config) : Config :=
  mkConfig (number_value c) (number_density_enable c) (number_density_area c)
    (opacity_value c) (opacity_random c) (opacity_anim_enable c)
    (opacity_anim_speed c) (opacity_anim_opacity_min c) (opacity_anim_sync c)
    (size_value c) (size_random c) (size_anim_enable c) (size_anim_speed c)
    (size_anim_size_min c) (size_anim_sync c) (rotate_enable c)
    (rotate_value c) (rotate_random c) (rotate_anim_enable c)
    (rotate_anim_speed c) (rotate_anim_direction c) (rotate_anim_sync c)
    (move_enable c) (move_speed c) (move_out_mode c)
    (move_randomized_enable c) (move_randomized_min c) (move_randomized_max c)
    (move_direction_to c) (move_direction_random c) v (move_attract_rotateX c)
    (move_attract_rotateY c) (sway_enable c) (sway_amplitude c)
    (sway_frequency c) (sway_random c) (onhover_enable c) (onhover_mode c)
    (onclick_enable c) (onclick_mode c) (modes_grab_distance c)
    (modes_bubble_distance c) (modes_bubble_size c) (modes_bubble_opacity c)
    (modes_repulse_distance c) (modes_push_quantity c)
    (modes_remove_quantity c).
Definition with_sway_enable (v : bool) (c : Config) : Config :=
  mkConfig (number_value c) (number_density_enable c) (number_density_area c)
    (opacity_value c) (opacity_random c) (opacity_anim_enable c)
    (opacity_anim_speed c) (opacity_anim_opacity_min c) (opacity_anim_sync c)
    (size_value c) (size_random c) (size_anim_enable c) (size_anim_speed c)
    (size_anim_size_min c) (size_anim_sync c) (rotate_enable c)
    (rotate_value c) (rotate_random c) (rotate_anim_enable c)
    (rotate_anim_speed c) (rotate_anim_direction c) (rotate_anim_sync c)
    (move_enable c) (move_speed c) (move_out_mode c)
    (move_randomized_enable c) (move_randomized_min c) (move_randomized_max c)
    (move_direction_to c) (move_direction_random c) (move_attract_enable c)
    (move_attract_rotateX c) (move_attract_rotateY c) v (sway_amplitude c)
    (sway_frequency c) (sway_random c) (onhover_enable c) (onhover_mode c)
    (onclick_enable c) (onclick_mode c) (modes_grab_distance c)
    (modes_bubble_distance c) (modes_bubble_size c) (modes_bubble_opacity c)
    (modes_repulse_distance c) (modes_push_quantity c)
    (modes_remove_quantity c).
Definition with_onhover_enable (v : bool) (c : Config) : Config :=
  mkConfig (number_value c) (number_density_enable c) (number_density_area c)
    (opacity_value c) (opacity_random c) (opacity_anim_enable c)
    (opacity_anim_speed c) (opacity_anim_opacity_min c) (opacity_anim_sync c)
    (size_value c) (size_random c) (size_anim_enable c) (size_anim_speed c)
    (size_anim_size_min c) (size_anim_sync c) (rotate_enable c)
    (rotate_value c) (rotate_random c) (rotate_anim_enable c)
    (rotate_anim_speed c) (rotate_anim_direction c) (rotate_anim_sync c)
    (move_enable c) (move_speed c) (move_out_mode c)
    (move_randomized_enable c) (move_randomized_min c) (move_randomized_max c)
    (move_direction_to c) (move_direction_random c) (move_attract_enable c)
    (move_attract_rotateX c) (move_attract_rotateY c) (sway_enable c)
    (sway_amplitude c) (sway_frequency c) (sway_random c) v (onhover_mode c)
    (onclick_enable c) (onclick_mode c) (modes_grab_distance c)
    (modes_bubble_distance c) (modes_bubble_size c) (modes_bubble_opacity c)
    (modes_repulse_distance c) (modes_push_quantity c)
    (modes_remove_quantity c).
Definition with_onhover_mode (v : HoverMode) (c : Config) : Config :=
  mkConfig (number_value c) (number_density_enable c) (number_density_area c)
    (opacity_value c) (opacity_random c) (opacity_anim_enable c)
    (opacity_anim_speed c) (opacity_anim_opacity_min c) (opacity_anim_sync c)
    (size_value c) (size_random c) (size_anim_enable c) (size_anim_speed c)
    (size_anim_size_min c) (size_anim_sync c) (rotate_enable c)
    (rotate_value c) (rotate_random c) (rotate_anim_enable c)
    (rotate_anim_speed c) (rotate_anim_direction c) (rotate_anim_sync c)
    (move_enable c) (move_speed c) (move_out_mode c)
    (move_randomized_enable c) (move_randomized_min c) (move_randomized_max c)
    (move_direction_to c) (move_direction_random c) (move_attract_enable c)
    (move_attract_rotateX c) (move_attract_rotateY c) (sway_enable c)
    (sway_amplitude c) (sway_frequency c) (sway_random c) (onhover_enable c) v
    (onclick_enable c) (onclick_mode c) (modes_grab_distance c)
    (modes_bubble_distance c) (modes_bubble_size c) (modes_bubble_opacity c)
    (modes_repulse_distance c) (modes_push_quantity c)
    (modes_remove_quantity c).
Definition with_onclick_mode (v : ClickMode) (c : Config) : Config :=
  mkConfig (number_value c) (number_density_enable c) (number_density_area c)
    (opacity_value c) (opacity_random c) (opacity_anim_enable c)
    (opacity_anim_speed c) (opacity_anim_opacity_min c) (opacity_anim_sync c)
    (size_value c) (size_random c) (size_anim_enable c) (size_anim_speed c)
    (size_anim_size_min c) (size_anim_sync c) (rotate_enable c)
    (rotate_value c) (rotate_random c) (rotate_anim_enable c)
    (rotate_anim_speed c) (rotate_anim_direction c) (rotate_anim_sync c)
    (move_enable c) (move_speed c) (move_out_mode c)
    (move_randomized_enable c) (move_randomized_min c) (move_randomized_max c)
    (move_direction_to c) (move_direction_random c) (move_attract_enable c)
    (move_attract_rotateX c) (move_attract_rotateY c) (sway_enable c)
    (sway_amplitude c) (sway_frequency c) (sway_random c) (onhover_enable c)
    (onhover_mode c) (onclick_enable c) v (modes_grab_distance c)
    (modes_bubble_distance c) (modes_bubble_size c) (modes_bubble_opacity c)
    (modes_repulse_distance c) (modes_push_quantity c)
    (modes_remove_quantity c).
Definition with_modes_bubble_opacity (v : option Q) (c : Config) : Config :=
  mkConfig (number_value c) (number_density_enable c) (number_density_area c)
    (opacity_value c) (opacity_random c) (opacity_anim_enable c)
    (opacity_anim_speed c) (opacity_anim_opacity_min c) (opacity_anim_sync c)
    (size_value c) (size_random c) (size_anim_enable c) (size_anim_speed c)
    (size_anim_size_min c) (size_anim_sync c) (rotate_enable c)
    (rotate_value c) (rotate_random c) (rotate_anim_enable c)
    (rotate_anim_speed c) (rotate_anim_direction c) (rotate_anim_sync c)
    (move_enable c) (move_speed c) (move_out_mode c)
    (move_randomized_enable c) (move_randomized_min c) (move_randomized_max c)
    (move_direction_to c) (move_direction_random c) (move_attract_enable c)
    (move_attract_rotateX c) (move_attract_rotateY c) (sway_enable c)
    (sway_amplitude c) (sway_frequency c) (sway_random c) (onhover_enable c)
    (onhover_mode c) (onclick_enable c) (onclick_mode c)
    (modes_grab_distance c) (modes_bubble_distance c) (modes_bubble_size c) v
    (modes_repulse_distance c) (modes_push_quantity c)
    (modes_remove_quantity c).
Definition with_modes_remove_quantity (v : Q) (c : Config) : Config :=
  mkConfig (number_value c) (number_density_enable c) (number_density_area c)
    (opacity_value c) (opacity_random c) (opacity_anim_enable c)
    (opacity_anim_speed c) (opacity_anim_opacity_min c) (opacity_anim_sync c)
    (size_value c) (size_random c) (size_anim_enable c) (size_anim_speed c)
    (size_anim_size_min c) (size_anim_sync c) (rotate_enable c)
    (rotate_value c) (rotate_random c) (rotate_anim_enable c)
    (rotate_anim_speed c) (rotate_anim_direction c) (rotate_anim_sync c)
    (move_enable c) (move_speed c) (move_out_mode c)
    (move_randomized_enable c) (move_randomized_min c) (move_randomized_max c)
    (move_direction_to c) (move_direction_random c) (move_attract_enable c)
    (move_attract_rotateX c) (move_attract_rotateY c) (sway_enable c)
    (sway_amplitude c) (sway_frequency c) (sway_random c) (onhover_enable c)
    (onhover_mode c) (onclick_enable c) (onclick_mode c)
    (modes_grab_distance c) (modes_bubble_distance c) (modes_bubble_size c)
    (modes_bubble_opacity c) (modes_repulse_distance c)
    (modes_push_quantity c) v.

Record Canvas := mkCanvas { width : Q; height : Q }.

(** ** Particle state (classes/Particle.ts, the fields of the class) *)

Module Particle.
Record t := mk {
  x : Q; y : Q; vx : Q; vy : Q;
  initialRadius : Q; initialOpacity : Q;
  radius : Q; opacity : Q;
  rotation : Q; rotationRadians : Q;
  opacityDirection : Q; sizeDirection : Q;
  swayPhase : Q
}.

(** Field assignments [p.f = v]. *)
Definition set_x (v : Q) (p : t) : t :=
  mk v (y p) (vx p) (vy p) (initialRadius p) (initialOpacity p) (radius p)
     (opacity p) (rotation p) (rotationRadians p) (opacityDirection p)
     (sizeDirection p) (swayPhase p).
Definition set_y (v : Q) (p : t) : t :=
  mk (x p) v (vx p) (vy p) (initialRadius p) (initialOpacity p) (radius p)
     (opacity p) (rotation p) (rotationRadians p) (opacityDirection p)
     (sizeDirection p) (swayPhase p).
Definition set_vx (v : Q) (p : t) : t :=
  mk (x p) (y p) v (vy p) (initialRadius p) (initialOpacity p) (radius p)
     (opacity p) (rotation p) (rotationRadians p) (opacityDirection p)
     (sizeDirection p) (swayPhase p).
Definition set_vy (v : Q) (p : t) : t :=
  mk (x p) (y p) (vx p) v (initialRadius p) (initialOpacity p) (radius p)
     (opacity p) (rotation p) (rotationRadians p) (opacityDirection p)
     (sizeDirection p) (swayPhase p).
Definition set_initialRadius (v : Q) (p : t) : t :=
  mk (x p) (y p) (vx p) (vy p) v (initialOpacity p) (radius p)
     (opacity p) (rotation p) (rotationRadians p) (opacityDirection p)
     (sizeDirection p) (swayPhase p).
Definition set_initialOpacity (v : Q) (p : t) : t :=
  mk (x p) (y p) (vx p) (vy p) (initialRadius p) v (radius p)
     (opacity p) (rotation p) (rotationRadians p) (opacityDirection p)
     (sizeDirection p) (swayPhase p).
Definition set_radius (v : Q) (p : t) : t :=
  mk (x p) (y p) (vx p) (vy p) (initialRadius p) (initialOpacity p) v
     (opacity p) (rotation p) (rotationRadians p) (opacityDirection p)
     (sizeDirection p) (swayPhase p).
Definition set_opacity (v : Q) (p : t) : t :=
  mk (x p) (y p) (vx p) (vy p) (initialRadius p) (initialOpacity p) (radius p)
     v (rotation p) (rotationRadians p) (opacityDirection p)
     (sizeDirection p) (swayPhase p).
Definition set_rotation (v : Q) (p : t) : t :=
  mk (x p) (y p) (vx p) (vy p) (initialRadius p) (initialOpacity p) (radius p)
     (opacity p) v (rotationRadians p) (opacityDirection p)
     (sizeDirection p) (swayPhase p).
Definition set_rotationRadians (v : Q) (p : t) : t :=
  mk (x p) (y p) (vx p) (vy p) (initialRadius p) (initialOpacity p) (radius p)
     (opacity p) (rotation p) v (opacityDirection p)
     (sizeDirection p) (swayPhase p).
Definition set_opacityDirection (v : Q) (p : t) : t :=
  mk (x p) (y p) (vx p) (vy p) (initialRadius p) (initialOpacity p) (radius p)
     (opacity p) (rotation p) (rotationRadians p) v
     (sizeDirection p) (swayPhase p).
Definition set_sizeDirection (v : Q) (p : t) : t :=
  mk (x p) (y p) (vx p) (vy p) (initialRadius p) (initialOpacity p) (radius p)
     (opacity p) (rotation p) (rotationRadians p) (opacityDirection p)
     v (swayPhase p).
Definition set_swayPhase (v : Q) (p : t) : t :=
  mk (x p) (y p) (vx p) (vy p) (initialRadius p) (initialOpacity p) (radius p)
     (opacity p) (rotation p) (rotationRadians p) (opacityDirection p)
     (sizeDirection p) v.
End Particle.

(** ** The heap of particle objects *)

Definition ref := nat.
Definition Heap := list Particle.t.

Definition deref (h : Heap) (r : ref) : option Particle.t := nth_error h r.

(** [h[r] = f(h[r])]: the object behind [r] is modified in place. *)
Fixpoint modify (f : Particle.t -> Particle.t) (r : ref) (h : Heap) : Heap :=
  match h, r with
  | [], _ => []
  | p :: h', O => f p :: h'
  | p :: h', S r' => p :: modify f r' h'
  end.

(** ** utils/QuadTree.ts *)

Module Boundary.
Record t := mk { x : Q; y : Q; w : Q; h : Q }.

Definition contains (b : t) (p : Particle.t) : bool :=
  Qgeb (Particle.x p) (x b) &&
  Qleb (Particle.x p) (x b + w b) &&
  Qgeb (Particle.y p) (y b) &&
  Qleb (Particle.y p) (y b + h b).

Definition intersects (b range : t) : bool :=
  negb (Qgtb (x range) (x b + w b) ||
        Qltb (x range + w range) (x b) ||
        Qgtb (y range) (y b + h b) ||
        Qltb (y range + h range) (y b)).

(** [contains] on a reference; a reference outside the heap, which the
    source cannot hold, is contained nowhere. *)
Definition containsRef (hp : Heap) (b : t) (r : ref) : bool :=
  match deref hp r with
  | Some p => contains b p
  | None => false
  end.
End Boundary.

Module QuadTree.
(** A node that is not [divided] is a [Leaf]; a divided node is a [Quad]
    with its four sub-quadrants. *)
Inductive t :=
| Leaf (boundary : Boundary.t) (particles : list ref)
| Quad (boundary : Boundary.t) (particles : list ref)
       (northwest northeast southwest southeast : t).

Definition capacity : nat := 4.

Definition boundary (q : t) : Boundary.t :=
  match q with Leaf b _ => b | Quad b _ _ _ _ _ => b end.

Definition particles (q : t) : list ref :=
  match q with Leaf _ ps => ps | Quad _ ps _ _ _ _ => ps end.

Definition divided (q : t) : bool :=
  match q with Leaf _ _ => false | Quad _ _ _ _ _ _ => true end.

(** [new QuadTree(boundary)] *)
Definition new (b : Boundary.t) : t := Leaf b [].

(** [subdivide]: the half width [hw] and the half height [hh], and the
    boundaries of the four sub-quadrants, in the program's arithmetic. *)
Definition hw (b : Boundary.t) : Q := fl (Boundary.w b / 2).
Definition hh (b : Boundary.t) : Q := fl (Boundary.h b / 2).

Definition northwestOf (b : Boundary.t) : Boundary.t :=
  Boundary.mk (Boundary.x b) (Boundary.y b) (hw b) (hh b).
Definition northeastOf (b : Boundary.t) : Boundary.t :=
  Boundary.mk (fl (Boundary.x b + hw b)) (Boundary.y b) (hw b) (hh b).
Definition southwestOf (b : Boundary.t) : Boundary.t :=
  Boundary.mk (Boundary.x b) (fl (Boundary.y b + hh b)) (hw b) (hh b).
Definition southeastOf (b : Boundary.t) : Boundary.t :=
  Boundary.mk (fl (Boundary.x b + hw b)) (fl (Boundary.y b + hh b)) (hw b) (hh b).

Definition subdivide (q : t) : t :=
  let b := boundary q in
  Quad b (particles q)
       (new (northwestOf b)) (new (northeastOf b))
       (new (southwestOf b)) (new (southeastOf b)).

(** [this.particles.push(p)] *)
Definition push (p : ref) (q : t) : t :=
  match q with
  | Leaf b ps => Leaf b (ps ++ [p])
  | Quad b ps nw ne sw se => Quad b (ps ++ [p]) nw ne sw se
  end.

(** [insert], with the recursion depth bounded by [fuel]; [None] is an
    exhausted bound.  [insert_enough_fuel] below shows that
    [2 + depth q] always suffices. *)
Fixpoint insert_fuel (fuel : nat) (hp : Heap) (q : t) (p : ref)
  : option (t * bool) :=
  match fuel with
  | O => None
  | S fuel' =>
    if negb (Boundary.containsRef hp (boundary q) p) then Some (q, false)
    else if (length (particles q) <? capacity)%nat then Some (push p q, true)
    else
      match (if divided q then q else subdivide q) with
      | Leaf _ _ => None
      | Quad b ps nw ne sw se =>
        match insert_fuel fuel' hp nw p with
        | None => None
        | Some (nw', true) => Some (Quad b ps nw' ne sw se, true)
        | Some (nw', false) =>
          match insert_fuel fuel' hp ne p with
          | None => None
          | Some (ne', true) => Some (Quad b ps nw' ne' sw se, true)
          | Some (ne', false) =>
            match insert_fuel fuel' hp sw p with
            | None => None
            | Some (sw', true) => Some (Quad b ps nw' ne' sw' se, true)
            | Some (sw', false) =>
              match insert_fuel fuel' hp se p with
              | None => None
              | Some (se', r) => Some (Quad b ps nw' ne' sw' se', r)
              end
            end
          end
        end
      end
  end.

Fixpoint depth (q : t) : nat :=
  match q with
  | Leaf _ _ => O
  | Quad _ _ nw ne sw se =>
    S (Nat.max (Nat.max (depth nw) (depth ne)) (Nat.max (depth sw) (depth se)))
  end.

(** [insert]: the node after the call and the returned boolean. *)
Definition insert (hp : Heap) (q : t) (p : ref) : t * bool :=
  match insert_fuel (2 + depth q) hp q p with
  | Some r => r
  | None => (q, false)
  end.

(** [query(range, found)] *)
Fixpoint query (hp : Heap) (q : t) (range : Boundary.t) (found : list ref)
  : list ref :=
  if negb (Boundary.intersects (boundary q) range) then found
  else
    let found := found ++ filter (Boundary.containsRef hp range) (particles q) in
    match q with
    | Leaf _ _ => found
    | Quad _ _ nw ne sw se =>
      query hp se range (query hp sw range (query hp ne range (query hp nw range found)))
    end.

(** Every reference held in the subtree, in the order [query] visits them. *)
Fixpoint elements (q : t) : list ref :=
  match q with
  | Leaf _ ps => ps
  | Quad _ ps nw ne sw se =>
    ps ++ elements nw ++ elements ne ++ elements sw ++ elements se
  end.

(** Inserting a list of references one after the other, as [Engine.render]
    does; the second component collects the references whose [insert]
    returned [true]. *)
Fixpoint insertAll (hp : Heap) (q : t) (l : list ref) : t * list ref :=
  match l with
  | [] => (q, [])
  | p :: l' =>
    let '(q', ok) := insert hp q p in
    let '(q'', oks) := insertAll hp q' l' in
    (q'', if ok then p :: oks else oks)
  end.

(** Sub-quadrants have the boundaries [subdivide] computes from their parent's. *)
Fixpoint wf (q : t) : Prop :=
  match q with
  | Leaf _ _ => True
  | Quad b _ nw ne sw se =>
    boundary nw = northwestOf b /\ boundary ne = northeastOf b /\
    boundary sw = southwestOf b /\ boundary se = southeastOf b /\
    wf nw /\ wf ne /\ wf sw /\ wf se
  end.

(** Every reference held in a subtree lies within the boundary of the
    subtree's root. *)
Fixpoint inside (hp : Heap) (q : t) : Prop :=
  Forall (fun p => Boundary.containsRef hp (boundary q) p = true) (elements q) /\
  match q with
  | Leaf _ _ => True
  | Quad _ _ nw ne sw se =>
    inside hp nw /\ inside hp ne /\ inside hp sw /\ inside hp se
  end.
End QuadTree.

(** ** Host functions *)

(** The functions of the host's [Math] object that the sources call. *)
Record MathLib := mkMath {
  Math_sqrt : Q -> Q;
  Math_cos : Q -> Q;
  Math_sin : Q -> Q;
  Math_atan2 : Q -> Q -> Q;
  Math_PI : Q
}.

(** [Math.random()]: the draws come from a fixed stream, read at a cursor. *)
Record Rng := mkRng { draws : nat -> Q; cursor : nat }.

Definition random (g : Rng) : Q * Rng :=
  (draws g (cursor g), mkRng (draws g) (S (cursor g))).

(** A number used as a condition: [0] is falsy. *)
Definition truthy (v : Q) : bool := negb (Qeq_bool v 0).

(** The number of passes of [for (let i = 0; i < n; i++)]. *)
Definition loopCount (n : Q) : nat := Z.to_nat (Qceiling n).

(** ** utils/physics.ts *)

(** [DIRECTION_MAP[to] || { x: 1, y: 1 }]; a numeric direction is no key of
    the map. *)
Definition DIRECTION_MAP (to : MoveDirection) : Q * Q :=
  match to with
  | dir_top => (0, -(1))
  | dir_top_left => (-(1), -(1))
  | dir_top_right => (1, -(1))
  | dir_right => (1, 0)
  | dir_bottom => (0, 1)
  | dir_bottom_left => (-(1), 1)
  | dir_bottom_right => (1, 1)
  | dir_left => (-(1), 0)
  | dir_none => (1, 1)
  | dir_angle _ => (1, 1)
  end.

(** The horizontal half of the bounce branch. *)
Definition bounceX (r wd : Q) (p : Particle.t) : Particle.t :=
  if Qleb (Particle.x p - r) 0 && Qltb (Particle.vx p) 0 then
    let overlap := - (Particle.x p - r) in
    Particle.set_x (r + overlap) (Particle.set_vx (Particle.vx p * -(1)) p)
  else if Qgeb (Particle.x p + r) wd && Qgtb (Particle.vx p) 0 then
    let overlap := Particle.x p + r - wd in
    Particle.set_x (wd - r - overlap) (Particle.set_vx (Particle.vx p * -(1)) p)
  else p.

(** The vertical half of the bounce branch. *)
Definition bounceY (r ht : Q) (p : Particle.t) : Particle.t :=
  if Qleb (Particle.y p - r) 0 && Qltb (Particle.vy p) 0 then
    let overlap := - (Particle.y p - r) in
    Particle.set_y (r + overlap) (Particle.set_vy (Particle.vy p * -(1)) p)
  else if Qgeb (Particle.y p + r) ht && Qgtb (Particle.vy p) 0 then
    let overlap := Particle.y p + r - ht in
    Particle.set_y (ht - r - overlap) (Particle.set_vy (Particle.vy p * -(1)) p)
  else p.

(** The horizontal half of the wrap branch. *)
Definition wrapX (r wrapWidth wd : Q) (p : Particle.t) : Particle.t :=
  if Qltb (Particle.x p + r) 0 then Particle.set_x (Particle.x p + wrapWidth) p
  else if Qgtb (Particle.x p - r) wd then Particle.set_x (Particle.x p - wrapWidth) p
  else p.

(** The vertical half of the wrap branch. *)
Definition wrapY (r wrapHeight ht : Q) (p : Particle.t) : Particle.t :=
  if Qltb (Particle.y p + r) 0 then Particle.set_y (Particle.y p + wrapHeight) p
  else if Qgtb (Particle.y p - r) ht then Particle.set_y (Particle.y p - wrapHeight) p
  else p.

(** [handleOutMode(particle, canvas)] *)
Definition handleOutMode (cfg : Config) (canvas : Canvas) (p : Particle.t)
  : Particle.t :=
  let r := Particle.radius p in
  let wrapWidth := width canvas + r * 2 in
  let wrapHeight := height canvas + r * 2 in
  match move_out_mode cfg with
  | mode_bounce => bounceY r (height canvas) (bounceX r (width canvas) p)
  | mode_out =>
    wrapY r wrapHeight (height canvas) (wrapX r wrapWidth (width canvas) p)
  end.

Definition rangeRadius : Q := 200.

(** The square of half-width [rangeRadius] centred on a particle. *)
Definition attractRange (o : Particle.t) : Boundary.t :=
  Boundary.mk (Particle.x o - rangeRadius) (Particle.y o - rangeRadius)
              (rangeRadius * 2) (rangeRadius * 2).

(** The body of the inner loop of [applyAttraction], for the neighbour [p2]
    of [p1]. *)
Definition attractStep (rotX rotY : Q) (p1 : ref) (hp : Heap) (p2 : ref) : Heap :=
  if Nat.eqb p1 p2 then hp
  else
    match deref hp p1, deref hp p2 with
    | Some o1, Some o2 =>
      let dx := Particle.x o1 - Particle.x o2 in
      let dy := Particle.y o1 - Particle.y o2 in
      modify (fun o => Particle.set_vy (Particle.vy o - dy / rotY)
                         (Particle.set_vx (Particle.vx o - dx / rotX) o)) p1 hp
    | _, _ => hp
    end.

(** The body of the outer loop of [applyAttraction]. *)
Definition attractParticle (rotX rotY : Q) (qtree : QuadTree.t) (hp : Heap) (p1 : ref)
  : Heap :=
  match deref hp p1 with
  | Some o1 =>
    let neighbors := QuadTree.query hp qtree (attractRange o1) [] in
    fold_left (attractStep rotX rotY p1) neighbors hp
  | None => hp
  end.

(** [applyAttraction(particles, config, qtree)] *)
Definition applyAttraction (particles : list ref) (cfg : Config) (qtree : QuadTree.t)
  (hp : Heap) : Heap :=
  if negb (move_attract_enable cfg) then hp
  else
    let rotX := move_attract_rotateX cfg * 1000 in
    let rotY := move_attract_rotateY cfg * 1000 in
    fold_left (attractParticle rotX rotY qtree) particles hp.

(** ** utils/interaction.ts *)

Record Mouse := mkMouse { mouse_x : Q; mouse_y : Q; mouse_active : bool }.

(** The bubble reset of one particle. *)
Definition bubbleReset (o : Particle.t) : Particle.t :=
  Particle.set_opacity (Particle.initialOpacity o)
    (Particle.set_radius (Particle.initialRadius o) o).

(** The search distance of the active mode. *)
Definition queryDistOf (cfg : Config) : Q :=
  match onhover_mode cfg with
  | mode_grab => modes_grab_distance cfg
  | mode_bubble => modes_bubble_distance cfg
  | mode_repulse => modes_repulse_distance cfg
  end.

(** The body of the loop over the neighbours, on the particle object.  The
    grab mode only draws a line. *)
Definition interactOne (M : MathLib) (cfg : Config) (mouse : Mouse) (o : Particle.t)
  : Particle.t :=
  let mx := mouse_x mouse in
  let my := mouse_y mouse in
  let queryDist := queryDistOf cfg in
  let dx := Particle.x o - mx in
  let dy := Particle.y o - my in
  let distSq := dx * dx + dy * dy in
  let limitSq := queryDist * queryDist in
  if Qltb distSq limitSq then
    let dist := Math_sqrt M distSq in
    match onhover_mode cfg with
    | mode_grab => o
    | mode_bubble =>
      let ratio := 1 - dist / modes_bubble_distance cfg in
      let o := Particle.set_radius
                 (Particle.initialRadius o +
                  (modes_bubble_size cfg - Particle.initialRadius o) * ratio) o in
      match modes_bubble_opacity cfg with
      | Some bo =>
        if truthy bo then
          Particle.set_opacity
            (Particle.initialOpacity o + (bo - Particle.initialOpacity o) * ratio) o
        else o
      | None => o
      end
    | mode_repulse =>
      let force := (modes_repulse_distance cfg - dist) / modes_repulse_distance cfg in
      let angle := Math_atan2 M dy dx in
      Particle.set_y (Particle.y o + Math_sin M angle * force * 10)
        (Particle.set_x (Particle.x o + Math_cos M angle * force * 10) o)
    end
  else o.

(** The square search area centred on the pointer. *)
Definition searchAreaOf (cfg : Config) (mouse : Mouse) : Boundary.t :=
  let queryDist := queryDistOf cfg in
  Boundary.mk (mouse_x mouse - queryDist) (mouse_y mouse - queryDist)
              (queryDist * 2) (queryDist * 2).

(** [applyInteractions(qtree, mouse, config, ctx, allParticles)] *)
Definition applyInteractions (M : MathLib) (qtree : QuadTree.t) (mouse : Mouse)
  (cfg : Config) (allParticles : list ref) (hp : Heap) : Heap :=
  let hp :=
    match onhover_mode cfg with
    | mode_bubble => fold_left (fun hp p => modify bubbleReset p hp) allParticles hp
    | _ => hp
    end in
  if negb (mouse_active mouse) || negb (onhover_enable cfg) then hp
  else
    let neighbors := QuadTree.query hp qtree (searchAreaOf cfg mouse) [] in
    fold_left (fun hp p => modify (interactOne M cfg mouse) p hp) neighbors hp.

(** ** classes/Particle.ts, the methods *)

Definition handleSway (M : MathLib) (cfg : Config) (delta : Q) (p : Particle.t)
  : Particle.t :=
  if negb (sway_enable cfg) then p
  else
    let p := Particle.set_swayPhase
               (Particle.swayPhase p + sway_frequency cfg * delta) p in
    Particle.set_x
      (Particle.x p +
       Math_cos M (Particle.swayPhase p) * (sway_amplitude cfg * 0.1) * delta) p.

Definition handleOpacityAnimation (cfg : Config) (delta : Q) (p : Particle.t)
  : Particle.t :=
  if negb (opacity_anim_enable cfg) then p
  else
    let p := Particle.set_opacity
               (Particle.opacity p +
                (opacity_anim_speed cfg / 1000) * Particle.opacityDirection p * delta)
               p in
    let p :=
      if Qgeb (Particle.opacity p) (opacity_value cfg) then
        Particle.set_opacity (opacity_value cfg) (Particle.set_opacityDirection (-(1)) p)
      else if Qleb (Particle.opacity p) (opacity_anim_opacity_min cfg) then
        Particle.set_opacity (opacity_anim_opacity_min cfg)
          (Particle.set_opacityDirection 1 p)
      else p in
    let p := if Qltb (Particle.opacity p) 0 then Particle.set_opacity 0 p else p in
    let p := if Qgtb (Particle.opacity p) 1 then Particle.set_opacity 1 p else p in
    Particle.set_initialOpacity (Particle.opacity p) p.

Definition handleSizeAnimation (cfg : Config) (delta : Q) (p : Particle.t)
  : Particle.t :=
  if negb (size_anim_enable cfg) then p
  else
    let p := Particle.set_radius
               (Particle.radius p +
                (size_anim_speed cfg / 100) * Particle.sizeDirection p * delta) p in
    let p :=
      if Qgeb (Particle.radius p) (size_value cfg) then
        Particle.set_radius (size_value cfg) (Particle.set_sizeDirection (-(1)) p)
      else if Qleb (Particle.radius p) (size_anim_size_min cfg) then
        Particle.set_radius (size_anim_size_min cfg) (Particle.set_sizeDirection 1 p)
      else p in
    let p := if Qltb (Particle.radius p) 0 then Particle.set_radius 0 p else p in
    let p := if Qgtb (Particle.radius p) (size_value cfg)
             then Particle.set_radius (size_value cfg) p else p in
    Particle.set_initialRadius (Particle.radius p) p.

Definition handleRotationAnimation (M : MathLib) (cfg : Config) (delta : Q)
  (p : Particle.t) : Particle.t :=
  if negb (rotate_enable cfg) || negb (rotate_anim_enable cfg) then p
  else
    let sign := match rotate_anim_direction cfg with
                | clockwise => 1
                | counter_clockwise => -(1)
                end in
    let p := Particle.set_rotation
               (Particle.rotation p + rotate_anim_speed cfg * sign * delta) p in
    let p :=
      if Qgtb (Particle.rotation p) 360 then
        Particle.set_rotation (Particle.rotation p - 360) p
      else if Qltb (Particle.rotation p) 0 then
        Particle.set_rotation (Particle.rotation p + 360) p
      else p in
    Particle.set_rotationRadians ((Particle.rotation p * Math_PI M) / 180) p.

(** [getDepth()]; [a || 1] is [1] when [a] is [0]. *)
Definition getDepth (cfg : Config) (p : Particle.t) : Q :=
  let minSize := if size_anim_enable cfg then size_anim_size_min cfg else 0 in
  let span := size_value cfg - minSize in
  (Particle.radius p - minSize) / (if truthy span then span else 1).

(** The first two statements of [update]: the position advances by the
    velocity. *)
Definition integrate (delta : Q) (p : Particle.t) : Particle.t :=
  let p := Particle.set_x (Particle.x p + Particle.vx p * delta) p in
  Particle.set_y (Particle.y p + Particle.vy p * delta) p.

(** [update(delta)] *)
Definition update (M : MathLib) (cfg : Config) (canvas : Canvas) (delta : Q)
  (p : Particle.t) : Particle.t :=
  let p := integrate delta p in
  let p := handleOutMode cfg canvas p in
  let p := if sway_enable cfg then handleSway M cfg delta p else p in
  let p := if opacity_anim_enable cfg then handleOpacityAnimation cfg delta p else p in
  let p := if size_anim_enable cfg then handleSizeAnimation cfg delta p else p in
  if rotate_enable cfg && rotate_anim_enable cfg
  then handleRotationAnimation M cfg delta p else p.

(** [initVelocity()], returning the velocity.  The draw for the randomised
    speed is made whether or not it is used. *)
Definition initVelocity (cfg : Config) (g : Rng) : Q * Q * Rng :=
  if negb (move_enable cfg) then (0, 0, g)
  else
    let multiplier := DIRECTION_MAP (move_direction_to cfg) in
    let '(dirX, g) :=
      if move_direction_random cfg
      then let '(r, g) := random g in (r - 0.5, g) else (fst multiplier, g) in
    let '(dirY, g) :=
      if move_direction_random cfg
      then let '(r, g) := random g in (r - 0.5, g) else (snd multiplier, g) in
    let '(r, g) := random g in
    let randomizedSpeed :=
      Qmax (Qmin (r * move_speed cfg)
                 (match move_randomized_max cfg with Some m => m | None => 5 end))
           (match move_randomized_min cfg with Some m => m | None => 1 end) in
    let varSpeed := if move_randomized_enable cfg then randomizedSpeed
                    else move_speed cfg in
    (dirX * varSpeed, dirY * varSpeed, g).

(** [new Particle(canvas, p, position)].  The colour cache, the image and the
    sprites are left out, and with them the draw that picks an image. *)
Definition newParticle (M : MathLib) (canvas : Canvas) (cfg : Config)
  (position : option (Q * Q)) (g : Rng) : Particle.t * Rng :=
  let spawnBuffer := size_value cfg * 2 in
  let '(x0, g) :=
    match position with
    | Some pos => (fst pos, g)
    | None => let '(r, g) := random g in
              (r * (width canvas + spawnBuffer * 2) - spawnBuffer, g)
    end in
  let '(y0, g) :=
    match position with
    | Some pos => (snd pos, g)
    | None => let '(r, g) := random g in
              (r * (height canvas + spawnBuffer * 2) - spawnBuffer, g)
    end in
  let '(opacity0, opacityDirection0, g) :=
    if opacity_anim_enable cfg && negb (opacity_anim_sync cfg) then
      let '(r1, g) := random g in
      let '(r2, g) := random g in
      (r1 * (opacity_value cfg - opacity_anim_opacity_min cfg)
       + opacity_anim_opacity_min cfg,
       if Qgtb r2 0.5 then 1 else -(1), g)
    else
      let '(f, g) := if opacity_random cfg then random g else (1, g) in
      (f * opacity_value cfg, 1, g) in
  let '(radius0, sizeDirection0, g) :=
    if size_anim_enable cfg && negb (size_anim_sync cfg) then
      let '(r1, g) := random g in
      let '(r2, g) := random g in
      (r1 * (size_value cfg - size_anim_size_min cfg) + size_anim_size_min cfg,
       if Qgtb r2 0.5 then 1 else -(1), g)
    else
      let '(f, g) := if size_random cfg then random g else (1, g) in
      (f * size_value cfg, 1, g) in
  let '(rotation0, rotationRadians0, g) :=
    if rotate_enable cfg then
      let '(rot, g) :=
        if (rotate_anim_enable cfg && negb (rotate_anim_sync cfg)) || rotate_random cfg
        then let '(r, g) := random g in (r * 360, g)
        else (rotate_value cfg, g) in
      (rot, (rot * Math_PI M) / 180, g)
    else (0, 0, g) in
  let '(swayPhase0, g) :=
    if sway_enable cfg then
      if sway_random cfg
      then let '(r, g) := random g in (r * Math_PI M * 2, g)
      else (0, g)
    else (0, g) in
  let '(vx0, vy0, g) := initVelocity cfg g in
  (Particle.mk x0 y0 vx0 vy0 radius0 opacity0 radius0 opacity0
               rotation0 rotationRadians0 opacityDirection0 sizeDirection0
               swayPhase0, g).

(** [count] calls of the constructor, one after the other. *)
Fixpoint spawn (M : MathLib) (canvas : Canvas) (cfg : Config)
  (position : option (Q * Q)) (count : nat) (g : Rng) : list Particle.t * Rng :=
  match count with
  | O => ([], g)
  | S count' =>
    let '(p, g) := newParticle M canvas cfg position g in
    let '(ps, g) := spawn M canvas cfg position count' g in
    (p :: ps, g)
  end.

(** ** classes/Engine.ts *)

(** The key of the comparator passed to [sort]: the squared distance of a
    particle to the pointer. *)
Definition distSqTo (mouse : Mouse) (a : Particle.t) : Q :=
  let dx := Particle.x a - mouse_x mouse in
  let dy := Particle.y a - mouse_y mouse in
  dx * dx + dy * dy.

(** The comparator [(a, b) => distA - distB]. *)
Definition compareDist (mouse : Mouse) (a b : Particle.t) : Q :=
  distSqTo mouse a - distSqTo mouse b.

(** [Array.prototype.sort(cmp)].  ECMAScript requires the sort to be stable
    and leaves the algorithm to the host; insertion from the right computes
    the stable result: [a] goes after [b] only when [cmp(a, b) > 0]. *)
Fixpoint sortInsert {A : Type} (cmp : A -> A -> Q) (a : A) (l : list A) : list A :=
  match l with
  | [] => [a]
  | b :: l' => if Qgtb (cmp a b) 0 then b :: sortInsert cmp a l' else a :: b :: l'
  end.

Fixpoint sort {A : Type} (cmp : A -> A -> Q) (l : list A) : list A :=
  match l with
  | [] => []
  | a :: l' => sortInsert cmp a (sort cmp l')
  end.

(** [splice(0, deleteCount)]: the count is truncated to an integer and
    clamped to the length; the removed entries are returned, the rest stays. *)
Definition spliceCount (deleteCount : Q) : nat := Z.to_nat (Qfloor deleteCount).

Definition splice0 (deleteCount : Q) (l : list Particle.t)
  : list Particle.t * list Particle.t :=
  (firstn (spliceCount deleteCount) l, skipn (spliceCount deleteCount) l).

Module Engine.
Record t := mk {
  particles : Heap;
  config : Config;
  mouse : Mouse;
  canvas : Canvas;
  lastTimestamp : Q;
  firstFrame : bool;
  rng : Rng
}.

Definition set_particles (ps : Heap) (e : t) : t :=
  mk ps (config e) (mouse e) (canvas e) (lastTimestamp e) (firstFrame e) (rng e).

Definition set_rng (g : Rng) (e : t) : t :=
  mk (particles e) (config e) (mouse e) (canvas e) (lastTimestamp e) (firstFrame e) g.

Definition set_mouse (m : Mouse) (e : t) : t :=
  mk (particles e) (config e) m (canvas e) (lastTimestamp e) (firstFrame e) (rng e).

(** [calculateParticleCount()] *)
Definition calculateParticleCount (e : t) : Q :=
  let value := number_value (config e) in
  if negb (number_density_enable (config e)) then value
  else
    let canvasArea := fl (width (canvas e) * height (canvas e)) in
    let densityArea := fl (Qmax (number_density_area (config e)) (fl 0.001) * 1000) in
    let count := inject_Z (Qfloor (fl (fl (canvasArea / densityArea) * value))) in
    Qmin count 2000.

(** [init()]; the notification that the images are loaded is left out. *)
Definition init (M : MathLib) (e : t) : t :=
  let count := calculateParticleCount e in
  let '(ps, g) := spawn M (canvas e) (config e) None (loopCount count) (rng e) in
  set_rng g (set_particles ps e).

(** The state a constructed engine starts from: [init] on an engine that
    holds no particle and has run no frame.  The canvas has the size
    [resizeCanvas] gave it. *)
Definition create (M : MathLib) (cv : Canvas) (cfg : Config) (g : Rng) : t :=
  init M (mk [] cfg (mkMouse 0 0 false) cv 0 true g).

(** [handleMouseMove], with the pointer position relative to the canvas. *)
Definition handleMouseMove (mx my : Q) (e : t) : t :=
  set_mouse (mkMouse mx my true) e.

Definition handleMouseLeave (e : t) : t :=
  set_mouse (mkMouse (mouse_x (mouse e)) (mouse_y (mouse e)) false) e.

(** The remove branch of [handleClick]: the removed particles and the array
    as it is left. *)
Definition removeClosest (e : t) : list Particle.t * list Particle.t :=
  splice0 (modes_remove_quantity (config e))
          (sort (compareDist (mouse e)) (particles e)).

(** [handleClick()] *)
Definition handleClick (M : MathLib) (e : t) : t :=
  if negb (onclick_enable (config e)) then e
  else
    match onclick_mode (config e) with
    | mode_push =>
      let '(ps, g) :=
        spawn M (canvas e) (config e)
              (Some (mouse_x (mouse e), mouse_y (mouse e)))
              (loopCount (modes_push_quantity (config e))) (rng e) in
      set_rng g (set_particles (particles e ++ ps) e)
    | mode_remove => set_particles (snd (removeClosest e)) e
    end.

(** The references of the particle array, in order. *)
Definition refs (hp : Heap) : list ref := seq 0 (length hp).

(** The quad tree [render] builds for a frame. *)
Definition buildTree (e : t) : QuadTree.t :=
  fst (QuadTree.insertAll (particles e)
         (QuadTree.new (Boundary.mk 0 0 (width (canvas e)) (height (canvas e))))
         (refs (particles e))).

(** The time factor of a frame. *)
Definition deltaOf (e : t) (timestamp : Q) : Q :=
  let elapsed := timestamp - lastTimestamp e in
  let elapsed := if Qgtb elapsed 100 then 16.67 else elapsed in
  elapsed / (1000 / 60).

(** [render(timestamp)], one frame.  Clearing the canvas, drawing and the
    request for the next frame are left out. *)
Definition render (M : MathLib) (e : t) (timestamp : Q) : t :=
  if firstFrame e then
    mk (particles e) (config e) (mouse e) (canvas e) timestamp false (rng e)
  else
    let delta := deltaOf e timestamp in
    let qtree := buildTree e in
    let hp := applyAttraction (refs (particles e)) (config e) qtree (particles e) in
    let hp := applyInteractions M qtree (mouse e) (config e) (refs hp) hp in
    let hp := map (update M (config e) (canvas e) delta) hp in
    mk hp (config e) (mouse e) (canvas e) timestamp false (rng e).
End Engine.

(** ** Predicates and functions used to state the properties *)

(** The rectangle [range] covers the rectangle [b]. *)
Definition covers (range b : Boundary.t) : Prop :=
  Boundary.x range <= Boundary.x b /\
  Boundary.x b + Boundary.w b <= Boundary.x range + Boundary.w range /\
  Boundary.y range <= Boundary.y b /\
  Boundary.y b + Boundary.h b <= Boundary.y range + Boundary.h range.

(** The quadrants [subdivide] computes for [b] leave no gap: the eastern
    ones start where the western ones end, or before, and reach the right
    edge of [b]; likewise the southern and the northern ones.  With exact
    halves this always holds; the rounding of [x + hw] and [y + hh] can break
    it. *)
Definition gapFree (b : Boundary.t) : Prop :=
  fl (Boundary.x b + QuadTree.hw b) <= Boundary.x b + QuadTree.hw b /\
  Boundary.x b + Boundary.w b <= fl (Boundary.x b + QuadTree.hw b) + QuadTree.hw b /\
  fl (Boundary.y b + QuadTree.hh b) <= Boundary.y b + QuadTree.hh b /\
  Boundary.y b + Boundary.h b <= fl (Boundary.y b + QuadTree.hh b) + QuadTree.hh b.

(** The halves and the mid lines of [b] are computed without rounding. *)
Definition exactHalves (b : Boundary.t) : Prop :=
  fl (Boundary.w b / 2) == Boundary.w b / 2 /\
  fl (Boundary.h b / 2) == Boundary.h b / 2 /\
  fl (Boundary.x b + Boundary.w b / 2) == Boundary.x b + Boundary.w b / 2 /\
  fl (Boundary.y b + Boundary.h b / 2) == Boundary.y b + Boundary.h b / 2.

(** A tree made by [subdivide] in which the quadrants of every node, divided
    or not yet, leave no gap. *)
Fixpoint tiled (q : QuadTree.t) : Prop :=
  gapFree (QuadTree.boundary q) /\
  match q with
  | QuadTree.Leaf _ _ => True
  | QuadTree.Quad b _ nw ne sw se =>
    QuadTree.boundary nw = QuadTree.northwestOf b /\
    QuadTree.boundary ne = QuadTree.northeastOf b /\
    QuadTree.boundary sw = QuadTree.southwestOf b /\
    QuadTree.boundary se = QuadTree.southeastOf b /\
    tiled nw /\ tiled ne /\ tiled sw /\ tiled se
  end.

(** The node [insert] delegates to: the node itself when divided, the node
    just subdivided otherwise. *)
Definition delegate (q : QuadTree.t) : QuadTree.t :=
  if QuadTree.divided q then q else QuadTree.subdivide q.

(** The count the density formula gives before the floor and the cap, in
    the program's arithmetic. *)
Definition rawCount (e : Engine.t) : Q :=
  fl (fl (fl (width (Engine.canvas e) * height (Engine.canvas e))
          / fl (Qmax (number_density_area (Engine.config e)) (fl 0.001) * 1000))
      * number_value (Engine.config e)).

(** The entries of an array paired with their positions. *)
Definition indexed (ps : list Particle.t) : list (nat * Particle.t) :=
  combine (seq 0 (length ps)) ps.

(** [closer mouse (i, a) (j, b)]: [a] at position [i] of the array precedes
    [b] at position [j] in the order of squared distance to the pointer,
    ties broken by position. *)
Definition closer (mouse : Mouse) (u v : nat * Particle.t) : Prop :=
  distSqTo mouse (snd u) < distSqTo mouse (snd v) \/
  (distSqTo mouse (snd u) == distSqTo mouse (snd v) /\ (fst u < fst v)%nat).

(** The comparator of [handleClick] on entries paired with a position. *)
Definition taggedCompare (mouse : Mouse) (u v : nat * Particle.t) : Q :=
  compareDist mouse (snd u) (snd v).

(** The sum of a list of numbers. *)
Definition Qsum (l : list Q) : Q := fold_right Qplus 0 l.

(** The coordinates of the particle behind a reference. *)
Definition xAt (hp : Heap) (r : ref) : Q :=
  match deref hp r with Some o => Particle.x o | None => 0 end.

Definition yAt (hp : Heap) (r : ref) : Q :=
  match deref hp r with Some o => Particle.y o | None => 0 end.

(** A particle with its velocity blanked: what [applyAttraction] must leave
    as it is. *)
Definition unvel (o : Particle.t) : Particle.t :=
  Particle.set_vy 0 (Particle.set_vx 0 o).

(** The neighbours of the particle [o] behind [p1] that attract it: the
    result of the query around [o], [p1] itself left out. *)
Definition attractors (hp : Heap) (qtree : QuadTree.t) (p1 : ref) (o : Particle.t)
  : list ref :=
  filter (fun p2 => negb (Nat.eqb p1 p2))
         (QuadTree.query hp qtree (attractRange o) []).

(** The interaction step on a heap whose bubble reset, if any, is done. *)
Definition interactNeighbours (M : MathLib) (qtree : QuadTree.t) (mouse : Mouse)
  (cfg : Config) (hp : Heap) : Heap :=
  if negb (mouse_active mouse) || negb (onhover_enable cfg) then hp
  else
    fold_left (fun h p => modify (interactOne M cfg mouse) p h)
              (QuadTree.query hp qtree (searchAreaOf cfg mouse) []) hp.

(** Radius and opacity are at their cached initial values. *)
Definition atBaseline (p : Particle.t) : Prop :=
  Particle.radius p = Particle.initialRadius p /\
  Particle.opacity p = Particle.initialOpacity p.

(** The bounds of the radius under size animation. *)
Definition radiusInRange (cfg : Config) (p : Particle.t) : Prop :=
  Particle.radius p <= size_value cfg /\
  (size_anim_size_min cfg <= size_value cfg ->
   size_anim_size_min cfg <= Particle.radius p) /\
  (0 <= size_value cfg -> 0 <= Particle.radius p).

(** The bounds of the opacity under opacity animation. *)
Definition opacityInRange (p : Particle.t) : Prop :=
  0 <= Particle.opacity p <= 1.

(** ** A host and sample states, to run the model on examples

    [rationalMath] stands in for the host's [Math] object where a run needs
    one.  Its square root is the integer square root at a scale of [2^-20],
    exact on the squares of small rationals; its trigonometric functions are
    low-order approximations.  The properties below hold for every
    [MathLib]. *)

Definition sqrtApprox (q : Q) : Q :=
  inject_Z (Z.sqrt (Qnum q * Zpos (Qden q) * 2 ^ 40))
  / (inject_Z (Zpos (Qden q)) * inject_Z (2 ^ 20)).

Definition cosApprox (a : Q) : Q := 1 - a * a / 2 + a * a * a * a / 24.

Definition sinApprox (a : Q) : Q := a - a * a * a / 6 + a * a * a * a * a / 120.

Definition piApprox : Q := 355 / 113.

Definition atan2Approx (dy dx : Q) : Q :=
  if Qgtb dx 0 then (dy / dx) / (1 + 0.28 * (dy / dx) * (dy / dx))
  else if Qltb dx 0 then
    (dy / dx) / (1 + 0.28 * (dy / dx) * (dy / dx))
    + (if Qgeb dy 0 then piApprox else - piApprox)
  else if Qgtb dy 0 then piApprox / 2
  else if Qltb dy 0 then - (piApprox / 2)
  else 0.

Definition rationalMath : MathLib :=
  mkMath sqrtApprox cosApprox sinApprox atan2Approx piApprox.

(** A stream of draws that are all [1/2]. *)
Definition halfRng : Rng := mkRng (fun _ => 1 / 2) 0.

(** A particle at rest at a position, of radius and opacity [1]. *)
Definition particleAt (px py : Q) : Particle.t :=
  Particle.mk px py 0 0 1 1 1 1 0 0 1 1 0.

(** A particle of radius [r] at a position, with a velocity. *)
Definition movingParticle (px py pvx pvy r : Q) : Particle.t :=
  Particle.mk px py pvx pvy r 1 r 1 0 0 1 1 0.

(** Six particles on a canvas of 100 by 100, and the tree that holds the
    first five: four in the root, the fifth in the south-east quadrant. *)
Definition insertSampleHeap : Heap :=
  [particleAt 10 10; particleAt 20 20; particleAt 30 30; particleAt 40 40;
   particleAt 60 60; particleAt 80 20].

Definition insertSampleTree : QuadTree.t :=
  fst (QuadTree.insertAll insertSampleHeap
         (QuadTree.new (Boundary.mk 0 0 100 100)) [0; 1; 2; 3; 4]%nat).

(** Five particles on a line through the pointer, and an engine holding them
    whose click mode removes the default two particles. *)
Definition removeSampleParticles : list Particle.t :=
  [particleAt 3 0; particleAt 1 0; particleAt 2 0; particleAt 4 0;
   particleAt (3 / 2) 0].

Definition removeSample : Engine.t :=
  Engine.mk removeSampleParticles (with_onclick_mode mode_remove DEFAULTS_default)
            (mkMouse 0 0 true) (mkCanvas 100 100) 0 false halfRng.

(** Three particles on a line, the first two within 200 of each other, in
    the tree [render] would build for them on a canvas of 800 by 600. *)
Definition attractSampleHeap : Heap :=
  [particleAt 100 100; particleAt 250 100; particleAt 700 100].

Definition attractSampleTree : QuadTree.t :=
  fst (QuadTree.insertAll attractSampleHeap
         (QuadTree.new (Boundary.mk 0 0 800 600)) (Engine.refs attractSampleHeap)).

(** An engine past its first frame, in bubble mode with hover disabled,
    holding a particle that a bubble has blown up to radius 40 from its
    cached radius 1. *)
Definition bubbleSample : Engine.t :=
  Engine.mk [Particle.mk 10 10 1 1 1 (1 / 2) 40 1 0 0 1 1 0]
            (with_onhover_enable false
               (with_onhover_mode mode_bubble DEFAULTS_default))
            (mkMouse 10 10 true) (mkCanvas 100 100) 0 false halfRng.

(** The default preset with a single particle and the hover mode bubble; an
    engine made from it on a canvas of 800 by 600, whose draws put the
    particle at (400, 300), with the pointer moved onto the particle and the
    first frame run. *)
Definition bubbleHoverConfig : Config :=
  with_number_value 1
    (with_number_density_enable false
       (with_onhover_mode mode_bubble DEFAULTS_default)).

Definition hoverEngine (cfg : Config) : Engine.t :=
  Engine.render rationalMath
    (Engine.handleMouseMove 400 300
       (Engine.create rationalMath (mkCanvas 800 600) cfg halfRng)) 0.

(** ** classes/Engine.ts, the resize and the animation loop *)

(** [resizeCanvas()]: the canvas takes the size it is displayed at. *)
Definition resizeCanvas (offsetWidth offsetHeight : Q) (e : Engine.t) : Engine.t :=
  Engine.mk (Engine.particles e) (Engine.config e) (Engine.mouse e)
            (mkCanvas offsetWidth offsetHeight) (Engine.lastTimestamp e)
            (Engine.firstFrame e) (Engine.rng e).

(** [handleResize()], for a canvas displayed at the given size. *)
Definition handleResize (M : MathLib) (offsetWidth offsetHeight : Q) (e : Engine.t)
  : Engine.t :=
  Engine.init M (resizeCanvas offsetWidth offsetHeight e).

(** The animation loop: [render] called with the timestamps of successive
    frames. *)
Definition frames (M : MathLib) (e : Engine.t) (timestamps : list Q) : Engine.t :=
  fold_left (Engine.render M) timestamps e.

(** ** classes/Particle.ts, [draw]

    Of the painting, the alpha and the choice of the sprite under depth blur
    are kept. *)

(** [draw]: the alpha a particle is painted with. *)
Definition globalAlpha (p : Particle.t) : Q :=
  if Qltb (Particle.opacity p) 0 then 0
  else if Qgtb (Particle.opacity p) 1 then 1 else Particle.opacity p.

(** [draw]: the index of the cached sprite a particle is painted with under
    depth blur, [0] (near), [1] (mid) or [2] (far). *)
Definition spriteIdx (cfg : Config) (p : Particle.t) : nat :=
  let depth := getDepth cfg p in
  if Qgtb depth 0.66 then 2%nat else if Qgtb depth 0.33 then 1%nat else 0%nat.

(** ** Further predicates and functions used to state the properties *)

(** No node holds more than [capacity] references, and a divided node holds
    exactly [capacity]. *)
Fixpoint withinCapacity (q : QuadTree.t) : Prop :=
  match q with
  | QuadTree.Leaf _ ps => (length ps <= QuadTree.capacity)%nat
  | QuadTree.Quad _ ps nw ne sw se =>
    length ps = QuadTree.capacity /\
    withinCapacity nw /\ withinCapacity ne /\ withinCapacity sw /\ withinCapacity se
  end.

(** A particle at rest at the corner shared by two intersecting boundaries
    that is the furthest to the top left. *)
Definition commonCorner (a b : Boundary.t) : Particle.t :=
  particleAt (Qmax (Boundary.x a) (Boundary.x b)) (Qmax (Boundary.y a) (Boundary.y b)).

(** The boundary of the tree [render] builds: the canvas. *)
Definition canvasBoundary (cv : Canvas) : Boundary.t :=
  Boundary.mk 0 0 (width cv) (height cv).

(** The tree of the frame holds every particle of the array, once. *)
Definition holdsAll (e : Engine.t) : Prop :=
  Permutation (QuadTree.elements (Engine.buildTree e))
              (Engine.refs (Engine.particles e)).

(** The area [calculateParticleCount] divides the canvas area by. *)
Definition densityArea (cfg : Config) : Q := Qmax (number_density_area cfg) 0.001 * 1000.

(** The smallest radius [getDepth] reckons with. *)
Definition minSizeOf (cfg : Config) : Q :=
  if size_anim_enable cfg then size_anim_size_min cfg else 0.

(** The signed speed of the rotation animation, in degrees per unit of
    time. *)
Definition rotationRate (cfg : Config) : Q :=
  rotate_anim_speed cfg *
  match rotate_anim_direction cfg with clockwise => 1 | counter_clockwise => -(1) end.

(** Every draw of the stream lies in [0, 1), as [Math.random] promises. *)
Definition unitDraws (g : Rng) : Prop := forall n, 0 <= draws g n < 1.

(** The rectangle a particle placed at random lies in: the canvas, widened
    on every side by the spawn buffer of twice the configured size. *)
Definition inSpawnBand (canvas : Canvas) (cfg : Config) (p : Particle.t) : Prop :=
  - (size_value cfg * 2) <= Particle.x p <= width canvas + size_value cfg * 2 /\
  - (size_value cfg * 2) <= Particle.y p <= height canvas + size_value cfg * 2.

(** The speed bounds of [move.randomized], with their defaults. *)
Definition speedMin (cfg : Config) : Q :=
  match move_randomized_min cfg with Some m => m | None => 1 end.

Definition speedMax (cfg : Config) : Q :=
  match move_randomized_max cfg with Some m => m | None => 5 end.

(** ** Further sample states *)

(** An engine past its first frame that holds the three particles of
    [attractSampleHeap], with attraction enabled. *)
Definition attractSample : Engine.t :=
  Engine.mk attractSampleHeap (with_move_attract_enable true DEFAULTS_default)
            (mkMouse 0 0 false) (mkCanvas 800 600) 0 false halfRng.

(** An engine past its first frame in the default repulse mode, on a canvas
    of 100 by 100, with the pointer at the left edge; its second particle is
    five pixels off the canvas, next to the pointer. *)
Definition offCanvasSample : Engine.t :=
  Engine.mk [particleAt 10 10; particleAt (-(5)) 10] DEFAULTS_default
            (mkMouse 0 10 true) (mkCanvas 100 100) 0 false halfRng.

(** An engine with the default preset, whose click mode is push, with the
    pointer at (30, 40) on a canvas of 100 by 100, holding one particle. *)
Definition pushSample : Engine.t :=
  Engine.mk [particleAt 1 1] DEFAULTS_default (mkMouse 30 40 true)
            (mkCanvas 100 100) 0 false halfRng.

(** The particle [o] behind [i] is under the bubble of the pointer: hover is
    active, the query around the pointer returns [i], and [o] is closer to
    the pointer than the bubble distance. *)
Definition bubbled (e : Engine.t) (i : ref) (o : Particle.t) : bool :=
  mouse_active (Engine.mouse e) && onhover_enable (Engine.config e) &&
  existsb (Nat.eqb i)
    (QuadTree.query (Engine.particles e) (Engine.buildTree e)
       (searchAreaOf (Engine.config e) (Engine.mouse e)) []) &&
  Qltb (distSqTo (Engine.mouse e) o)
       (modes_bubble_distance (Engine.config e) * modes_bubble_distance (Engine.config e)).

(** How far into the bubble the particle is: [1] at the pointer, [0] at the
    bubble distance. *)
Definition bubbleRatio (M : MathLib) (e : Engine.t) (o : Particle.t) : Q :=
  1 - Math_sqrt M (distSqTo (Engine.mouse e) o) / modes_bubble_distance (Engine.config e).

(** The bubble opacity of the configuration, when one is set and is not [0]. *)
Definition bubbleOpacityOf (cfg : Config) : option Q :=
  match modes_bubble_opacity cfg with
  | Some bo => if truthy bo then Some bo else None
  | None => None
  end.

(** The displacement [handleSway] adds to the horizontal position of [p]. *)
Definition swayStep (M : MathLib) (cfg : Config) (delta : Q) (p : Particle.t) : Q :=
  Math_cos M (Particle.swayPhase p + sway_frequency cfg * delta)
  * (sway_amplitude cfg * 0.1) * delta.

(** A particle of radius 3 moving leftward at [x = radius - 1], and one
    moving rightward at [x = width + radius + 1] on a canvas of width 100. *)
Definition leftEdgeParticle : Particle.t := movingParticle 2 50 (-(1)) 0 3.

Definition pastRightEdgeParticle : Particle.t := movingParticle 104 50 1 0 3.

(** A narrow node: the boundary at (1, 0) of width 5 * 2^-52 and height 1,
    holding four particles on its left edge; a fifth particle lies on its
    right edge.  Every coordinate is a binary64 number. *)
Definition narrowBoundary : Boundary.t := Boundary.mk 1 0 (5 # 2 ^ 52) 1.

Definition narrowHeap : Heap :=
  [particleAt 1 0; particleAt 1 0; particleAt 1 0; particleAt 1 0;
   particleAt (1 + (5 # 2 ^ 52)) 0].

Definition narrowTree : QuadTree.t :=
  fst (QuadTree.insertAll narrowHeap (QuadTree.new narrowBoundary) [0; 1; 2; 3]%nat).

(** A phone screen of 375 by 667 with a density area of 115 and a value of
    200. *)
Definition phoneEngine : Engine.t :=
  Engine.mk [] (with_number_value 200 (with_number_density_area 115 DEFAULTS_default))
            (mkMouse 0 0 false) (mkCanvas 375 667) 0 true halfRng.

(** * Properties *)

(** ** Comparisons *)

Lemma Qleb_le a b : Qleb a b = true <-> a <= b.
Proof. apply Qle_bool_iff. Qed.

Lemma Qltb_lt a b : Qltb a b = true <-> a < b.
Proof.
  unfold Qltb. rewrite negb_true_iff. split; intro H.
  - apply Qnot_le_lt. intro Hle. apply Qle_bool_iff in Hle. congruence.
  - destruct (Qle_bool b a) eqn:E; [|reflexivity].
    apply Qle_bool_iff in E. exfalso. exact (Qlt_not_le _ _ H E).
Qed.

Lemma Qleb_nle a b : Qleb a b = false <-> b < a.
Proof.
  rewrite <- Qltb_lt. unfold Qltb, Qleb.
  destruct (Qle_bool a b); simpl; intuition congruence.
Qed.

Lemma Qltb_nlt a b : Qltb a b = false <-> b <= a.
Proof.
  rewrite <- Qleb_le. unfold Qltb, Qleb.
  destruct (Qle_bool b a); simpl; intuition congruence.
Qed.

(** Turns boolean comparisons in the context and the goal into
    propositions that [lra] understands. *)
Ltac q2prop :=
  repeat match goal with
  | H : _ && _ = true |- _ => apply andb_true_iff in H; destruct H
  | H : _ || _ = false |- _ => apply orb_false_iff in H; destruct H
  | H : negb _ = true |- _ => apply negb_true_iff in H
  | H : negb _ = false |- _ => apply negb_false_iff in H
  | H : Qgeb _ _ = _ |- _ => unfold Qgeb in H
  | H : Qgtb _ _ = _ |- _ => unfold Qgtb in H
  | H : Qleb _ _ = true |- _ => apply Qleb_le in H
  | H : Qleb _ _ = false |- _ => apply Qleb_nle in H
  | H : Qltb _ _ = true |- _ => apply Qltb_lt in H
  | H : Qltb _ _ = false |- _ => apply Qltb_nlt in H
  end.

(** ** The heap *)

Lemma deref_modify_same f r hp o :
  deref hp r = Some o -> deref (modify f r hp) r = Some (f o).
Proof.
  unfold deref. revert r. induction hp as [|a hp IH]; intros [|r] H; simpl in *;
    try discriminate; [congruence | auto].
Qed.

Lemma deref_modify_other f r r' hp :
  r <> r' -> deref (modify f r hp) r' = deref hp r'.
Proof.
  unfold deref. revert r r'.
  induction hp as [|a hp IH]; intros [|r] [|r'] H; simpl; auto; congruence.
Qed.

(** ** Boundary *)

(** ** Rounding *)

Lemma fl_comp p q : p == q -> fl p = fl q.
Proof. intro H. unfold fl. rewrite (Qred_complete _ _ H). reflexivity. Qed.

Lemma fl_0 : fl 0 = 0.
Proof. reflexivity. Qed.

Lemma roundHalfEven_nonneg n d : (0 <= n)%Z -> (0 < d)%Z -> (0 <= roundHalfEven n d)%Z.
Proof.
  intros Hn Hd. unfold roundHalfEven.
  pose proof (Z.div_pos n d Hn Hd).
  destruct (2 * (n mod d) ?= d)%Z; [destruct (Z.even _)|..]; lia.
Qed.

Lemma flPos_nonneg n d : (0 < n)%Z -> (0 < d)%Z -> 0 <= flPos n d.
Proof.
  intros Hn Hd. unfold flPos.
  set (e := Z.max _ _).
  destruct (0 <=? e)%Z eqn:E.
  - apply Z.leb_le in E.
    change 0 with (inject_Z 0). rewrite <- Zle_Qle.
    apply Z.mul_nonneg_nonneg; [|apply Z.pow_nonneg; lia].
    apply roundHalfEven_nonneg; [lia|].
    apply Z.mul_pos_pos; [lia|]. apply Z.pow_pos_nonneg; lia.
  - apply Z.leb_gt in E. unfold Qle. cbn [Qnum Qden].
    pose proof (roundHalfEven_nonneg (n * 2 ^ (- e)) d) as H.
    assert (0 <= n * 2 ^ (- e))%Z.
    { apply Z.mul_nonneg_nonneg; [lia|]. apply Z.pow_nonneg. lia. }
    specialize (H ltac:(assumption) Hd). lia.
Qed.

Lemma fl_nonneg q : 0 <= q -> 0 <= fl q.
Proof.
  intro H. unfold fl.
  assert (Hq : 0 <= Qred q) by (rewrite Qred_correct; exact H).
  destruct (Qred q) as [n d]. cbn [Qnum Qden].
  destruct n as [|n|n].
  - apply Qle_refl.
  - rewrite Qred_correct. apply flPos_nonneg; lia.
  - exfalso. unfold Qle in Hq. cbn in Hq. lia.
Qed.

Section BoundaryFacts.
Variable hp : Heap.

Lemma contains_spec b o :
  Boundary.contains b o = true <->
  Boundary.x b <= Particle.x o <= Boundary.x b + Boundary.w b /\
  Boundary.y b <= Particle.y o <= Boundary.y b + Boundary.h b.
Proof.
  unfold Boundary.contains, Qgeb. rewrite !andb_true_iff, !Qleb_le. tauto.
Qed.

Lemma intersects_false b range :
  Boundary.intersects b range = false <->
  Boundary.x b + Boundary.w b < Boundary.x range \/
  Boundary.x range + Boundary.w range < Boundary.x b \/
  Boundary.y b + Boundary.h b < Boundary.y range \/
  Boundary.y range + Boundary.h range < Boundary.y b.
Proof.
  unfold Boundary.intersects, Qgtb.
  rewrite negb_false_iff, !orb_true_iff, !Qltb_lt. tauto.
Qed.

(** A point in both rectangles makes them intersect. *)
Lemma contains_both_intersects b range o :
  Boundary.contains b o = true -> Boundary.contains range o = true ->
  Boundary.intersects b range = true.
Proof.
  intros Hb Hr. apply contains_spec in Hb, Hr.
  destruct (Boundary.intersects b range) eqn:E; [reflexivity|].
  apply intersects_false in E. exfalso. lra.
Qed.

Lemma containsRef_spec b r :
  Boundary.containsRef hp b r = true <->
  exists o, deref hp r = Some o /\ Boundary.contains b o = true.
Proof.
  unfold Boundary.containsRef. destruct (deref hp r) as [o|].
  - split; [eauto | intros (o' & [= <-] & H); exact H].
  - split; [discriminate | intros (o' & [=] & _)].
Qed.

Lemma filter_disjoint b range l :
  Boundary.intersects b range = false ->
  Forall (fun p => Boundary.containsRef hp b p = true) l ->
  filter (Boundary.containsRef hp range) l = [].
Proof.
  intros Hi Hall. induction Hall as [|p l Hp _ IH]; simpl; [reflexivity|].
  destruct (Boundary.containsRef hp range p) eqn:E; [|exact IH].
  apply containsRef_spec in Hp, E.
  destruct Hp as (o & Ho & Hb), E as (o' & Ho' & Hr).
  assert (o' = o) by congruence. subst o'.
  rewrite (contains_both_intersects _ _ _ Hb Hr) in Hi. discriminate.
Qed.

(** A rectangle that covers another contains its points. *)
Lemma covers_contains range b o :
  covers range b -> Boundary.contains b o = true ->
  Boundary.contains range o = true.
Proof.
  unfold covers. intros Hc Hb. apply contains_spec in Hb. apply contains_spec. lra.
Qed.

Lemma Qhalf_double (a : Q) : a / 2 + a / 2 == a.
Proof. field. Qed.

(** Membership in a quadrant of [b], as linear arithmetic. *)
Ltac quarter :=
  apply contains_spec;
  cbn [QuadTree.northwestOf QuadTree.northeastOf QuadTree.southwestOf
       QuadTree.southeastOf Boundary.x Boundary.y Boundary.w Boundary.h];
  lra.

Lemma exactHalves_spec b :
  exactHalves b ->
  QuadTree.hw b == Boundary.w b / 2 /\ QuadTree.hh b == Boundary.h b / 2 /\
  fl (Boundary.x b + QuadTree.hw b) == Boundary.x b + Boundary.w b / 2 /\
  fl (Boundary.y b + QuadTree.hh b) == Boundary.y b + Boundary.h b / 2.
Proof.
  intros (Ew & Eh & Ex & Ey). unfold QuadTree.hw, QuadTree.hh.
  split; [exact Ew|]. split; [exact Eh|]. split.
  - rewrite (fl_comp (Boundary.x b + fl (Boundary.w b / 2))
                     (Boundary.x b + Boundary.w b / 2)); [exact Ex|].
    rewrite Ew. reflexivity.
  - rewrite (fl_comp (Boundary.y b + fl (Boundary.h b / 2))
                     (Boundary.y b + Boundary.h b / 2)); [exact Ey|].
    rewrite Eh. reflexivity.
Qed.

Lemma exactHalves_gapFree b : exactHalves b -> gapFree b.
Proof.
  intro He. destruct (exactHalves_spec b He) as (Ew & Eh & Ex & Ey).
  pose proof (Qhalf_double (Boundary.w b)) as Dw.
  pose proof (Qhalf_double (Boundary.h b)) as Dh.
  unfold gapFree. rewrite Ex, Ey, Ew, Eh. repeat split; lra.
Qed.

(** Quadrants that leave no gap cover their parent. *)
Lemma quadrants_cover b o :
  gapFree b ->
  Boundary.contains b o = true ->
  Boundary.contains (QuadTree.northwestOf b) o = false ->
  Boundary.contains (QuadTree.northeastOf b) o = false ->
  Boundary.contains (QuadTree.southwestOf b) o = false ->
  Boundary.contains (QuadTree.southeastOf b) o = true.
Proof.
  intros (G1 & G2 & G3 & G4) Hb Hnw Hne Hsw. apply contains_spec in Hb.
  destruct (Qlt_le_dec (Boundary.x b + QuadTree.hw b) (Particle.x o)) as [Hx|Hx];
  destruct (Qlt_le_dec (Boundary.y b + QuadTree.hh b) (Particle.y o)) as [Hy|Hy].
  - quarter.
  - assert (H : Boundary.contains (QuadTree.northeastOf b) o = true)
      by (quarter). congruence.
  - assert (H : Boundary.contains (QuadTree.southwestOf b) o = true)
      by (quarter). congruence.
  - assert (H : Boundary.contains (QuadTree.northwestOf b) o = true)
      by (quarter). congruence.
Qed.

End BoundaryFacts.

(** ** QuadTree *)

Ltac inv H := inversion H; subst; clear H.

Lemma perm_mid1 {A} (p : A) a b : Permutation (a ++ p :: b) (p :: a ++ b).
Proof. symmetry. apply Permutation_middle. Qed.

Lemma perm_mid2 {A} (p : A) a b c :
  Permutation (a ++ b ++ p :: c) (p :: a ++ b ++ c).
Proof. rewrite !app_assoc. apply perm_mid1. Qed.

Lemma perm_mid3 {A} (p : A) a b c d :
  Permutation (a ++ b ++ c ++ p :: d) (p :: a ++ b ++ c ++ d).
Proof. rewrite !app_assoc. apply perm_mid1. Qed.

Lemma perm_mid4 {A} (p : A) a b c d e :
  Permutation (a ++ b ++ c ++ d ++ p :: e) (p :: a ++ b ++ c ++ d ++ e).
Proof. rewrite !app_assoc. apply perm_mid1. Qed.

Section QuadTreeFacts.
Variable hp : Heap.

Lemma boundary_push p q : QuadTree.boundary (QuadTree.push p q) = QuadTree.boundary q.
Proof. destruct q; reflexivity. Qed.

Lemma elements_push p q :
  Permutation (QuadTree.elements (QuadTree.push p q)) (p :: QuadTree.elements q).
Proof.
  destruct q; simpl.
  - symmetry. apply Permutation_cons_append.
  - rewrite <- app_assoc. simpl. symmetry. apply Permutation_middle.
Qed.

Lemma inside_boundary q :
  QuadTree.inside hp q ->
  Forall (fun p => Boundary.containsRef hp (QuadTree.boundary q) p = true)
         (QuadTree.elements q).
Proof. destruct q; simpl; tauto. Qed.

Lemma inside_new b : QuadTree.inside hp (QuadTree.new b).
Proof. simpl. auto. Qed.

Lemma wf_new b : QuadTree.wf (QuadTree.new b).
Proof. exact I. Qed.

Lemma delegate_quad q :
  exists nw ne sw se,
    delegate q = QuadTree.Quad (QuadTree.boundary q) (QuadTree.particles q) nw ne sw se.
Proof.
  destruct q; unfold delegate; simpl; do 4 eexists; reflexivity.
Qed.

Lemma delegate_elements q :
  Permutation (QuadTree.elements (delegate q)) (QuadTree.elements q).
Proof.
  destruct q; unfold delegate; simpl; [|reflexivity]. rewrite app_nil_r. reflexivity.
Qed.

Lemma delegate_inside q : QuadTree.inside hp q -> QuadTree.inside hp (delegate q).
Proof.
  destruct q; unfold delegate; simpl; [|tauto].
  rewrite app_nil_r. intuition auto.
Qed.

Lemma delegate_wf q : QuadTree.wf q -> QuadTree.wf (delegate q).
Proof.
  destruct q; unfold delegate; simpl; tauto.
Qed.

Lemma inside_quad b ps nw ne sw se :
  QuadTree.inside hp (QuadTree.Quad b ps nw ne sw se) <->
  Forall (fun p => Boundary.containsRef hp b p = true)
         (QuadTree.elements (QuadTree.Quad b ps nw ne sw se)) /\
  QuadTree.inside hp nw /\ QuadTree.inside hp ne /\
  QuadTree.inside hp sw /\ QuadTree.inside hp se.
Proof. reflexivity. Qed.

Lemma inside_push p q :
  Boundary.containsRef hp (QuadTree.boundary q) p = true ->
  QuadTree.inside hp q -> QuadTree.inside hp (QuadTree.push p q).
Proof.
  intros Hc Hin. destruct q as [b ps|b ps nw ne sw se].
  - simpl in *. split; auto. apply Forall_app. split; [tauto|]. constructor; auto.
  - change (QuadTree.push p (QuadTree.Quad b ps nw ne sw se))
      with (QuadTree.Quad b (ps ++ [p]) nw ne sw se).
    apply inside_quad in Hin. apply inside_quad.
    destruct Hin as [Hall Hk]. split; auto.
    eapply Permutation_Forall.
    + symmetry. apply (elements_push p (QuadTree.Quad b ps nw ne sw se)).
    + constructor; auto.
Qed.

Lemma wf_push p q : QuadTree.wf q -> QuadTree.wf (QuadTree.push p q).
Proof. destruct q; simpl; auto. Qed.

Lemma insert_fuel_sound fuel : forall q p q' r,
  QuadTree.insert_fuel fuel hp q p = Some (q', r) ->
  QuadTree.boundary q' = QuadTree.boundary q /\
  Permutation (QuadTree.elements q')
              (if r then p :: QuadTree.elements q else QuadTree.elements q) /\
  (QuadTree.inside hp q -> QuadTree.inside hp q') /\
  (QuadTree.wf q -> QuadTree.wf q') /\
  (r = true -> Boundary.containsRef hp (QuadTree.boundary q) p = true).
Proof.
  induction fuel as [|fuel IH]; intros q p q' r H; simpl in H; [discriminate|].
  destruct (Boundary.containsRef hp (QuadTree.boundary q) p) eqn:Hc; simpl in H.
  2:{ inv H. repeat split; auto. }
  destruct (length (QuadTree.particles q) <? QuadTree.capacity)%nat.
  { inv H. repeat split; auto using boundary_push, elements_push, inside_push, wf_push. }
  fold (delegate q) in H.
  pose proof (delegate_elements q) as He.
  pose proof (delegate_inside q) as Hi.
  pose proof (delegate_wf q) as Hw.
  destruct (delegate_quad q) as (nw & ne & sw & se & Hd).
  rewrite Hd in *. clear Hd.
  set (b := QuadTree.boundary q) in *. set (ps := QuadTree.particles q) in *.
  assert (Hfin : forall nw' ne' sw' se',
    (QuadTree.boundary nw' = QuadTree.boundary nw /\
     (QuadTree.inside hp nw -> QuadTree.inside hp nw') /\
     (QuadTree.wf nw -> QuadTree.wf nw')) ->
    (QuadTree.boundary ne' = QuadTree.boundary ne /\
     (QuadTree.inside hp ne -> QuadTree.inside hp ne') /\
     (QuadTree.wf ne -> QuadTree.wf ne')) ->
    (QuadTree.boundary sw' = QuadTree.boundary sw /\
     (QuadTree.inside hp sw -> QuadTree.inside hp sw') /\
     (QuadTree.wf sw -> QuadTree.wf sw')) ->
    (QuadTree.boundary se' = QuadTree.boundary se /\
     (QuadTree.inside hp se -> QuadTree.inside hp se') /\
     (QuadTree.wf se -> QuadTree.wf se')) ->
    Permutation (QuadTree.elements (QuadTree.Quad b ps nw' ne' sw' se'))
      (if r then p :: QuadTree.elements (QuadTree.Quad b ps nw ne sw se)
       else QuadTree.elements (QuadTree.Quad b ps nw ne sw se)) ->
    QuadTree.boundary (QuadTree.Quad b ps nw' ne' sw' se') = b /\
    Permutation (QuadTree.elements (QuadTree.Quad b ps nw' ne' sw' se'))
      (if r then p :: QuadTree.elements q else QuadTree.elements q) /\
    (QuadTree.inside hp q -> QuadTree.inside hp (QuadTree.Quad b ps nw' ne' sw' se')) /\
    (QuadTree.wf q -> QuadTree.wf (QuadTree.Quad b ps nw' ne' sw' se')) /\
    (r = true -> true = true)).
  { intros nw' ne' sw' se' (B1 & I1 & W1) (B2 & I2 & W2) (B3 & I3 & W3) (B4 & I4 & W4) HP.
    assert (HP' : Permutation (QuadTree.elements (QuadTree.Quad b ps nw' ne' sw' se'))
                    (if r then p :: QuadTree.elements q else QuadTree.elements q)).
    { rewrite HP. destruct r; rewrite He; reflexivity. }
    split; [reflexivity|]. split; [exact HP'|]. split; [|split; [|reflexivity]].
    - intro Hin. pose proof (inside_boundary _ Hin) as Hall.
      specialize (Hi Hin). apply inside_quad in Hi. apply inside_quad.
      destruct Hi as (_ & ? & ? & ? & ?). repeat split; auto.
      eapply Permutation_Forall; [symmetry; exact HP'|].
      destruct r; [constructor|]; auto.
    - intro Hwf. specialize (Hw Hwf). simpl in Hw. simpl.
      destruct Hw as (? & ? & ? & ? & ? & ? & ? & ?).
      repeat split; auto; congruence. }
  destruct (QuadTree.insert_fuel fuel hp nw p) as [[nw' [|]]|] eqn:E1; try discriminate.
  { inv H. apply IH in E1. destruct E1 as (? & P1 & ? & ? & _).
    apply Hfin; auto. simpl. rewrite P1. simpl. apply perm_mid1. }
  destruct (QuadTree.insert_fuel fuel hp ne p) as [[ne' [|]]|] eqn:E2; try discriminate.
  { inv H. apply IH in E1, E2.
    destruct E1 as (? & P1 & ? & ? & _), E2 as (? & P2 & ? & ? & _).
    apply Hfin; auto. simpl. rewrite P1, P2. simpl. apply perm_mid2. }
  destruct (QuadTree.insert_fuel fuel hp sw p) as [[sw' [|]]|] eqn:E3; try discriminate.
  { inv H. apply IH in E1, E2, E3.
    destruct E1 as (? & P1 & ? & ? & _), E2 as (? & P2 & ? & ? & _),
             E3 as (? & P3 & ? & ? & _).
    apply Hfin; auto. simpl. rewrite P1, P2, P3. simpl. apply perm_mid3. }
  destruct (QuadTree.insert_fuel fuel hp se p) as [[se' r4]|] eqn:E4; try discriminate.
  inv H. apply IH in E1, E2, E3, E4.
  destruct E1 as (? & P1 & ? & ? & _), E2 as (? & P2 & ? & ? & _),
           E3 as (? & P3 & ? & ? & _), E4 as (? & P4 & ? & ? & _).
  apply Hfin; auto. simpl. rewrite P1, P2, P3, P4.
  destruct r; [|reflexivity]. simpl. apply perm_mid4.
Qed.


(** More fuel does not change a result. *)
Lemma insert_fuel_mono fuel : forall q p res,
  QuadTree.insert_fuel fuel hp q p = Some res ->
  QuadTree.insert_fuel (S fuel) hp q p = Some res.
Proof.
  induction fuel as [|fuel IH]; intros q p res H; [discriminate|].
  remember (S fuel) as n eqn:En.
  rewrite En in H. simpl in H. simpl.
  destruct (negb (Boundary.containsRef hp (QuadTree.boundary q) p)); [exact H|].
  destruct (length (QuadTree.particles q) <? QuadTree.capacity)%nat; [exact H|].
  destruct (if QuadTree.divided q then q else QuadTree.subdivide q)
    as [|b ps nw ne sw se]; [discriminate|].
  subst n.
  destruct (QuadTree.insert_fuel fuel hp nw p) as [[nw' [|]]|] eqn:E1; try discriminate;
    rewrite (IH _ _ _ E1); [exact H|].
  destruct (QuadTree.insert_fuel fuel hp ne p) as [[ne' [|]]|] eqn:E2; try discriminate;
    rewrite (IH _ _ _ E2); [exact H|].
  destruct (QuadTree.insert_fuel fuel hp sw p) as [[sw' [|]]|] eqn:E3; try discriminate;
    rewrite (IH _ _ _ E3); [exact H|].
  destruct (QuadTree.insert_fuel fuel hp se p) as [[se' r]|] eqn:E4; try discriminate;
    rewrite (IH _ _ _ E4); exact H.
Qed.

Lemma insert_fuel_le fuel fuel' q p res :
  (fuel <= fuel')%nat ->
  QuadTree.insert_fuel fuel hp q p = Some res ->
  QuadTree.insert_fuel fuel' hp q p = Some res.
Proof.
  induction 1; auto using insert_fuel_mono.
Qed.

(** [insert] returns: a recursion bound of [2 + depth q] is never exhausted. *)
Lemma insert_fuel_total : forall q p,
  exists res, QuadTree.insert_fuel (2 + QuadTree.depth q) hp q p = Some res.
Proof.
  induction q as [b ps|b ps nw IHnw ne IHne sw IHsw se IHse]; intro p.
  - simpl.
    repeat match goal with
           | |- context [if ?c then _ else _] => destruct c
           end; eauto.
  - cbn [QuadTree.depth].
    set (m := Nat.max (Nat.max (QuadTree.depth nw) (QuadTree.depth ne))
                      (Nat.max (QuadTree.depth sw) (QuadTree.depth se))).
    assert (Hc : forall c, (QuadTree.depth c <= m)%nat ->
                 (exists res,
                    QuadTree.insert_fuel (2 + QuadTree.depth c) hp c p = Some res) ->
                 exists res, QuadTree.insert_fuel (S (S m)) hp c p = Some res).
    { intros c Hle [res Hres]. exists res.
      eapply insert_fuel_le; [|exact Hres]. lia. }
    destruct (Hc nw ltac:(lia) (IHnw p)) as [[nw' r1] E1].
    destruct (Hc ne ltac:(lia) (IHne p)) as [[ne' r2] E2].
    destruct (Hc sw ltac:(lia) (IHsw p)) as [[sw' r3] E3].
    destruct (Hc se ltac:(lia) (IHse p)) as [[se' r4] E4].
    clear Hc. change (2 + S m)%nat with (S (S (S m))).
    remember (S (S m)) as f eqn:Ef.
    simpl. rewrite E1, E2, E3, E4.
    destruct (negb _); [eauto|]. destruct (_ <? _)%nat; [eauto|].
    destruct r1; [eauto|]. destruct r2; [eauto|]. destruct r3; eauto.
Qed.

Lemma insert_enough_fuel fuel q p :
  (2 + QuadTree.depth q <= fuel)%nat ->
  QuadTree.insert_fuel fuel hp q p = Some (QuadTree.insert hp q p).
Proof.
  intro Hle. destruct (insert_fuel_total q p) as [res Hres].
  unfold QuadTree.insert. rewrite Hres.
  eapply insert_fuel_le; eauto.
Qed.

Lemma insert_sound q p :
  QuadTree.boundary (fst (QuadTree.insert hp q p)) = QuadTree.boundary q /\
  Permutation (QuadTree.elements (fst (QuadTree.insert hp q p)))
              (if snd (QuadTree.insert hp q p)
               then p :: QuadTree.elements q else QuadTree.elements q) /\
  (QuadTree.inside hp q -> QuadTree.inside hp (fst (QuadTree.insert hp q p))) /\
  (QuadTree.wf q -> QuadTree.wf (fst (QuadTree.insert hp q p))) /\
  (snd (QuadTree.insert hp q p) = true ->
   Boundary.containsRef hp (QuadTree.boundary q) p = true).
Proof.
  pose proof (insert_enough_fuel _ q p (Nat.le_refl _)) as H.
  destruct (QuadTree.insert hp q p) as [q' r]. simpl.
  exact (insert_fuel_sound _ _ _ _ _ H).
Qed.

(** A fresh node accepts exactly the references whose particle lies within
    its boundary. *)
Lemma insert_fuel_new fuel b p res :
  QuadTree.insert_fuel fuel hp (QuadTree.new b) p = Some res ->
  snd res = Boundary.containsRef hp b p.
Proof.
  destruct fuel as [|fuel]; [discriminate|]. simpl.
  destruct (Boundary.containsRef hp b p); simpl; intro H; inv H; reflexivity.
Qed.

Lemma tiled_gapFree q : tiled q -> gapFree (QuadTree.boundary q).
Proof. destruct q; simpl; tauto. Qed.

Lemma tiled_wf : forall q, tiled q -> QuadTree.wf q.
Proof.
  induction q as [b ps|b ps nw IHnw ne IHne sw IHsw se IHse]; simpl; [tauto|].
  intros (_ & ? & ? & ? & ? & ? & ? & ? & ?). repeat split; auto.
Qed.

(** The sub-quadrants [insert] hands a particle to are tiled themselves, or
    fresh. *)
Lemma delegate_tiled q b ps nw ne sw se :
  tiled q -> delegate q = QuadTree.Quad b ps nw ne sw se ->
  QuadTree.boundary nw = QuadTree.northwestOf (QuadTree.boundary q) /\
  QuadTree.boundary ne = QuadTree.northeastOf (QuadTree.boundary q) /\
  QuadTree.boundary sw = QuadTree.southwestOf (QuadTree.boundary q) /\
  QuadTree.boundary se = QuadTree.southeastOf (QuadTree.boundary q) /\
  (tiled nw \/ exists c, nw = QuadTree.new c) /\
  (tiled ne \/ exists c, ne = QuadTree.new c) /\
  (tiled sw \/ exists c, sw = QuadTree.new c) /\
  (tiled se \/ exists c, se = QuadTree.new c).
Proof.
  destruct q as [b0 ps0|b0 ps0 nw0 ne0 sw0 se0]; unfold delegate; simpl; intros Ht H; inv H.
  - repeat split; try reflexivity; right; eexists; reflexivity.
  - destruct Ht as (_ & ? & ? & ? & ? & ? & ? & ? & ?). repeat split; auto.
Qed.

(** In a tree whose quadrants leave no gap, and in a fresh node, [insert]
    accepts exactly the references whose particle lies within the boundary. *)
Lemma insert_fuel_accepts fuel : forall q p q' r,
  tiled q \/ (exists c, q = QuadTree.new c) ->
  QuadTree.insert_fuel fuel hp q p = Some (q', r) ->
  r = Boundary.containsRef hp (QuadTree.boundary q) p.
Proof.
  induction fuel as [|fuel IH]; intros q p q' r Hq H; [discriminate|].
  destruct Hq as [Ht|[c ->]].
  2:{ apply insert_fuel_new in H. exact H. }
  simpl in H.
  destruct (Boundary.containsRef hp (QuadTree.boundary q) p) eqn:Hc; simpl in H.
  2:{ inv H. reflexivity. }
  destruct (length (QuadTree.particles q) <? QuadTree.capacity)%nat.
  { inv H. reflexivity. }
  fold (delegate q) in H.
  destruct (delegate_quad q) as (nw & ne & sw & se & Hd).
  pose proof (delegate_tiled _ _ _ _ _ _ _ Ht Hd)
    as (B1 & B2 & B3 & B4 & W1 & W2 & W3 & W4).
  pose proof (tiled_gapFree _ Ht) as Hg.
  rewrite Hd in *. clear Hd.
  destruct (QuadTree.insert_fuel fuel hp nw p) as [[nw' [|]]|] eqn:E1; try discriminate.
  { inv H. reflexivity. }
  destruct (QuadTree.insert_fuel fuel hp ne p) as [[ne' [|]]|] eqn:E2; try discriminate.
  { inv H. reflexivity. }
  destruct (QuadTree.insert_fuel fuel hp sw p) as [[sw' [|]]|] eqn:E3; try discriminate.
  { inv H. reflexivity. }
  destruct (QuadTree.insert_fuel fuel hp se p) as [[se' r4]|] eqn:E4; try discriminate.
  inv H.
  apply IH in E1, E2, E3, E4; auto.
  rewrite B1 in E1. rewrite B2 in E2. rewrite B3 in E3. rewrite B4 in E4.
  subst r.
  apply containsRef_spec in Hc. destruct Hc as (o & Ho & Hc).
  unfold Boundary.containsRef in *. rewrite Ho in *.
  apply quadrants_cover; auto.
Qed.


Lemma insert_fuel_insert fuel q p res :
  QuadTree.insert_fuel fuel hp q p = Some res -> QuadTree.insert hp q p = res.
Proof.
  intro H. destruct (Nat.le_ge_cases fuel (2 + QuadTree.depth q)) as [Hle|Hle].
  - unfold QuadTree.insert. rewrite (insert_fuel_le _ _ _ _ _ Hle H). reflexivity.
  - rewrite (insert_enough_fuel _ _ _ Hle) in H. congruence.
Qed.

Lemma delegate_depth_child q b ps nw ne sw se :
  delegate q = QuadTree.Quad b ps nw ne sw se ->
  (QuadTree.depth nw <= QuadTree.depth q /\ QuadTree.depth ne <= QuadTree.depth q /\
   QuadTree.depth sw <= QuadTree.depth q /\ QuadTree.depth se <= QuadTree.depth q)%nat.
Proof.
  destruct q; unfold delegate; simpl; intro H; inv H; simpl; lia.
Qed.

(** The equation of the source's [insert], free of the recursion bound. *)
Lemma insert_equation q p :
  QuadTree.insert hp q p =
  if negb (Boundary.containsRef hp (QuadTree.boundary q) p) then (q, false)
  else if (length (QuadTree.particles q) <? QuadTree.capacity)%nat
  then (QuadTree.push p q, true)
  else
    match delegate q with
    | QuadTree.Leaf _ _ => (q, false)
    | QuadTree.Quad b ps nw ne sw se =>
      let '(nw', r1) := QuadTree.insert hp nw p in
      if r1 then (QuadTree.Quad b ps nw' ne sw se, true) else
      let '(ne', r2) := QuadTree.insert hp ne p in
      if r2 then (QuadTree.Quad b ps nw' ne' sw se, true) else
      let '(sw', r3) := QuadTree.insert hp sw p in
      if r3 then (QuadTree.Quad b ps nw' ne' sw' se, true) else
      let '(se', r4) := QuadTree.insert hp se p in
      (QuadTree.Quad b ps nw' ne' sw' se', r4)
    end.
Proof.
  apply (insert_fuel_insert (S (2 + QuadTree.depth q))).
  remember (2 + QuadTree.depth q)%nat as f eqn:Ef. simpl.
  destruct (negb _); [reflexivity|]. destruct (_ <? _)%nat; [reflexivity|].
  fold (delegate q).
  destruct (delegate_quad q) as (nw & ne & sw & se & Hd).
  pose proof (delegate_depth_child _ _ _ _ _ _ _ Hd) as (D1 & D2 & D3 & D4).
  rewrite Hd.
  rewrite !insert_enough_fuel by lia.
  destruct (QuadTree.insert hp nw p) as [nw' [|]]; [reflexivity|].
  destruct (QuadTree.insert hp ne p) as [ne' [|]]; [reflexivity|].
  destruct (QuadTree.insert hp sw p) as [sw' [|]]; [reflexivity|].
  destruct (QuadTree.insert hp se p) as [se' r4]; reflexivity.
Qed.

Lemma insert_accepts q p :
  tiled q \/ (exists c, q = QuadTree.new c) ->
  snd (QuadTree.insert hp q p) = Boundary.containsRef hp (QuadTree.boundary q) p.
Proof.
  intro Hq. pose proof (insert_enough_fuel _ q p (Nat.le_refl _)) as H.
  destruct (QuadTree.insert hp q p) as [q' r]. simpl.
  exact (insert_fuel_accepts _ _ _ _ _ Hq H).
Qed.

Lemma insert_outside q p :
  Boundary.containsRef hp (QuadTree.boundary q) p = false ->
  QuadTree.insert hp q p = (q, false).
Proof. intro Hc. rewrite insert_equation, Hc. reflexivity. Qed.

(** ** [query] *)

Lemma query_elements range : forall q found,
  QuadTree.inside hp q ->
  QuadTree.query hp q range found =
  found ++ filter (Boundary.containsRef hp range) (QuadTree.elements q).
Proof.
  induction q as [b ps|b ps nw IHnw ne IHne sw IHsw se IHse]; intros found Hin.
  - simpl. destruct (Boundary.intersects b range) eqn:Hi; simpl; [reflexivity|].
    destruct Hin as [Hall _]. simpl in Hall.
    rewrite (filter_disjoint hp _ _ _ Hi Hall). symmetry. apply app_nil_r.
  - pose proof (inside_boundary _ Hin) as Hall.
    apply inside_quad in Hin. destruct Hin as (_ & I1 & I2 & I3 & I4).
    cbn [QuadTree.query QuadTree.boundary QuadTree.particles].
    destruct (Boundary.intersects b range) eqn:Hi; cbn [negb].
    + rewrite IHse, IHsw, IHne, IHnw by assumption.
      cbn [QuadTree.elements]. rewrite !filter_app, <- !app_assoc. reflexivity.
    + cbn [QuadTree.boundary] in Hall.
      rewrite (filter_disjoint hp _ _ _ Hi Hall). symmetry. apply app_nil_r.
Qed.

(** ** [insertAll] *)

Lemma insertAll_sound : forall l q,
  QuadTree.boundary (fst (QuadTree.insertAll hp q l)) = QuadTree.boundary q /\
  Permutation (QuadTree.elements (fst (QuadTree.insertAll hp q l)))
              (snd (QuadTree.insertAll hp q l) ++ QuadTree.elements q) /\
  (QuadTree.inside hp q -> QuadTree.inside hp (fst (QuadTree.insertAll hp q l))) /\
  (QuadTree.wf q -> QuadTree.wf (fst (QuadTree.insertAll hp q l))) /\
  Forall (fun p => Boundary.containsRef hp (QuadTree.boundary q) p = true)
         (snd (QuadTree.insertAll hp q l)).
Proof.
  induction l as [|p l IH]; intro q; simpl.
  - repeat split; auto.
  - pose proof (insert_sound q p) as (B & P & I & W & C).
    destruct (QuadTree.insert hp q p) as [q' ok]. simpl in *.
    specialize (IH q'). destruct (QuadTree.insertAll hp q' l) as [q'' oks]. simpl in *.
    destruct IH as (B' & P' & I' & W' & C').
    rewrite B in *.
    split; [congruence|]. split.
    { rewrite P', P. destruct ok; simpl; [|reflexivity]. apply perm_mid1. }
    split; [auto|]. split; [auto|].
    destruct ok; auto.
Qed.

(** The references [insertAll] reports are among those it was given, in their
    order. *)
Lemma insertAll_incl : forall l q x,
  In x (snd (QuadTree.insertAll hp q l)) -> In x l.
Proof.
  induction l as [|p l IH]; intros q x; simpl; [tauto|].
  destruct (QuadTree.insert hp q p) as [q' ok].
  specialize (IH q' x). destruct (QuadTree.insertAll hp q' l) as [q'' oks]. simpl in *.
  destruct ok; simpl; intuition.
Qed.

Lemma insertAll_NoDup : forall l q,
  NoDup l -> NoDup (snd (QuadTree.insertAll hp q l)).
Proof.
  induction l as [|p l IH]; intros q Hnd; simpl; [constructor|].
  inversion Hnd as [|? ? Hp Hl]; subst.
  destruct (QuadTree.insert hp q p) as [q' ok].
  pose proof (insertAll_incl l q' p) as Hi. specialize (IH q' Hl).
  destruct (QuadTree.insertAll hp q' l) as [q'' oks]. simpl in *.
  destruct ok; [constructor|]; auto.
Qed.


Lemma filter_all {A} (f : A -> bool) l :
  Forall (fun a => f a = true) l -> filter f l = l.
Proof.
  induction 1 as [|a l Ha _ IH]; simpl; [reflexivity|]. rewrite Ha, IH. reflexivity.
Qed.



End QuadTreeFacts.
Lemma insertSampleTree_tiled : tiled insertSampleTree.
Proof.
  vm_compute. repeat split; discriminate.
Qed.



(** C2.  [insert] can return [false] for a particle within the boundary of
    the node.  The narrow node holds four particles, so the fifth, on the
    right edge of the boundary, is handed to the sub-quadrants.  The mid line
    [x + hw] is rounded down, the eastern quadrants end left of the right
    edge, and no quadrant accepts the particle: [insert] subdivides the node,
    returns [false], and the tree does not hold the particle. *)
Theorem insert_drops_a_particle_within_the_boundary :
  fl (5 # 2 ^ 52) == 5 # 2 ^ 52 /\
  fl (1 + (5 # 2 ^ 52)) == 1 + (5 # 2 ^ 52) /\
  QuadTree.boundary narrowTree = narrowBoundary /\
  length (QuadTree.particles narrowTree) = QuadTree.capacity /\
  Boundary.containsRef narrowHeap (QuadTree.boundary narrowTree) 4%nat = true /\
  snd (QuadTree.insert narrowHeap narrowTree 4%nat) = false /\
  fst (QuadTree.insert narrowHeap narrowTree 4%nat) = QuadTree.subdivide narrowTree /\
  ~ In 4%nat (QuadTree.elements (fst (QuadTree.insert narrowHeap narrowTree 4%nat))).
Proof.
  repeat split; try (vm_compute; reflexivity).
  vm_compute. intuition discriminate.
Qed.

(** ** The boundary policy and [update] *)

(** Decides the comparisons of the goal one after the other. *)
Ltac qcases :=
  repeat match goal with
  | |- context [Qleb ?a ?b] => destruct (Qleb a b) eqn:?
  | |- context [Qltb ?a ?b] => destruct (Qltb a b) eqn:?
  end.

Lemma bounceX_spec r wd p :
  let p' := bounceX r wd p in
  (Particle.x p - r <= 0 -> Particle.vx p < 0 ->
   Particle.vx p' == - Particle.vx p /\ Particle.x p' == r + (r - Particle.x p)) /\
  (wd <= Particle.x p + r -> 0 < Particle.vx p ->
   Particle.vx p' == - Particle.vx p /\
   Particle.x p' == wd - r - (Particle.x p + r - wd)) /\
  (~ (Particle.x p - r <= 0 /\ Particle.vx p < 0) ->
   ~ (wd <= Particle.x p + r /\ 0 < Particle.vx p) -> p' = p) /\
  Particle.y p' = Particle.y p /\ Particle.vy p' = Particle.vy p /\
  Particle.radius p' = Particle.radius p.
Proof.
  unfold bounceX, Qgeb, Qgtb. destruct p; simpl.
  qcases; simpl; q2prop; repeat split; intros; try reflexivity; try lra.
Qed.

Lemma bounceY_spec r ht p :
  let p' := bounceY r ht p in
  (Particle.y p - r <= 0 -> Particle.vy p < 0 ->
   Particle.vy p' == - Particle.vy p /\ Particle.y p' == r + (r - Particle.y p)) /\
  (ht <= Particle.y p + r -> 0 < Particle.vy p ->
   Particle.vy p' == - Particle.vy p /\
   Particle.y p' == ht - r - (Particle.y p + r - ht)) /\
  (~ (Particle.y p - r <= 0 /\ Particle.vy p < 0) ->
   ~ (ht <= Particle.y p + r /\ 0 < Particle.vy p) -> p' = p) /\
  Particle.x p' = Particle.x p /\ Particle.vx p' = Particle.vx p /\
  Particle.radius p' = Particle.radius p.
Proof.
  unfold bounceY, Qgeb, Qgtb. destruct p; simpl.
  qcases; simpl; q2prop; repeat split; intros; try reflexivity; try lra.
Qed.

Lemma wrapX_spec r wd p :
  let p' := wrapX r (wd + r * 2) wd p in
  (Particle.x p + r < 0 -> Particle.x p' == Particle.x p + (wd + 2 * r)) /\
  (0 <= Particle.x p + r -> wd < Particle.x p - r ->
   Particle.x p' == Particle.x p - (wd + 2 * r)) /\
  (0 <= Particle.x p + r -> Particle.x p - r <= wd -> p' = p) /\
  Particle.y p' = Particle.y p /\ Particle.vx p' = Particle.vx p /\
  Particle.vy p' = Particle.vy p /\ Particle.radius p' = Particle.radius p.
Proof.
  unfold wrapX, Qgeb, Qgtb. destruct p; simpl.
  qcases; simpl; q2prop; repeat split; intros; try reflexivity; try lra.
Qed.

Lemma wrapY_spec r ht p :
  let p' := wrapY r (ht + r * 2) ht p in
  (Particle.y p + r < 0 -> Particle.y p' == Particle.y p + (ht + 2 * r)) /\
  (0 <= Particle.y p + r -> ht < Particle.y p - r ->
   Particle.y p' == Particle.y p - (ht + 2 * r)) /\
  (0 <= Particle.y p + r -> Particle.y p - r <= ht -> p' = p) /\
  Particle.x p' = Particle.x p /\ Particle.vx p' = Particle.vx p /\
  Particle.vy p' = Particle.vy p /\ Particle.radius p' = Particle.radius p.
Proof.
  unfold wrapY, Qgeb, Qgtb. destruct p; simpl.
  qcases; simpl; q2prop; repeat split; intros; try reflexivity; try lra.
Qed.

(** What the animation handlers leave alone. *)
Lemma handleSway_frame M cfg delta p :
  Particle.vx (handleSway M cfg delta p) = Particle.vx p /\
  Particle.vy (handleSway M cfg delta p) = Particle.vy p /\
  Particle.y (handleSway M cfg delta p) = Particle.y p /\
  Particle.radius (handleSway M cfg delta p) = Particle.radius p /\
  Particle.opacity (handleSway M cfg delta p) = Particle.opacity p /\
  Particle.initialRadius (handleSway M cfg delta p) = Particle.initialRadius p /\
  Particle.initialOpacity (handleSway M cfg delta p) = Particle.initialOpacity p.
Proof. unfold handleSway. destruct (sway_enable cfg); simpl; auto 10. Qed.

Lemma handleOpacityAnimation_frame cfg delta p :
  Particle.x (handleOpacityAnimation cfg delta p) = Particle.x p /\
  Particle.y (handleOpacityAnimation cfg delta p) = Particle.y p /\
  Particle.vx (handleOpacityAnimation cfg delta p) = Particle.vx p /\
  Particle.vy (handleOpacityAnimation cfg delta p) = Particle.vy p /\
  Particle.radius (handleOpacityAnimation cfg delta p) = Particle.radius p /\
  Particle.initialRadius (handleOpacityAnimation cfg delta p) = Particle.initialRadius p.
Proof.
  unfold handleOpacityAnimation, Qgeb, Qgtb.
  destruct (opacity_anim_enable cfg); simpl; [|auto 10].
  qcases; simpl; qcases; simpl; auto 10.
Qed.

Lemma handleSizeAnimation_frame cfg delta p :
  Particle.x (handleSizeAnimation cfg delta p) = Particle.x p /\
  Particle.y (handleSizeAnimation cfg delta p) = Particle.y p /\
  Particle.vx (handleSizeAnimation cfg delta p) = Particle.vx p /\
  Particle.vy (handleSizeAnimation cfg delta p) = Particle.vy p /\
  Particle.opacity (handleSizeAnimation cfg delta p) = Particle.opacity p /\
  Particle.initialOpacity (handleSizeAnimation cfg delta p) = Particle.initialOpacity p.
Proof.
  unfold handleSizeAnimation, Qgeb, Qgtb.
  destruct (size_anim_enable cfg); simpl; [|auto 10].
  qcases; simpl; qcases; simpl; auto 10.
Qed.

Lemma handleRotationAnimation_frame M cfg delta p :
  Particle.x (handleRotationAnimation M cfg delta p) = Particle.x p /\
  Particle.y (handleRotationAnimation M cfg delta p) = Particle.y p /\
  Particle.vx (handleRotationAnimation M cfg delta p) = Particle.vx p /\
  Particle.vy (handleRotationAnimation M cfg delta p) = Particle.vy p /\
  Particle.radius (handleRotationAnimation M cfg delta p) = Particle.radius p /\
  Particle.opacity (handleRotationAnimation M cfg delta p) = Particle.opacity p /\
  Particle.initialRadius (handleRotationAnimation M cfg delta p) =
  Particle.initialRadius p /\
  Particle.initialOpacity (handleRotationAnimation M cfg delta p) =
  Particle.initialOpacity p.
Proof.
  unfold handleRotationAnimation, Qgeb, Qgtb.
  destruct (negb (rotate_enable cfg) || negb (rotate_anim_enable cfg)); simpl; [auto 10|].
  qcases; simpl; auto 10.
Qed.

(** After the boundary policy, [update] changes neither velocity, and changes
    the position only by the sway. *)
Lemma update_after_outMode M cfg canvas delta p :
  let q := handleOutMode cfg canvas (integrate delta p) in
  Particle.vx (update M cfg canvas delta p) = Particle.vx q /\
  Particle.vy (update M cfg canvas delta p) = Particle.vy q /\
  Particle.y (update M cfg canvas delta p) = Particle.y q /\
  (sway_enable cfg = false -> Particle.x (update M cfg canvas delta p) = Particle.x q).
Proof.
  intro q. unfold update. fold q.
  set (p1 := if sway_enable cfg then handleSway M cfg delta q else q).
  set (p2 := if opacity_anim_enable cfg then handleOpacityAnimation cfg delta p1 else p1).
  set (p3 := if size_anim_enable cfg then handleSizeAnimation cfg delta p2 else p2).
  set (p4 := if rotate_enable cfg && rotate_anim_enable cfg
             then handleRotationAnimation M cfg delta p3 else p3).
  assert (H1 : Particle.vx p1 = Particle.vx q /\ Particle.vy p1 = Particle.vy q /\
               Particle.y p1 = Particle.y q /\
               (sway_enable cfg = false -> Particle.x p1 = Particle.x q)).
  { unfold p1. destruct (sway_enable cfg); [|auto].
    pose proof (handleSway_frame M cfg delta q). intuition congruence. }
  assert (H2 : Particle.vx p2 = Particle.vx p1 /\ Particle.vy p2 = Particle.vy p1 /\
               Particle.y p2 = Particle.y p1 /\ Particle.x p2 = Particle.x p1).
  { unfold p2. destruct (opacity_anim_enable cfg); [|auto].
    pose proof (handleOpacityAnimation_frame cfg delta p1). intuition. }
  assert (H3 : Particle.vx p3 = Particle.vx p2 /\ Particle.vy p3 = Particle.vy p2 /\
               Particle.y p3 = Particle.y p2 /\ Particle.x p3 = Particle.x p2).
  { unfold p3. destruct (size_anim_enable cfg); [|auto].
    pose proof (handleSizeAnimation_frame cfg delta p2). intuition. }
  assert (H4 : Particle.vx p4 = Particle.vx p3 /\ Particle.vy p4 = Particle.vy p3 /\
               Particle.y p4 = Particle.y p3 /\ Particle.x p4 = Particle.x p3).
  { unfold p4. destruct (rotate_enable cfg && rotate_anim_enable cfg); [|auto].
    pose proof (handleRotationAnimation_frame M cfg delta p3). intuition. }
  intuition congruence.
Qed.

Lemma integrate_fields delta p :
  Particle.x (integrate delta p) = Particle.x p + Particle.vx p * delta /\
  Particle.y (integrate delta p) = Particle.y p + Particle.vy p * delta /\
  Particle.vx (integrate delta p) = Particle.vx p /\
  Particle.vy (integrate delta p) = Particle.vy p /\
  Particle.radius (integrate delta p) = Particle.radius p.
Proof. unfold integrate. simpl. auto. Qed.

(** The bounce branch of [handleOutMode], edge by edge. *)
Lemma handleOutMode_bounce (cfg : Config) (canvas : Canvas) (p : Particle.t) :
  move_out_mode cfg = mode_bounce ->
  let r := Particle.radius p in
  let p' := handleOutMode cfg canvas p in
  (Particle.x p - r <= 0 -> Particle.vx p < 0 ->
   Particle.vx p' == - Particle.vx p /\
   Particle.x p' == r + (r - Particle.x p)) /\
  (width canvas <= Particle.x p + r -> 0 < Particle.vx p ->
   Particle.vx p' == - Particle.vx p /\
   Particle.x p' == width canvas - r - (Particle.x p + r - width canvas)) /\
  (Particle.y p - r <= 0 -> Particle.vy p < 0 ->
   Particle.vy p' == - Particle.vy p /\
   Particle.y p' == r + (r - Particle.y p)) /\
  (height canvas <= Particle.y p + r -> 0 < Particle.vy p ->
   Particle.vy p' == - Particle.vy p /\
   Particle.y p' == height canvas - r - (Particle.y p + r - height canvas)) /\
  (~ (Particle.x p - r <= 0 /\ Particle.vx p < 0) ->
   ~ (width canvas <= Particle.x p + r /\ 0 < Particle.vx p) ->
   Particle.vx p' = Particle.vx p /\ Particle.x p' = Particle.x p) /\
  (~ (Particle.y p - r <= 0 /\ Particle.vy p < 0) ->
   ~ (height canvas <= Particle.y p + r /\ 0 < Particle.vy p) ->
   Particle.vy p' = Particle.vy p /\ Particle.y p' = Particle.y p).
Proof.
  intros Hmode r p'.
  set (q := bounceX r (width canvas) p).
  assert (Hp' : p' = bounceY r (height canvas) q).
  { unfold p', handleOutMode. rewrite Hmode. reflexivity. }
  pose proof (bounceX_spec r (width canvas) p) as (XL & XR & XN & XY & XVY & _).
  pose proof (bounceY_spec r (height canvas) q) as (YT & YB & YN & YX & YVX & _).
  cbv zeta in XL, XR, XN, XY, XVY, YT, YB, YN, YX, YVX.
  fold q in XL, XR, XN, XY, XVY. rewrite <- Hp' in YT, YB, YN, YX, YVX.
  rewrite XY, XVY in YT, YB, YN.
  split; [intros H1 H2; rewrite YVX, YX; auto|].
  split; [intros H1 H2; rewrite YVX, YX; auto|].
  split; [exact YT|]. split; [exact YB|].
  split.
  - intros H1 H2. rewrite YVX, YX. rewrite (XN H1 H2). auto.
  - intros H1 H2. rewrite (YN H1 H2). auto.
Qed.

Lemma handleOutMode_swayPhase cfg canvas p :
  Particle.swayPhase (handleOutMode cfg canvas p) = Particle.swayPhase p.
Proof.
  unfold handleOutMode, bounceX, bounceY, wrapX, wrapY.
  destruct (move_out_mode cfg);
    repeat match goal with
           | |- context [if ?c then _ else _] => destruct c
           end; reflexivity.
Qed.

(** The horizontal position [update] ends with: the one the boundary policy
    leaves, and the sway on top of it when sway is enabled. *)
Lemma update_x M cfg canvas delta p :
  let q := handleOutMode cfg canvas (integrate delta p) in
  Particle.x (update M cfg canvas delta p) =
  if sway_enable cfg then Particle.x q + swayStep M cfg delta p else Particle.x q.
Proof.
  intro q. unfold update. fold q.
  set (p1 := if sway_enable cfg then handleSway M cfg delta q else q).
  set (p2 := if opacity_anim_enable cfg then handleOpacityAnimation cfg delta p1 else p1).
  set (p3 := if size_anim_enable cfg then handleSizeAnimation cfg delta p2 else p2).
  set (p4 := if rotate_enable cfg && rotate_anim_enable cfg
             then handleRotationAnimation M cfg delta p3 else p3).
  assert (H2 : Particle.x p2 = Particle.x p1).
  { unfold p2. destruct (opacity_anim_enable cfg); [|auto].
    pose proof (handleOpacityAnimation_frame cfg delta p1). intuition. }
  assert (H3 : Particle.x p3 = Particle.x p2).
  { unfold p3. destruct (size_anim_enable cfg); [|auto].
    pose proof (handleSizeAnimation_frame cfg delta p2). intuition. }
  assert (H4 : Particle.x p4 = Particle.x p3).
  { unfold p4. destruct (rotate_enable cfg && rotate_anim_enable cfg); [|auto].
    pose proof (handleRotationAnimation_frame M cfg delta p3). intuition. }
  rewrite H4, H3, H2. unfold p1.
  destruct (sway_enable cfg) eqn:Hs; [|reflexivity].
  unfold handleSway, swayStep. rewrite Hs. cbn [negb].
  cbn [Particle.x Particle.set_x Particle.set_swayPhase Particle.swayPhase].
  unfold q. rewrite handleOutMode_swayPhase. reflexivity.
Qed.







(** ** Population sizing *)

Lemma spawn_length M cv cfg pos : forall n g,
  length (fst (spawn M cv cfg pos n g)) = n.
Proof.
  induction n as [|n IH]; intro g; simpl; [reflexivity|].
  destruct (newParticle M cv cfg pos g) as [p g1].
  specialize (IH g1). destruct (spawn M cv cfg pos n g1) as [ps g2].
  simpl in *. congruence.
Qed.

Lemma init_length M e :
  length (Engine.particles (Engine.init M e)) =
  loopCount (Engine.calculateParticleCount e).
Proof.
  unfold Engine.init.
  pose proof (spawn_length M (Engine.canvas e) (Engine.config e) None
                (loopCount (Engine.calculateParticleCount e)) (Engine.rng e)) as H.
  destruct (spawn _ _ _ _ _ _) as [ps g]. exact H.
Qed.

Lemma loopCount_le a b : a <= b -> (loopCount a <= loopCount b)%nat.
Proof.
  intro H. unfold loopCount. apply Qceiling_resp_le in H. lia.
Qed.

Lemma loopCount_comp a b : a == b -> loopCount a = loopCount b.
Proof. intro H. unfold loopCount. rewrite (Qceiling_comp _ _ H). reflexivity. Qed.

(** C5, as amended.  With density disabled [calculateParticleCount] returns
    the configured value as it is, and [init] makes that many particles (the
    loop runs once for each integer below the value); there is no cap on
    this path.  With density enabled the count is the floor of
    canvas area / (max(density area, 0.001) * 1000) * value, each operation
    rounded as the program rounds it ([rawCount]), capped at 2000: [init]
    makes at most 2000 particles, and exactly 2000 when the formula gives
    more than 2000. *)
Theorem particle_count_capped_when_density_enabled (M : MathLib) (e : Engine.t) :
  (number_density_enable (Engine.config e) = false ->
   Engine.calculateParticleCount e = number_value (Engine.config e) /\
   length (Engine.particles (Engine.init M e)) =
   loopCount (number_value (Engine.config e))) /\
  (number_density_enable (Engine.config e) = true ->
   Engine.calculateParticleCount e =
   Qmin (inject_Z (Qfloor (rawCount e))) 2000 /\
   Engine.calculateParticleCount e <= 2000 /\
   (length (Engine.particles (Engine.init M e)) <= 2000)%nat /\
   (2000 < rawCount e ->
    Engine.calculateParticleCount e == 2000 /\
    length (Engine.particles (Engine.init M e)) = 2000%nat)).
Proof.
  split; intro Hd.
  - assert (Hc : Engine.calculateParticleCount e = number_value (Engine.config e)).
    { unfold Engine.calculateParticleCount. rewrite Hd. reflexivity. }
    split; [exact Hc|]. rewrite init_length, Hc. reflexivity.
  - assert (Hc : Engine.calculateParticleCount e =
                 Qmin (inject_Z (Qfloor (rawCount e))) 2000).
    { unfold Engine.calculateParticleCount. rewrite Hd. reflexivity. }
    assert (Hle : Engine.calculateParticleCount e <= 2000).
    { rewrite Hc. apply Q.le_min_r. }
    split; [exact Hc|]. split; [exact Hle|]. split.
    + rewrite init_length. apply (loopCount_le _ 2000 Hle).
    + intro Hraw.
      assert (Heq : Engine.calculateParticleCount e == 2000).
      { rewrite Hc. apply Q.min_r.
        change 2000 with (inject_Z 2000). rewrite <- Zle_Qle.
        rewrite <- (Qfloor_Z 2000). apply Qfloor_resp_le.
        apply Qlt_le_weak. exact Hraw. }
      split; [exact Heq|]. rewrite init_length, (loopCount_comp _ _ Heq). reflexivity.
Qed.

(** The rounding shows in the count: on a canvas of 375 by 667 with a
    density area of 115 and a value of 200 the count is 434, where the
    formula gives 435 in exact arithmetic. *)
Example count_follows_the_rounding :
  Engine.calculateParticleCount phoneEngine == 434 /\
  Qfloor (375 * 667 / (Qmax 115 0.001 * 1000) * 200) = 435%Z.
Proof. split; vm_compute; reflexivity. Qed.

(** The default preset on a canvas of 800 by 600 asks for 30 particles, and
    [init] makes them. *)
Example default_count :
  Engine.calculateParticleCount
    (Engine.mk [] DEFAULTS_default (mkMouse 0 0 false) (mkCanvas 800 600)
               0 true halfRng) == 30 /\
  length (Engine.particles
            (Engine.create rationalMath (mkCanvas 800 600) DEFAULTS_default
                           halfRng)) = 30%nat.
Proof.
  split; [vm_compute; reflexivity|].
  unfold Engine.create. rewrite init_length. reflexivity.
Qed.

(** C5 as stated fails: with density disabled a configured value of 2001
    yields 2001 particles. *)
Lemma count_not_capped_when_density_disabled :
  length (Engine.particles
            (Engine.create rationalMath (mkCanvas 800 600)
               (with_number_value 2001
                  (with_number_density_enable false DEFAULTS_default))
               halfRng)) = 2001%nat.
Proof.
  unfold Engine.create. rewrite init_length. reflexivity.
Qed.

(** ** The remove click *)

Section SortFacts.
Context {A : Type} (cmp : A -> A -> Q).

Lemma sortInsert_perm a l : Permutation (sortInsert cmp a l) (a :: l).
Proof.
  induction l as [|b l IH]; simpl; [reflexivity|].
  destruct (Qgtb (cmp a b) 0); [|reflexivity].
  rewrite IH. apply perm_swap.
Qed.

Lemma sort_perm l : Permutation (sort cmp l) l.
Proof.
  induction l as [|a l IH]; simpl; [reflexivity|].
  rewrite sortInsert_perm. constructor. exact IH.
Qed.

(** [sort] commutes with forgetting a tag that the comparator ignores. *)
Lemma sortInsert_map {B : Type} (f : B -> A) b l :
  sortInsert cmp (f b) (map f l) =
  map f (sortInsert (fun u v => cmp (f u) (f v)) b l).
Proof.
  induction l as [|c l IH]; simpl; [reflexivity|].
  destruct (Qgtb (cmp (f b) (f c)) 0); simpl; [rewrite IH|]; reflexivity.
Qed.

Lemma sort_map {B : Type} (f : B -> A) l :
  sort cmp (map f l) = map f (sort (fun u v => cmp (f u) (f v)) l).
Proof.
  induction l as [|b l IH]; simpl; [reflexivity|].
  rewrite IH. apply sortInsert_map.
Qed.

End SortFacts.

Section CloserFacts.
Variable mouse : Mouse.

Lemma closer_trans u v w : (closer mouse) u v -> (closer mouse) v w -> (closer mouse) u w.
Proof.
  unfold closer. intros [H1|[H1 H1']] [H2|[H2 H2']].
  - left. lra.
  - left. lra.
  - left. lra.
  - right. split; [lra | lia].
Qed.

Lemma sortInsert_sorted u l :
  Forall (fun v => (fst u < fst v)%nat) l ->
  StronglySorted (closer mouse) l ->
  StronglySorted (closer mouse) (sortInsert (taggedCompare mouse) u l).
Proof.
  intros Hidx Hs. induction Hs as [|v l Hs IH Hv]; simpl.
  - repeat constructor.
  - inversion Hidx as [|? ? Huv Hidx']; subst.
    destruct (Qgtb (taggedCompare mouse u v) 0) eqn:E; q2prop.
    + unfold taggedCompare, compareDist in E.
      constructor; [apply IH; assumption|].
      eapply Permutation_Forall; [symmetry; apply sortInsert_perm|].
      constructor; [|exact Hv]. left. lra.
    + unfold Qgtb in E. q2prop. unfold taggedCompare, compareDist in E.
      assert (Huv' : (closer mouse) u v).
      { destruct (Qlt_le_dec (distSqTo mouse (snd u)) (distSqTo mouse (snd v))).
        - left. assumption.
        - right. split; [lra|assumption]. }
      constructor; [constructor; assumption|].
      constructor; [exact Huv'|].
      eapply Forall_impl; [|exact Hv]. intros w Hw. eapply closer_trans; eauto.
Qed.


Lemma indexed_increasing ps : forall k,
  StronglySorted (fun u v : nat * Particle.t => (fst u < fst v)%nat)
                 (combine (seq k (length ps)) ps).
Proof.
  induction ps as [|a ps IH]; intro k; simpl; constructor; [apply IH|].
  apply Forall_forall. intros [j b] Hin. simpl.
  apply in_combine_l in Hin. apply in_seq in Hin. lia.
Qed.

Lemma indexed_snd ps : map snd (indexed ps) = ps.
Proof.
  unfold indexed. generalize 0%nat.
  induction ps as [|a ps IH]; intro k; simpl; [reflexivity|]. rewrite IH. reflexivity.
Qed.

Lemma sort_tagged_sorted l :
  StronglySorted (fun u v : nat * Particle.t => (fst u < fst v)%nat) l ->
  StronglySorted (closer mouse) (sort (taggedCompare mouse) l).
Proof.
  induction 1 as [|u l Hs IH Hu]; simpl; [constructor|].
  apply sortInsert_sorted; [|exact IH].
  eapply Permutation_Forall; [symmetry; apply sort_perm|]. exact Hu.
Qed.

Lemma sorted_app_cross {B : Type} (R : B -> B -> Prop) l1 l2 :
  StronglySorted R (l1 ++ l2) ->
  forall u v, In u l1 -> In v l2 -> R u v.
Proof.
  induction l1 as [|a l1 IH]; simpl; intros Hs u v Hu Hv; [contradiction|].
  inversion Hs as [|? ? Hs' Ha]; subst.
  destruct Hu as [<-|Hu]; [|eauto].
  rewrite Forall_forall in Ha. apply Ha. apply in_or_app. auto.
Qed.

Lemma sorted_skipn {B : Type} (R : B -> B -> Prop) l : forall n,
  StronglySorted R l -> StronglySorted R (skipn n l).
Proof.
  induction l as [|a l IH]; intros [|n] Hs; simpl; auto.
  inversion Hs; subst. auto.
Qed.

Lemma sorted_map_snd (R : Particle.t -> Particle.t -> Prop) l :
  (forall u v, (closer mouse) u v -> R (snd u) (snd v)) ->
  StronglySorted (closer mouse) l -> StronglySorted R (map snd l).
Proof.
  intros HR. induction 1 as [|u l Hs IH Hu]; simpl; constructor; [exact IH|].
  apply Forall_map. eapply Forall_impl; [|exact Hu]. intros v Hv. auto.
Qed.

(** The array sorted by [handleClick] is the sorted array of entries paired
    with their positions, positions forgotten. *)
Lemma sort_indexed ps :
  sort (compareDist mouse) ps = map snd (sort (taggedCompare mouse) (indexed ps)).
Proof.
  rewrite <- (indexed_snd ps) at 1.
  apply (sort_map (compareDist mouse) snd).
Qed.

Lemma sort_sorted ps :
  StronglySorted (fun a b => distSqTo mouse a <= distSqTo mouse b)
                 (sort (compareDist mouse) ps).
Proof.
  rewrite sort_indexed. apply sorted_map_snd.
  - intros u v [H|[H _]]; lra.
  - apply sort_tagged_sorted, indexed_increasing.
Qed.

End CloserFacts.

Lemma spliceCount_nat (q : Q) (k : nat) :
  q == inject_Z (Z.of_nat k) -> spliceCount q = k.
Proof.
  intro H. unfold spliceCount. rewrite (Qfloor_comp _ _ H), Qfloor_Z.
  apply Nat2Z.id.
Qed.

(** The remove branch in general: the removed entries are the leading
    [spliceCount quantity] positions of the array ordered by distance and
    then position, or all of them when the array is shorter. *)
Lemma removeClosest_spec (e : Engine.t) :
  exists sel rest : list (nat * Particle.t),
    Permutation (sel ++ rest) (indexed (Engine.particles e)) /\
    length sel = Nat.min (spliceCount (modes_remove_quantity (Engine.config e)))
                         (length (Engine.particles e)) /\
    fst (Engine.removeClosest e) = map snd sel /\
    snd (Engine.removeClosest e) = map snd rest /\
    forall u v, In u sel -> In v rest -> closer (Engine.mouse e) u v.
Proof.
  set (n := spliceCount (modes_remove_quantity (Engine.config e))).
  set (st := sort (taggedCompare (Engine.mouse e)) (indexed (Engine.particles e))).
  assert (Hperm : Permutation st (indexed (Engine.particles e))) by apply sort_perm.
  exists (firstn n st), (skipn n st).
  split; [rewrite firstn_skipn; exact Hperm|]. split.
  { rewrite length_firstn. f_equal.
    rewrite (Permutation_length Hperm). unfold indexed.
    rewrite length_combine, length_seq. apply Nat.min_id. }
  unfold Engine.removeClosest, splice0. fold n. rewrite sort_indexed. fold st.
  cbn [fst snd]. split; [apply firstn_map|]. split; [apply skipn_map|].
  apply sorted_app_cross. rewrite firstn_skipn.
  apply sort_tagged_sorted, indexed_increasing.
Qed.

Lemma handleClick_remove M e :
  onclick_enable (Engine.config e) = true ->
  onclick_mode (Engine.config e) = mode_remove ->
  Engine.particles (Engine.handleClick M e) = snd (Engine.removeClosest e).
Proof.
  intros He Hm. unfold Engine.handleClick. rewrite He, Hm. reflexivity.
Qed.




(** ** Attraction *)

Section AttractionFacts.
Variables (rotX rotY : Q) (qtree : QuadTree.t) (hp : Heap).

Lemma deref_map_unvel h r :
  deref (map unvel h) r = option_map unvel (deref h r).
Proof. unfold deref. apply nth_error_map. Qed.

(** Heaps that agree up to velocities hold the same positions. *)
Lemma same_positions h r o :
  map unvel h = map unvel hp -> deref h r = Some o ->
  exists o0, deref hp r = Some o0 /\ unvel o = unvel o0.
Proof.
  intros Hm Hr. pose proof (deref_map_unvel h r) as H1.
  rewrite Hm, deref_map_unvel, Hr in H1. simpl in H1.
  destruct (deref hp r) as [o0|]; [|discriminate].
  exists o0. simpl in H1. split; congruence.
Qed.

Lemma same_positions_rev h r o0 :
  map unvel h = map unvel hp -> deref hp r = Some o0 ->
  exists o, deref h r = Some o /\ unvel o = unvel o0.
Proof.
  intros Hm Hr. pose proof (deref_map_unvel h r) as H1.
  rewrite Hm, deref_map_unvel, Hr in H1. simpl in H1.
  destruct (deref h r) as [o|]; [|discriminate].
  exists o. simpl in H1. split; congruence.
Qed.

Lemma unvel_x o o0 : unvel o = unvel o0 -> Particle.x o = Particle.x o0.
Proof. intro H. apply (f_equal Particle.x) in H. exact H. Qed.

Lemma unvel_y o o0 : unvel o = unvel o0 -> Particle.y o = Particle.y o0.
Proof. intro H. apply (f_equal Particle.y) in H. exact H. Qed.

Lemma unvel_contains b o o0 :
  unvel o = unvel o0 -> Boundary.contains b o = Boundary.contains b o0.
Proof.
  intro H. unfold Boundary.contains. rewrite (unvel_x _ _ H), (unvel_y _ _ H).
  reflexivity.
Qed.

Lemma containsRef_same_positions h b r :
  map unvel h = map unvel hp ->
  Boundary.containsRef h b r = Boundary.containsRef hp b r.
Proof.
  intro Hm. unfold Boundary.containsRef.
  destruct (deref h r) as [o|] eqn:E.
  - destruct (same_positions h r o Hm E) as (o0 & -> & Hu). apply unvel_contains, Hu.
  - destruct (deref hp r) as [o0|] eqn:E0; [|reflexivity].
    destruct (same_positions_rev h r o0 Hm E0) as (o & Ho & _). congruence.
Qed.

Lemma query_same_positions h range : forall q found,
  map unvel h = map unvel hp ->
  QuadTree.query h q range found = QuadTree.query hp q range found.
Proof.
  intros q found Hm. revert found.
  induction q as [b ps|b ps nw IHnw ne IHne sw IHsw se IHse]; intro found; simpl.
  - destruct (negb _); [reflexivity|]. f_equal. apply filter_ext.
    intro r. apply containsRef_same_positions, Hm.
  - destruct (negb _); [reflexivity|].
    rewrite IHnw, IHne, IHsw, IHse. do 5 f_equal. apply filter_ext.
    intro r. apply containsRef_same_positions, Hm.
Qed.

Lemma query_valid range : forall q found r,
  In r (QuadTree.query hp q range found) ->
  In r found \/ Boundary.containsRef hp range r = true.
Proof.
  induction q as [b ps|b ps nw IHnw ne IHne sw IHsw se IHse]; intros found r; simpl.
  - destruct (negb _); [auto|]. intro H. apply in_app_or in H.
    destruct H as [H|H]; [auto|]. apply filter_In in H. tauto.
  - destruct (negb _); [auto|]. intro H.
    apply IHse in H. destruct H as [H|H]; [|auto].
    apply IHsw in H. destruct H as [H|H]; [|auto].
    apply IHne in H. destruct H as [H|H]; [|auto].
    apply IHnw in H. destruct H as [H|H]; [|auto].
    apply in_app_or in H. destruct H as [H|H]; [auto|].
    apply filter_In in H. tauto.
Qed.


Lemma modify_map_unvel f r : forall h,
  (forall o, unvel (f o) = unvel o) ->
  map unvel (modify f r h) = map unvel h.
Proof.
  intros h Hf. revert r. induction h as [|a h IH]; intros [|r]; simpl; auto.
  - rewrite Hf. reflexivity.
  - rewrite IH. reflexivity.
Qed.

Lemma Qsum_cons a l : Qsum (a :: l) = a + Qsum l.
Proof. reflexivity. Qed.

(** The inner loop, over the neighbours of [p1]. *)
Lemma attract_inner p1 : forall nbrs h o1,
  map unvel h = map unvel hp -> deref h p1 = Some o1 ->
  (forall j, In j nbrs -> exists o2, deref hp j = Some o2) ->
  let h' := fold_left (attractStep rotX rotY p1) nbrs h in
  map unvel h' = map unvel hp /\
  (forall r, r <> p1 -> deref h' r = deref h r) /\
  exists o1', deref h' p1 = Some o1' /\ unvel o1' = unvel o1 /\
    Particle.vx o1' ==
      Particle.vx o1 -
      Qsum (map (fun j => (Particle.x o1 - xAt hp j) / rotX)
                (filter (fun j => negb (Nat.eqb p1 j)) nbrs)) /\
    Particle.vy o1' ==
      Particle.vy o1 -
      Qsum (map (fun j => (Particle.y o1 - yAt hp j) / rotY)
                (filter (fun j => negb (Nat.eqb p1 j)) nbrs)).
Proof.
  induction nbrs as [|j nbrs IH]; intros h o1 Hm H1 Hv; cbn [fold_left filter].
  - split; [exact Hm|]. split; [reflexivity|].
    exists o1. repeat split; auto; unfold Qsum; simpl; ring.
  - assert (Hv' : forall j', In j' nbrs -> exists o2, deref hp j' = Some o2)
      by (intros; apply Hv; right; assumption).
    destruct (Nat.eqb p1 j) eqn:Ej; cbn [negb map].
    + replace (attractStep rotX rotY p1 h j) with h
        by (unfold attractStep; rewrite Ej; reflexivity).
      apply IH; assumption.
    + destruct (Hv j (or_introl eq_refl)) as [o2 H2].
      destruct (same_positions_rev _ _ _ Hm H2) as (o2' & H2' & Hu2).
      set (f := fun o => Particle.set_vy
                  (Particle.vy o - (Particle.y o1 - Particle.y o2') / rotY)
                  (Particle.set_vx
                     (Particle.vx o - (Particle.x o1 - Particle.x o2') / rotX) o)).
      replace (attractStep rotX rotY p1 h j) with (modify f p1 h)
        by (unfold attractStep; rewrite Ej, H1, H2'; reflexivity).
      apply Nat.eqb_neq in Ej.
      assert (Hf : forall o, unvel (f o) = unvel o) by reflexivity.
      specialize (IH (modify f p1 h) (f o1)).
      destruct IH as (Hm' & Hother & o1' & Ho1' & Hu & Hvx & Hvy); auto.
      { rewrite modify_map_unvel; assumption. }
      { apply deref_modify_same. exact H1. }
      split; [exact Hm'|]. split.
      { intros r Hr. rewrite Hother by exact Hr.
        apply deref_modify_other. congruence. }
      exists o1'. split; [exact Ho1'|]. split; [rewrite Hu; apply Hf|].
      rewrite !Qsum_cons.
      assert (Hx : xAt hp j = Particle.x o2').
      { unfold xAt. rewrite H2. symmetry. apply unvel_x, Hu2. }
      assert (Hy : yAt hp j = Particle.y o2').
      { unfold yAt. rewrite H2. symmetry. apply unvel_y, Hu2. }
      rewrite Hx, Hy.
      cbn [f Particle.x Particle.y Particle.vx Particle.vy Particle.set_vx
           Particle.set_vy] in Hvx, Hvy.
      split; [rewrite Hvx | rewrite Hvy]; ring.
Qed.

(** The outer loop, over particles that are each listed once. *)
Lemma attract_outer : forall l h,
  NoDup l -> map unvel h = map unvel hp ->
  let h' := fold_left (attractParticle rotX rotY qtree) l h in
  map unvel h' = map unvel hp /\
  forall i o, deref h i = Some o ->
    exists o', deref h' i = Some o' /\ unvel o' = unvel o /\
      (In i l ->
       Particle.vx o' ==
         Particle.vx o -
         Qsum (map (fun j => (Particle.x o - xAt hp j) / rotX)
                   (attractors hp qtree i o)) /\
       Particle.vy o' ==
         Particle.vy o -
         Qsum (map (fun j => (Particle.y o - yAt hp j) / rotY)
                   (attractors hp qtree i o))) /\
      (~ In i l -> o' = o).
Proof.
  induction l as [|p1 l IH]; intros h Hnd Hm; simpl.
  - split; [exact Hm|]. intros i o Hi. exists o. repeat split; auto; contradiction.
  - inversion Hnd as [|? ? Hnotin Hnd']; subst.
    destruct (deref h p1) as [o1|] eqn:H1.
    + replace (attractParticle rotX rotY qtree h p1)
        with (fold_left (attractStep rotX rotY p1)
                (QuadTree.query hp qtree (attractRange o1) []) h)
        by (unfold attractParticle; rewrite H1, (query_same_positions h _ _ _ Hm);
            reflexivity).
      destruct (attract_inner p1 (QuadTree.query hp qtree (attractRange o1) []) h o1 Hm H1)
        as (Hm1 & Hother & o1' & Ho1' & Hu1 & Hvx & Hvy).
      { intros j Hj. apply query_valid in Hj. destruct Hj as [[]|Hj].
        apply containsRef_spec in Hj. destruct Hj as (o2 & Ho2 & _). eauto. }
      set (h1 := fold_left (attractStep rotX rotY p1)
                   (QuadTree.query hp qtree (attractRange o1) []) h) in *.
      destruct (IH h1 Hnd' Hm1) as (Hm' & Hall).
      split; [exact Hm'|]. intros i o Hi.
      destruct (Nat.eq_dec i p1) as [->|Hne].
      * assert (o = o1) by congruence. subst o.
        destruct (Hall p1 o1' Ho1') as (o' & Ho' & Hu' & _ & Hout).
        exists o'. split; [exact Ho'|].
        rewrite (Hout Hnotin). split; [exact Hu1|].
        split; [|intro H; exfalso; apply H; left; reflexivity].
        intros _. split; assumption.
      * rewrite <- (Hother i Hne) in Hi.
        destruct (Hall i o Hi) as (o' & Ho' & Hu' & Hin & Hout).
        exists o'. split; [exact Ho'|]. split; [exact Hu'|]. split.
        -- intros [Heq|Hin']; [congruence|auto].
        -- intro Hn. apply Hout. intro. apply Hn. right. assumption.
    + replace (attractParticle rotX rotY qtree h p1) with h
        by (unfold attractParticle; rewrite H1; reflexivity).
      destruct (IH h Hnd' Hm) as (Hm' & Hall).
      split; [exact Hm'|]. intros i o Hi.
      destruct (Hall i o Hi) as (o' & Ho' & Hu' & Hin & Hout).
      exists o'. split; [exact Ho'|]. split; [exact Hu'|]. split.
      * intros [Heq|Hin']; [congruence|auto].
      * intro Hn. apply Hout. intro. apply Hn. right. assumption.
Qed.

End AttractionFacts.

Lemma deref_refs hp i o : deref hp i = Some o -> In i (Engine.refs hp).
Proof.
  intro H. unfold Engine.refs. apply in_seq. split; [lia|]. simpl.
  apply nth_error_Some. unfold deref in H. congruence.
Qed.


Lemma attractSampleTree_inside : QuadTree.inside attractSampleHeap attractSampleTree.
Proof.
  pose proof (insertAll_sound attractSampleHeap (Engine.refs attractSampleHeap)
                (QuadTree.new (Boundary.mk 0 0 800 600))) as (_ & _ & I & _).
  exact (I (inside_new attractSampleHeap _)).
Qed.


(** A run of [applyAttraction]: the first two particles pull each other, the
    third is out of reach of both. *)
Example attraction_sample :
  map (fun o => (Qred (Particle.vx o), Qred (Particle.vy o)))
      (applyAttraction (Engine.refs attractSampleHeap)
         (with_move_attract_enable true DEFAULTS_default)
         attractSampleTree attractSampleHeap) =
  [(1 / 20000, 0); (- (1 / 20000), 0); (0, 0)].
Proof. vm_compute. reflexivity. Qed.

(** ** Interactions and the bubble reset *)

(** ** Loops over the heap *)

Lemma modify_app f pre : forall suf,
  modify f (length pre) (pre ++ suf) =
  pre ++ match suf with [] => [] | a :: suf' => f a :: suf' end.
Proof.
  induction pre as [|b pre IH]; intro suf; simpl.
  - destruct suf; reflexivity.
  - rewrite IH. reflexivity.
Qed.

(** A loop that modifies every particle of the array in turn maps the
    modification over the array. *)
Lemma fold_modify_all f : forall suf pre,
  fold_left (fun h p => modify f p h) (seq (length pre) (length suf)) (pre ++ suf) =
  pre ++ map f suf.
Proof.
  induction suf as [|a suf IH]; intro pre; simpl; [reflexivity|].
  rewrite modify_app.
  change (pre ++ f a :: suf) with (pre ++ [f a] ++ suf). rewrite app_assoc.
  replace (S (length pre)) with (length (pre ++ [f a]))
    by (rewrite length_app; simpl; lia).
  rewrite IH, <- app_assoc. reflexivity.
Qed.

Lemma fold_modify_refs f hp :
  fold_left (fun h p => modify f p h) (Engine.refs hp) hp = map f hp.
Proof. exact (fold_modify_all f hp []). Qed.

(** A loop of modifications keeps what each modification keeps. *)
Lemma fold_modify_keeps {B : Type} (g : Particle.t -> B) f :
  (forall o, g (f o) = g o) ->
  forall l hp, map g (fold_left (fun h p => modify f p h) l hp) = map g hp.
Proof.
  intros Hf. induction l as [|p l IH]; intro hp; simpl; [reflexivity|].
  rewrite IH. clear IH. revert p.
  induction hp as [|a hp IH]; intros [|p]; simpl; auto.
  - rewrite Hf. reflexivity.
  - rewrite IH. reflexivity.
Qed.

(** ** [applyInteractions] *)

Lemma applyInteractions_bubble M qtree mouse cfg hp :
  onhover_mode cfg = mode_bubble ->
  applyInteractions M qtree mouse cfg (Engine.refs hp) hp =
  interactNeighbours M qtree mouse cfg (map bubbleReset hp).
Proof.
  intro Hm. unfold applyInteractions, interactNeighbours.
  rewrite Hm, fold_modify_refs. reflexivity.
Qed.

Lemma applyInteractions_not_bubble M qtree mouse cfg hp :
  onhover_mode cfg <> mode_bubble ->
  applyInteractions M qtree mouse cfg (Engine.refs hp) hp =
  interactNeighbours M qtree mouse cfg hp.
Proof.
  intro Hm. unfold applyInteractions, interactNeighbours.
  destruct (onhover_mode cfg); congruence.
Qed.

(** ** [update] and the cached initial values *)

Lemma integrate_visual delta p :
  Particle.radius (integrate delta p) = Particle.radius p /\
  Particle.initialRadius (integrate delta p) = Particle.initialRadius p /\
  Particle.opacity (integrate delta p) = Particle.opacity p /\
  Particle.initialOpacity (integrate delta p) = Particle.initialOpacity p.
Proof. unfold integrate. simpl. auto. Qed.

Lemma handleOutMode_visual cfg canvas p :
  Particle.radius (handleOutMode cfg canvas p) = Particle.radius p /\
  Particle.initialRadius (handleOutMode cfg canvas p) = Particle.initialRadius p /\
  Particle.opacity (handleOutMode cfg canvas p) = Particle.opacity p /\
  Particle.initialOpacity (handleOutMode cfg canvas p) = Particle.initialOpacity p.
Proof.
  unfold handleOutMode, bounceX, bounceY, wrapX, wrapY, Qgeb, Qgtb.
  destruct (move_out_mode cfg); simpl;
    repeat match goal with
           | |- context [if ?c then _ else _] => destruct c; simpl
           end; auto.
Qed.

Lemma handleOpacityAnimation_baseline cfg delta p :
  opacity_anim_enable cfg = true ->
  Particle.opacity (handleOpacityAnimation cfg delta p) =
  Particle.initialOpacity (handleOpacityAnimation cfg delta p).
Proof.
  intro He. unfold handleOpacityAnimation. rewrite He. reflexivity.
Qed.

Lemma handleSizeAnimation_baseline cfg delta p :
  size_anim_enable cfg = true ->
  Particle.radius (handleSizeAnimation cfg delta p) =
  Particle.initialRadius (handleSizeAnimation cfg delta p).
Proof.
  intro He. unfold handleSizeAnimation. rewrite He. reflexivity.
Qed.

(** The states [update] goes through, after the boundary policy. *)
Lemma update_stages M cfg canvas delta p :
  exists p2 p3 p4 p5,
    p2 = handleOutMode cfg canvas (integrate delta p) /\
    p3 = (if sway_enable cfg then handleSway M cfg delta p2 else p2) /\
    p4 = (if opacity_anim_enable cfg then handleOpacityAnimation cfg delta p3 else p3) /\
    p5 = (if size_anim_enable cfg then handleSizeAnimation cfg delta p4 else p4) /\
    update M cfg canvas delta p =
    (if rotate_enable cfg && rotate_anim_enable cfg
     then handleRotationAnimation M cfg delta p5 else p5).
Proof. do 4 eexists. repeat split; reflexivity. Qed.

Lemma update_atBaseline M cfg canvas delta p :
  atBaseline p -> atBaseline (update M cfg canvas delta p).
Proof.
  unfold atBaseline. intros [Hr Ho].
  destruct (update_stages M cfg canvas delta p)
    as (p2 & p3 & p4 & p5 & E2 & E3 & E4 & E5 & ->).
  pose proof (integrate_visual delta p) as (I1 & I2 & I3 & I4).
  pose proof (handleOutMode_visual cfg canvas (integrate delta p)) as (O1 & O2 & O3 & O4).
  rewrite <- E2 in O1, O2, O3, O4.
  assert (B2 : atBaseline p2) by (unfold atBaseline; split; congruence).
  assert (B3 : atBaseline p3).
  { subst p3. destruct (sway_enable cfg); [|exact B2].
    pose proof (handleSway_frame M cfg delta p2) as (_ & _ & _ & ? & ? & ? & ?).
    destruct B2. unfold atBaseline. split; congruence. }
  assert (B4 : atBaseline p4).
  { subst p4. destruct (opacity_anim_enable cfg) eqn:Eo; [|exact B3].
    pose proof (handleOpacityAnimation_frame cfg delta p3) as (_ & _ & _ & _ & ? & ?).
    pose proof (handleOpacityAnimation_baseline cfg delta p3 Eo).
    destruct B3. unfold atBaseline. split; congruence. }
  assert (B5 : atBaseline p5).
  { subst p5. destruct (size_anim_enable cfg) eqn:Es; [|exact B4].
    pose proof (handleSizeAnimation_frame cfg delta p4) as (_ & _ & _ & _ & ? & ?).
    pose proof (handleSizeAnimation_baseline cfg delta p4 Es).
    destruct B4. unfold atBaseline. split; congruence. }
  destruct (rotate_enable cfg && rotate_anim_enable cfg); [|exact B5].
  pose proof (handleRotationAnimation_frame M cfg delta p5)
    as (_ & _ & _ & _ & ? & ? & ? & ?).
  destruct B5. split; congruence.
Qed.

Lemma render_particles M e timestamp :
  Engine.firstFrame e = false ->
  Engine.particles (Engine.render M e timestamp) =
  map (update M (Engine.config e) (Engine.canvas e) (Engine.deltaOf e timestamp))
      (applyInteractions M (Engine.buildTree e) (Engine.mouse e) (Engine.config e)
         (Engine.refs (applyAttraction (Engine.refs (Engine.particles e))
                         (Engine.config e) (Engine.buildTree e) (Engine.particles e)))
         (applyAttraction (Engine.refs (Engine.particles e))
            (Engine.config e) (Engine.buildTree e) (Engine.particles e))).
Proof. intro Hf. unfold Engine.render. rewrite Hf. reflexivity. Qed.

(** C4.  With the hover mode bubble, [applyInteractions] is the interaction
    step run on the array in which every particle's radius and opacity have
    been set to their cached initial values ([bubbleReset]); with the
    pointer inactive or hover disabled it is that reset alone.  So with
    hover mode bubble and hover disabled, every particle ends a full tick
    with radius and opacity equal to their cached initial values. *)
Theorem bubble_reset_is_unconditional (M : MathLib) (e : Engine.t)
  (qtree : QuadTree.t) (timestamp : Q) :
  onhover_mode (Engine.config e) = mode_bubble ->
  applyInteractions M qtree (Engine.mouse e) (Engine.config e)
    (Engine.refs (Engine.particles e)) (Engine.particles e) =
  interactNeighbours M qtree (Engine.mouse e) (Engine.config e)
    (map bubbleReset (Engine.particles e)) /\
  Forall atBaseline (map bubbleReset (Engine.particles e)) /\
  (mouse_active (Engine.mouse e) = false \/
   onhover_enable (Engine.config e) = false ->
   applyInteractions M qtree (Engine.mouse e) (Engine.config e)
     (Engine.refs (Engine.particles e)) (Engine.particles e) =
   map bubbleReset (Engine.particles e)) /\
  (onhover_enable (Engine.config e) = false -> Engine.firstFrame e = false ->
   Forall atBaseline (Engine.particles (Engine.render M e timestamp))).
Proof.
  intro Hm.
  assert (Hoff : forall qt h,
            mouse_active (Engine.mouse e) = false \/
            onhover_enable (Engine.config e) = false ->
            applyInteractions M qt (Engine.mouse e) (Engine.config e)
              (Engine.refs h) h = map bubbleReset h).
  { intros qt h Hor. rewrite applyInteractions_bubble by exact Hm.
    unfold interactNeighbours.
    destruct Hor as [-> | ->]; [reflexivity|]. rewrite orb_true_r. reflexivity. }
  split; [apply applyInteractions_bubble, Hm|].
  split; [rewrite Forall_map; apply Forall_forall; intros p _; split; reflexivity|].
  split; [apply Hoff|].
  intros He Hf. rewrite (render_particles M e timestamp Hf).
  rewrite Hoff by (right; exact He).
  rewrite Forall_map, Forall_map. apply Forall_forall. intros p _.
  apply update_atBaseline. split; reflexivity.
Qed.

Lemma bubble_reset_witness :
  Forall atBaseline (Engine.particles (Engine.render rationalMath bubbleSample 16)) /\
  map Particle.radius (Engine.particles (Engine.render rationalMath bubbleSample 16))
  = [1].
Proof.
  split.
  - apply (bubble_reset_is_unconditional rationalMath bubbleSample
             (Engine.buildTree bubbleSample) 16 eq_refl); reflexivity.
  - vm_compute. reflexivity.
Defined.

(** ** Radius and opacity after a tick *)

(** Decides the conditions of the goal, innermost first. *)
Ltac ifcases :=
  repeat match goal with
         | |- context [if ?c then _ else _] =>
           lazymatch c with
           | context [if _ then _ else _] => fail
           | _ => destruct c eqn:?
           end;
           cbn [Particle.radius Particle.opacity Particle.set_radius
                Particle.set_opacity Particle.set_sizeDirection
                Particle.set_opacityDirection Particle.set_initialRadius
                Particle.set_initialOpacity Particle.x Particle.y
                Particle.set_x Particle.set_y]
         end.

Lemma handleSizeAnimation_bounds cfg delta p :
  size_anim_enable cfg = true ->
  radiusInRange cfg (handleSizeAnimation cfg delta p).
Proof.
  intro He. unfold radiusInRange, handleSizeAnimation, Qgeb, Qgtb. rewrite He.
  cbn [negb]. cbv zeta.
  cbn [Particle.radius Particle.set_radius Particle.set_sizeDirection
       Particle.set_initialRadius].
  ifcases; q2prop; repeat split; intros; lra.
Qed.

Lemma handleOpacityAnimation_bounds cfg delta p :
  opacity_anim_enable cfg = true ->
  opacityInRange (handleOpacityAnimation cfg delta p).
Proof.
  intro He. unfold opacityInRange, handleOpacityAnimation, Qgeb, Qgtb. rewrite He.
  cbn [negb]. cbv zeta.
  cbn [Particle.opacity Particle.set_opacity Particle.set_opacityDirection
       Particle.set_initialOpacity].
  ifcases; q2prop; repeat split; intros; lra.
Qed.

Lemma applyAttraction_unvel cfg qtree hp :
  map unvel (applyAttraction (Engine.refs hp) cfg qtree hp) = map unvel hp.
Proof.
  unfold applyAttraction. destruct (negb (move_attract_enable cfg)); [reflexivity|].
  apply (attract_outer _ _ qtree hp (Engine.refs hp) hp (seq_NoDup _ _) eq_refl).
Qed.

Lemma map_unvel_field {B : Type} (g : Particle.t -> B) h h' :
  (forall o, g (unvel o) = g o) ->
  map unvel h' = map unvel h -> map g h' = map g h.
Proof.
  intros Hg Hm. apply (f_equal (map g)) in Hm. rewrite !map_map in Hm.
  rewrite (map_ext _ g Hg h'), (map_ext _ g Hg h) in Hm. exact Hm.
Qed.

Lemma interactOne_not_bubble M cfg mouse o :
  onhover_mode cfg <> mode_bubble ->
  Particle.radius (interactOne M cfg mouse o) = Particle.radius o /\
  Particle.opacity (interactOne M cfg mouse o) = Particle.opacity o.
Proof.
  intro Hm. unfold interactOne.
  destruct (Qltb _ _); [|auto].
  destruct (onhover_mode cfg); [auto|congruence|auto].
Qed.

Lemma interactNeighbours_not_bubble M qtree mouse cfg hp :
  onhover_mode cfg <> mode_bubble ->
  map Particle.radius (interactNeighbours M qtree mouse cfg hp) =
  map Particle.radius hp /\
  map Particle.opacity (interactNeighbours M qtree mouse cfg hp) =
  map Particle.opacity hp.
Proof.
  intro Hm. unfold interactNeighbours.
  destruct (negb (mouse_active mouse) || negb (onhover_enable cfg)); [auto|].
  split; apply fold_modify_keeps; intro o; apply interactOne_not_bubble; exact Hm.
Qed.

(** Radius and opacity after [update], by what the configuration animates. *)
Lemma update_visual M cfg canvas delta p :
  (size_anim_enable cfg = true -> radiusInRange cfg (update M cfg canvas delta p)) /\
  (size_anim_enable cfg = false ->
   Particle.radius (update M cfg canvas delta p) = Particle.radius p) /\
  (opacity_anim_enable cfg = true -> opacityInRange (update M cfg canvas delta p)) /\
  (opacity_anim_enable cfg = false ->
   Particle.opacity (update M cfg canvas delta p) = Particle.opacity p).
Proof.
  destruct (update_stages M cfg canvas delta p)
    as (p2 & p3 & p4 & p5 & E2 & E3 & E4 & E5 & ->).
  pose proof (integrate_visual delta p) as (I1 & _ & I3 & _).
  pose proof (handleOutMode_visual cfg canvas (integrate delta p)) as (O1 & _ & O3 & _).
  rewrite <- E2 in O1, O3.
  assert (V3 : Particle.radius p3 = Particle.radius p /\
               Particle.opacity p3 = Particle.opacity p).
  { subst p3. destruct (sway_enable cfg); [|split; congruence].
    pose proof (handleSway_frame M cfg delta p2) as (_ & _ & _ & ? & ? & _).
    split; congruence. }
  destruct V3 as [R3 Op3].
  assert (R4 : Particle.radius p4 = Particle.radius p).
  { subst p4. destruct (opacity_anim_enable cfg); [|exact R3].
    pose proof (handleOpacityAnimation_frame cfg delta p3) as (_ & _ & _ & _ & ? & _).
    congruence. }
  assert (Op5 : Particle.opacity p5 = Particle.opacity p4).
  { subst p5. destruct (size_anim_enable cfg); [|reflexivity].
    apply (handleSizeAnimation_frame cfg delta p4). }
  set (p6 := if rotate_enable cfg && rotate_anim_enable cfg
             then handleRotationAnimation M cfg delta p5 else p5).
  assert (V6 : Particle.radius p6 = Particle.radius p5 /\
               Particle.opacity p6 = Particle.opacity p5).
  { unfold p6. destruct (rotate_enable cfg && rotate_anim_enable cfg); [|auto].
    pose proof (handleRotationAnimation_frame M cfg delta p5)
      as (_ & _ & _ & _ & ? & ? & _). auto. }
  destruct V6 as [R6 Op6].
  split; [|split; [|split]].
  - intro Hs. unfold radiusInRange. rewrite R6. subst p5. rewrite Hs.
    apply (handleSizeAnimation_bounds cfg delta p4 Hs).
  - intro Hs. rewrite R6. subst p5. rewrite Hs. exact R4.
  - intro Ho. unfold opacityInRange. rewrite Op6, Op5. subst p4. rewrite Ho.
    apply (handleOpacityAnimation_bounds cfg delta p3 Ho).
  - intro Ho. rewrite Op6, Op5. subst p4. rewrite Ho. exact Op3.
Qed.

Lemma deref_modify_none f r hp : deref hp r = None -> modify f r hp = hp.
Proof.
  unfold deref. revert r. induction hp as [|a hp IH]; intros [|r] H; simpl in *;
    try discriminate; try reflexivity.
  rewrite IH by exact H. reflexivity.
Qed.

(** A loop that applies an idempotent modification to the listed particles. *)
Lemma fold_modify_idem f (Hf : forall o, f (f o) = f o) : forall l h i,
  deref (fold_left (fun h p => modify f p h) l h) i =
  if existsb (Nat.eqb i) l then option_map f (deref h i) else deref h i.
Proof.
  induction l as [|p l IH]; intros h i; cbn [fold_left existsb]; [reflexivity|].
  rewrite IH.
  destruct (Nat.eqb i p) eqn:E; cbn [orb].
  - apply Nat.eqb_eq in E. subst p.
    destruct (deref h i) as [o|] eqn:Ho.
    + rewrite (deref_modify_same f i h o Ho). cbn [option_map]. rewrite Hf.
      destruct (existsb (Nat.eqb i) l); reflexivity.
    + rewrite (deref_modify_none f i h Ho), Ho.
      destruct (existsb (Nat.eqb i) l); reflexivity.
  - apply Nat.eqb_neq in E.
    rewrite (deref_modify_other f p i h) by congruence. reflexivity.
Qed.

Lemma containsRef_bubbleReset h b r :
  Boundary.containsRef (map bubbleReset h) b r = Boundary.containsRef h b r.
Proof.
  unfold Boundary.containsRef, deref. rewrite nth_error_map.
  destruct (nth_error h r); reflexivity.
Qed.

Lemma query_bubbleReset h range : forall q found,
  QuadTree.query (map bubbleReset h) q range found = QuadTree.query h q range found.
Proof.
  induction q as [b ps|b ps nw IHnw ne IHne sw IHsw se IHse]; intro found; simpl.
  - destruct (negb _); [reflexivity|]. f_equal. apply filter_ext.
    intro r. apply containsRef_bubbleReset.
  - destruct (negb _); [reflexivity|].
    rewrite IHnw, IHne, IHsw, IHse. do 5 f_equal. apply filter_ext.
    intro r. apply containsRef_bubbleReset.
Qed.

Lemma interactOne_bubble_idem M cfg mouse o :
  onhover_mode cfg = mode_bubble ->
  interactOne M cfg mouse (interactOne M cfg mouse o) = interactOne M cfg mouse o.
Proof.
  intro Hm. unfold interactOne. rewrite Hm.
  remember (Qltb ((Particle.x o - mouse_x mouse) * (Particle.x o - mouse_x mouse) +
                  (Particle.y o - mouse_y mouse) * (Particle.y o - mouse_y mouse))
                 (queryDistOf cfg * queryDistOf cfg)) as c eqn:Ec.
  destruct c.
  - destruct (modes_bubble_opacity cfg) as [bo|]; [destruct (truthy bo)|];
      cbn [Particle.x Particle.y Particle.set_radius Particle.set_opacity
           Particle.initialRadius Particle.initialOpacity]; rewrite <- Ec; reflexivity.
  - rewrite <- Ec. reflexivity.
Qed.

(** What the interaction of bubble mode makes of a particle at its baseline. *)
Lemma interactOne_bubble_reset M cfg mouse o :
  onhover_mode cfg = mode_bubble ->
  let near := Qltb (distSqTo mouse o)
                   (modes_bubble_distance cfg * modes_bubble_distance cfg) in
  let ratio := 1 - Math_sqrt M (distSqTo mouse o) / modes_bubble_distance cfg in
  let o' := interactOne M cfg mouse (bubbleReset o) in
  Particle.radius o' =
    (if near
     then Particle.initialRadius o + (modes_bubble_size cfg - Particle.initialRadius o) * ratio
     else Particle.initialRadius o) /\
  Particle.opacity o' =
    (match bubbleOpacityOf cfg with
     | Some bo =>
       if near
       then Particle.initialOpacity o + (bo - Particle.initialOpacity o) * ratio
       else Particle.initialOpacity o
     | None => Particle.initialOpacity o
     end).
Proof.
  intros Hm near ratio o'. unfold o', interactOne, bubbleOpacityOf. rewrite Hm.
  unfold queryDistOf. rewrite Hm.
  change (Particle.x (bubbleReset o)) with (Particle.x o).
  change (Particle.y (bubbleReset o)) with (Particle.y o).
  fold (distSqTo mouse o). fold near. fold ratio.
  destruct near.
  - destruct (modes_bubble_opacity cfg) as [bo|]; [destruct (truthy bo)|];
      split; reflexivity.
  - destruct (modes_bubble_opacity cfg) as [bo|]; [destruct (truthy bo)|];
      split; reflexivity.
Qed.

(** After the interaction of bubble mode, on the particles of a frame. *)
Lemma bubble_tick M (e : Engine.t) (timestamp : Q) (i : ref) (o : Particle.t) :
  Engine.firstFrame e = false ->
  onhover_mode (Engine.config e) = mode_bubble ->
  deref (Engine.particles e) i = Some o ->
  exists o1,
    unvel o1 = unvel o /\
    deref (Engine.particles (Engine.render M e timestamp)) i =
    Some (update M (Engine.config e) (Engine.canvas e) (Engine.deltaOf e timestamp)
            (if mouse_active (Engine.mouse e) && onhover_enable (Engine.config e) &&
                existsb (Nat.eqb i)
                  (QuadTree.query (Engine.particles e) (Engine.buildTree e)
                     (searchAreaOf (Engine.config e) (Engine.mouse e)) [])
             then interactOne M (Engine.config e) (Engine.mouse e) (bubbleReset o1)
             else bubbleReset o1)).
Proof.
  intros Hf Hm Ho. rewrite (render_particles M e timestamp Hf).
  set (cfg := Engine.config e) in *.
  set (hp1 := applyAttraction (Engine.refs (Engine.particles e)) cfg
                (Engine.buildTree e) (Engine.particles e)).
  assert (Hatt : map unvel hp1 = map unvel (Engine.particles e))
    by apply applyAttraction_unvel.
  destruct (same_positions_rev (Engine.particles e) hp1 i o Hatt Ho) as (o1 & Ho1 & Hu).
  exists o1. split; [exact Hu|].
  rewrite applyInteractions_bubble by exact Hm.
  unfold deref. rewrite nth_error_map. fold (deref (interactNeighbours M (Engine.buildTree e)
    (Engine.mouse e) cfg (map bubbleReset hp1)) i).
  assert (Hr : deref (map bubbleReset hp1) i = Some (bubbleReset o1)).
  { unfold deref. rewrite nth_error_map. fold (deref hp1 i). rewrite Ho1. reflexivity. }
  unfold interactNeighbours.
  destruct (mouse_active (Engine.mouse e)); cbn [negb orb andb];
    [|rewrite Hr; reflexivity].
  destruct (onhover_enable cfg); cbn [negb andb]; [|rewrite Hr; reflexivity].
  rewrite (fold_modify_idem _ (fun o0 => interactOne_bubble_idem M cfg (Engine.mouse e) o0 Hm)).
  rewrite query_bubbleReset, (query_same_positions (Engine.particles e) hp1 _ _ _ Hatt).
  rewrite Hr. destruct (existsb _ _); reflexivity.
Qed.

(** C3, as amended.  After a full tick: with size animation enabled the
    radius of every particle is at most the configured size, at least the
    configured minimum when that is not above the size, and at least 0 when
    the size is; with opacity animation enabled the opacity of every
    particle lies within [0, 1].  With an animation disabled the tick does
    not clamp the value.  With a hover mode other than bubble it leaves the
    radius, or the opacity, of every particle as it was.  With the hover
    mode bubble it leaves every particle with its initial radius, but the
    particles under the bubble of the pointer, whose radius is the initial
    one moved towards the configured bubble size by the bubble ratio; and
    likewise the opacity, towards the configured bubble opacity when there
    is one that is not [0]. *)
Theorem animated_radius_and_opacity_in_range (M : MathLib) (e : Engine.t)
  (timestamp : Q) :
  Engine.firstFrame e = false ->
  let cfg := Engine.config e in
  let after := Engine.particles (Engine.render M e timestamp) in
  (size_anim_enable cfg = true -> Forall (radiusInRange cfg) after) /\
  (opacity_anim_enable cfg = true -> Forall opacityInRange after) /\
  (size_anim_enable cfg = false -> onhover_mode cfg <> mode_bubble ->
   map Particle.radius after = map Particle.radius (Engine.particles e)) /\
  (opacity_anim_enable cfg = false -> onhover_mode cfg <> mode_bubble ->
   map Particle.opacity after = map Particle.opacity (Engine.particles e)) /\
  (size_anim_enable cfg = false -> onhover_mode cfg = mode_bubble ->
   forall i o, deref (Engine.particles e) i = Some o ->
   exists o', deref after i = Some o' /\
     Particle.radius o' =
       if bubbled e i o
       then Particle.initialRadius o +
            (modes_bubble_size cfg - Particle.initialRadius o) * bubbleRatio M e o
       else Particle.initialRadius o) /\
  (opacity_anim_enable cfg = false -> onhover_mode cfg = mode_bubble ->
   forall i o, deref (Engine.particles e) i = Some o ->
   exists o', deref after i = Some o' /\
     Particle.opacity o' =
       match bubbleOpacityOf cfg with
       | Some bo =>
         if bubbled e i o
         then Particle.initialOpacity o +
              (bo - Particle.initialOpacity o) * bubbleRatio M e o
         else Particle.initialOpacity o
       | None => Particle.initialOpacity o
       end).
Proof.
  intros Hf cfg after.
  assert (Hbub : onhover_mode cfg = mode_bubble ->
            forall i o, deref (Engine.particles e) i = Some o ->
            exists o', deref after i = Some o' /\
              (size_anim_enable cfg = false ->
               Particle.radius o' =
                 if bubbled e i o
                 then Particle.initialRadius o +
                      (modes_bubble_size cfg - Particle.initialRadius o) *
                      bubbleRatio M e o
                 else Particle.initialRadius o) /\
              (opacity_anim_enable cfg = false ->
               Particle.opacity o' =
                 match bubbleOpacityOf cfg with
                 | Some bo =>
                   if bubbled e i o
                   then Particle.initialOpacity o +
                        (bo - Particle.initialOpacity o) * bubbleRatio M e o
                   else Particle.initialOpacity o
                 | None => Particle.initialOpacity o
                 end)).
  { intros Hm i o Ho.
    destruct (bubble_tick M e timestamp i o Hf Hm Ho) as (o1 & Hu & Hd).
    eexists. split; [exact Hd|].
    pose proof (interactOne_bubble_reset M cfg (Engine.mouse e) o1 Hm) as (Hr & Hop).
    cbv zeta in Hr, Hop.
    assert (Ed : distSqTo (Engine.mouse e) o1 = distSqTo (Engine.mouse e) o).
    { unfold distSqTo. rewrite (unvel_x _ _ Hu), (unvel_y _ _ Hu). reflexivity. }
    assert (Eir : Particle.initialRadius o1 = Particle.initialRadius o)
      by exact (f_equal Particle.initialRadius Hu).
    assert (Eio : Particle.initialOpacity o1 = Particle.initialOpacity o)
      by exact (f_equal Particle.initialOpacity Hu).
    rewrite Ed, Eir in Hr. rewrite Ed, Eio in Hop.
    unfold bubbled, bubbleRatio. fold cfg.
    split.
    - intro Hs.
      rewrite (proj1 (proj2 (update_visual M cfg (Engine.canvas e)
                               (Engine.deltaOf e timestamp) _)) Hs).
      destruct (mouse_active (Engine.mouse e) && onhover_enable cfg &&
                existsb _ _); cbn [andb].
      + exact Hr.
      + cbn [bubbleReset Particle.radius Particle.set_radius Particle.set_opacity].
        exact Eir.
    - intro Hopa.
      rewrite (proj2 (proj2 (proj2 (update_visual M cfg (Engine.canvas e)
                               (Engine.deltaOf e timestamp) _))) Hopa).
      destruct (mouse_active (Engine.mouse e) && onhover_enable cfg &&
                existsb _ _); cbn [andb].
      + exact Hop.
      + cbn [bubbleReset Particle.opacity Particle.set_radius Particle.set_opacity].
        rewrite Eio. destruct (bubbleOpacityOf cfg); reflexivity. }
  unfold after in *. clear after.
  split; [|split; [|split; [|split; [|split]]]].
  - rewrite (render_particles M e timestamp Hf). fold cfg.
    intro Hs. rewrite Forall_map. apply Forall_forall. intros p _.
    apply (update_visual M cfg (Engine.canvas e) (Engine.deltaOf e timestamp) p), Hs.
  - rewrite (render_particles M e timestamp Hf). fold cfg.
    intro Ho. rewrite Forall_map. apply Forall_forall. intros p _.
    apply (update_visual M cfg (Engine.canvas e) (Engine.deltaOf e timestamp) p), Ho.
  - rewrite (render_particles M e timestamp Hf). fold cfg.
    intros Hs Hm. rewrite map_map.
    rewrite (map_ext _ Particle.radius
               (fun p => proj1 (proj2 (update_visual M cfg (Engine.canvas e)
                                         (Engine.deltaOf e timestamp) p)) Hs)).
    rewrite applyInteractions_not_bubble by exact Hm.
    rewrite (proj1 (interactNeighbours_not_bubble M _ _ cfg _ Hm)).
    apply (map_unvel_field Particle.radius); [reflexivity | apply applyAttraction_unvel].
  - rewrite (render_particles M e timestamp Hf). fold cfg.
    intros Ho Hm. rewrite map_map.
    rewrite (map_ext _ Particle.opacity
               (fun p => proj2 (proj2 (proj2 (update_visual M cfg (Engine.canvas e)
                                         (Engine.deltaOf e timestamp) p))) Ho)).
    rewrite applyInteractions_not_bubble by exact Hm.
    rewrite (proj2 (interactNeighbours_not_bubble M _ _ cfg _ Hm)).
    apply (map_unvel_field Particle.opacity); [reflexivity | apply applyAttraction_unvel].
  - intros Hs Hm i o Ho. destruct (Hbub Hm i o Ho) as (o' & Hd & Hr & _).
    exists o'. split; [exact Hd|exact (Hr Hs)].
  - intros Hopa Hm i o Ho. destruct (Hbub Hm i o Ho) as (o' & Hd & _ & Hop).
    exists o'. split; [exact Hd|exact (Hop Hopa)].
Qed.

Lemma animated_range_witness :
  Forall (radiusInRange (with_size_anim_enable true bubbleHoverConfig))
         (Engine.particles
            (Engine.render rationalMath
               (hoverEngine (with_size_anim_enable true bubbleHoverConfig)) 16)).
Proof.
  apply (animated_radius_and_opacity_in_range rationalMath
           (hoverEngine (with_size_anim_enable true bubbleHoverConfig)) 16);
    reflexivity.
Defined.

(** C3 as stated fails.  The default preset animates neither size nor
    opacity; with the hover mode bubble and the pointer on the particle, a
    tick leaves the particle with the bubble size 80 as its radius, above
    the configured size 3. *)
Lemma bubble_hover_radius_exceeds_configured_size :
  size_value bubbleHoverConfig == 3 /\
  map (fun p => Qred (Particle.radius p))
      (Engine.particles (Engine.render rationalMath (hoverEngine bubbleHoverConfig) 16))
  = [80] /\
  ~ Forall (fun p => 0 <= Particle.radius p <= size_value bubbleHoverConfig)
      (Engine.particles (Engine.render rationalMath (hoverEngine bubbleHoverConfig) 16)).
Proof.
  split; [reflexivity|]. split; [vm_compute; reflexivity|].
  intro H.
  assert (E : exists p, Engine.particles
                (Engine.render rationalMath (hoverEngine bubbleHoverConfig) 16) = [p] /\
              Qred (Particle.radius p) = 80).
  { eexists. split; vm_compute; reflexivity. }
  destruct E as (p & Ep & Er). rewrite Ep in H.
  inversion H as [|? ? [_ Hle] _]; subst.
  rewrite <- (Qred_correct (Particle.radius p)), Er in Hle.
  vm_compute in Hle. apply Hle. reflexivity.
Qed.

(** ** More on the quad tree *)


(** X2.  The four boundaries [subdivide] creates cover their parent when
    they leave no gap: a position within the parent is then within one of
    them at least.  They leave no gap when the halves and the mid lines of
    the parent are computed without rounding; when moreover the parent's
    width and height are not negative each of them lies within the parent,
    and the four meet at the parent's centre.  Rounding can open a gap: of
    the boundary at (1, 0) of width 5 * 2^-52 and height 1, the right edge
    belongs to no quadrant. *)
Theorem subdivide_quadrants_cover_parent (b : Boundary.t) :
  (gapFree b -> forall o, Boundary.contains b o = true ->
     Boundary.contains (QuadTree.northwestOf b) o ||
     Boundary.contains (QuadTree.northeastOf b) o ||
     Boundary.contains (QuadTree.southwestOf b) o ||
     Boundary.contains (QuadTree.southeastOf b) o = true) /\
  (exactHalves b ->
   gapFree b /\
   (0 <= Boundary.w b -> 0 <= Boundary.h b ->
    covers b (QuadTree.northwestOf b) /\ covers b (QuadTree.northeastOf b) /\
    covers b (QuadTree.southwestOf b) /\ covers b (QuadTree.southeastOf b) /\
    let centre := particleAt (Boundary.x b + Boundary.w b / 2)
                             (Boundary.y b + Boundary.h b / 2) in
    Boundary.contains (QuadTree.northwestOf b) centre = true /\
    Boundary.contains (QuadTree.northeastOf b) centre = true /\
    Boundary.contains (QuadTree.southwestOf b) centre = true /\
    Boundary.contains (QuadTree.southeastOf b) centre = true)) /\
  (let narrow := Boundary.mk 1 0 (5 # 2 ^ 52) 1 in
   let o := particleAt (1 + (5 # 2 ^ 52)) 0 in
   Boundary.contains narrow o = true /\
   Boundary.contains (QuadTree.northwestOf narrow) o = false /\
   Boundary.contains (QuadTree.northeastOf narrow) o = false /\
   Boundary.contains (QuadTree.southwestOf narrow) o = false /\
   Boundary.contains (QuadTree.southeastOf narrow) o = false).
Proof.
  split; [|split].
  - intros Hg o Hb.
    destruct (Boundary.contains (QuadTree.northwestOf b) o) eqn:E1; [reflexivity|].
    destruct (Boundary.contains (QuadTree.northeastOf b) o) eqn:E2; [reflexivity|].
    destruct (Boundary.contains (QuadTree.southwestOf b) o) eqn:E3; [reflexivity|].
    cbn [orb]. apply quadrants_cover; assumption.
  - intro He. split; [exact (exactHalves_gapFree b He)|]. intros Hw Hh.
    destruct (exactHalves_spec b He) as (Ew & Eh & Ex & Ey).
    pose proof (Qhalf_double (Boundary.w b)) as Dw.
    pose proof (Qhalf_double (Boundary.h b)) as Dh.
    assert (0 <= Boundary.w b / 2) by lra.
    assert (0 <= Boundary.h b / 2) by lra.
    unfold covers, particleAt.
    repeat split;
      try apply contains_spec;
      cbn [QuadTree.northwestOf QuadTree.northeastOf QuadTree.southwestOf
           QuadTree.southeastOf Boundary.x Boundary.y Boundary.w Boundary.h
           Particle.x Particle.y]; lra.
  - vm_compute. repeat split; reflexivity.
Qed.

Section CapacityFacts.
Variable hp : Heap.

Lemma withinCapacity_delegate q :
  (QuadTree.capacity <= length (QuadTree.particles q))%nat ->
  withinCapacity q -> withinCapacity (delegate q).
Proof.
  destruct q as [b ps|b ps nw ne sw se]; unfold delegate; simpl; [|tauto].
  unfold QuadTree.capacity. intros. repeat split; lia.
Qed.

Lemma insert_fuel_capacity fuel : forall q p q' r,
  QuadTree.insert_fuel fuel hp q p = Some (q', r) ->
  withinCapacity q -> withinCapacity q'.
Proof.
  induction fuel as [|fuel IH]; intros q p q' r H Hq; simpl in H; [discriminate|].
  destruct (Boundary.containsRef hp (QuadTree.boundary q) p) eqn:Hc; simpl in H.
  2:{ inv H. exact Hq. }
  destruct (length (QuadTree.particles q) <? QuadTree.capacity)%nat eqn:Hl.
  { inv H. apply Nat.ltb_lt in Hl.
    destruct q as [b ps|b ps nw ne sw se]; simpl in *.
    - rewrite length_app. simpl. lia.
    - destruct Hq as [Hq _]. lia. }
  apply Nat.ltb_ge in Hl.
  fold (delegate q) in H.
  pose proof (withinCapacity_delegate q Hl Hq) as Hd'.
  destruct (delegate_quad q) as (nw & ne & sw & se & Hd).
  rewrite Hd in *. clear Hd. simpl in Hd'.
  destruct Hd' as (Hn & C1 & C2 & C3 & C4).
  destruct (QuadTree.insert_fuel fuel hp nw p) as [[nw' [|]]|] eqn:E1; try discriminate.
  { inv H. apply IH in E1; auto. simpl. auto. }
  destruct (QuadTree.insert_fuel fuel hp ne p) as [[ne' [|]]|] eqn:E2; try discriminate.
  { inv H. apply IH in E1, E2; auto. simpl. auto. }
  destruct (QuadTree.insert_fuel fuel hp sw p) as [[sw' [|]]|] eqn:E3; try discriminate.
  { inv H. apply IH in E1, E2, E3; auto. simpl. auto. }
  destruct (QuadTree.insert_fuel fuel hp se p) as [[se' r4]|] eqn:E4; try discriminate.
  inv H. apply IH in E1, E2, E3, E4; auto. simpl. auto.
Qed.

Lemma insert_capacity q p :
  withinCapacity q -> withinCapacity (fst (QuadTree.insert hp q p)).
Proof.
  pose proof (insert_enough_fuel hp _ q p (Nat.le_refl _)) as H.
  destruct (QuadTree.insert hp q p) as [q' r]. simpl.
  exact (insert_fuel_capacity _ _ _ _ _ H).
Qed.

Lemma insertAll_capacity : forall l q,
  withinCapacity q -> withinCapacity (fst (QuadTree.insertAll hp q l)).
Proof.
  induction l as [|p l IH]; intros q Hq; simpl; [exact Hq|].
  pose proof (insert_capacity q p Hq) as H1.
  destruct (QuadTree.insert hp q p) as [q1 ok]. simpl in H1.
  specialize (IH q1 H1).
  destruct (QuadTree.insertAll hp q1 l) as [q2 oks]. exact IH.
Qed.

Lemma capacity_depth : forall q,
  withinCapacity q ->
  (QuadTree.capacity * QuadTree.depth q <= length (QuadTree.elements q))%nat.
Proof.
  unfold QuadTree.capacity.
  induction q as [b ps|b ps nw IHnw ne IHne sw IHsw se IHse]; intro Hq; simpl in *.
  - lia.
  - destruct Hq as (Hn & C1 & C2 & C3 & C4).
    specialize (IHnw C1). specialize (IHne C2). specialize (IHsw C3). specialize (IHse C4).
    rewrite !length_app. unfold QuadTree.capacity in Hn. lia.
Qed.

Lemma insertAll_accepted_length : forall l q,
  (length (snd (QuadTree.insertAll hp q l)) <= length l)%nat.
Proof.
  induction l as [|p l IH]; intro q; simpl; [lia|].
  destruct (QuadTree.insert hp q p) as [q1 ok].
  specialize (IH q1). destruct (QuadTree.insertAll hp q1 l) as [q2 oks].
  simpl in *. destruct ok; simpl; lia.
Qed.

(** X3.  [insert] keeps every node within its capacity: no node of a tree
    built by insertions into a fresh tree holds more than four particles, a
    divided node holds exactly four, and the depth of the tree is at most a
    quarter of the number of particles inserted. *)
Theorem insert_keeps_nodes_within_capacity :
  (forall q p, withinCapacity q -> withinCapacity (fst (QuadTree.insert hp q p))) /\
  (forall b l,
     let q := fst (QuadTree.insertAll hp (QuadTree.new b) l) in
     withinCapacity q /\
     (length (QuadTree.particles q) <= 4)%nat /\
     (QuadTree.divided q = true -> length (QuadTree.particles q) = 4%nat) /\
     (4 * QuadTree.depth q <= length l)%nat).
Proof.
  split; [exact insert_capacity|].
  intros b l q.
  assert (Hq : withinCapacity q).
  { apply insertAll_capacity. simpl. unfold QuadTree.capacity. lia. }
  split; [exact Hq|]. split; [|split].
  - destruct q; simpl in *; unfold QuadTree.capacity in *; lia.
  - destruct q; simpl in *; [discriminate|]. intros _. apply Hq.
  - pose proof (capacity_depth q Hq) as Hd.
    pose proof (insertAll_sound hp l (QuadTree.new b)) as (_ & P & _).
    fold q in P. apply Permutation_length in P.
    rewrite length_app in P. simpl in P.
    pose proof (insertAll_accepted_length l (QuadTree.new b)).
    unfold QuadTree.capacity in Hd. lia.
Qed.

Lemma query_found range : forall q found,
  QuadTree.query hp q range found = found ++ QuadTree.query hp q range [].
Proof.
  induction q as [b ps|b ps nw IHnw ne IHne sw IHsw se IHse]; intro found.
  - simpl. destruct (Boundary.intersects b range); simpl; [reflexivity|].
    symmetry. apply app_nil_r.
  - cbn [QuadTree.query QuadTree.boundary QuadTree.particles].
    destruct (Boundary.intersects b range); cbn [negb].
    + rewrite IHse, IHsw, IHne, IHnw.
      rewrite (IHse (QuadTree.query hp sw range _)).
      rewrite (IHsw (QuadTree.query hp ne range _)).
      rewrite (IHne (QuadTree.query hp nw range _)).
      rewrite (IHnw ([] ++ _)).
      cbn [app]. rewrite <- !app_assoc. reflexivity.
    + symmetry. apply app_nil_r.
Qed.

Lemma query_held range : forall q r,
  In r (QuadTree.query hp q range []) -> In r (QuadTree.elements q).
Proof.
  induction q as [b ps|b ps nw IHnw ne IHne sw IHsw se IHse]; intros r.
  - simpl. destruct (Boundary.intersects b range); simpl; [|tauto].
    intro H. apply filter_In in H. tauto.
  - cbn [QuadTree.query QuadTree.boundary QuadTree.particles QuadTree.elements].
    destruct (Boundary.intersects b range); cbn [negb]; [|intros []].
    rewrite (query_found range se), (query_found range sw),
            (query_found range ne), (query_found range nw).
    cbn [app]. rewrite !in_app_iff. intros [[[[H|H]|H]|H]|H]; auto 10.
    apply filter_In in H. tauto.
Qed.


Lemma perm_filter {A} (f : A -> bool) l l' :
  Permutation l l' -> Permutation (filter f l) (filter f l').
Proof.
  induction 1; simpl.
  - reflexivity.
  - destruct (f x); auto.
  - destruct (f x), (f y); auto using perm_swap.
  - etransitivity; eauto.
Qed.


End CapacityFacts.

Lemma insertSampleTree_inside : QuadTree.inside insertSampleHeap insertSampleTree.
Proof.
  pose proof (insertAll_sound insertSampleHeap [0; 1; 2; 3; 4]%nat
                (QuadTree.new (Boundary.mk 0 0 100 100))) as (_ & _ & I & _).
  exact (I (inside_new insertSampleHeap _)).
Qed.


(** ** Particles stay where the boundary policy keeps them *)

Lemma handleOutMode_out (cfg : Config) (canvas : Canvas) (p : Particle.t) :
  move_out_mode cfg = mode_out ->
  let r := Particle.radius p in
  let p' := handleOutMode cfg canvas p in
  (Particle.x p + r < 0 ->
   Particle.x p' == Particle.x p + (width canvas + 2 * r)) /\
  (0 <= Particle.x p + r -> width canvas < Particle.x p - r ->
   Particle.x p' == Particle.x p - (width canvas + 2 * r)) /\
  (0 <= Particle.x p + r -> Particle.x p - r <= width canvas ->
   Particle.x p' = Particle.x p) /\
  (Particle.y p + r < 0 ->
   Particle.y p' == Particle.y p + (height canvas + 2 * r)) /\
  (0 <= Particle.y p + r -> height canvas < Particle.y p - r ->
   Particle.y p' == Particle.y p - (height canvas + 2 * r)) /\
  (0 <= Particle.y p + r -> Particle.y p - r <= height canvas ->
   Particle.y p' = Particle.y p).
Proof.
  intros Hmode r p'.
  set (q := wrapX r (width canvas + r * 2) (width canvas) p).
  assert (Hp' : p' = wrapY r (height canvas + r * 2) (height canvas) q).
  { unfold p', handleOutMode. rewrite Hmode. reflexivity. }
  pose proof (wrapX_spec r (width canvas) p) as (XL & XR & XN & XY & _).
  pose proof (wrapY_spec r (height canvas) q) as (YT & YB & YN & YX & _).
  cbv zeta in XL, XR, XN, XY, YT, YB, YN, YX.
  fold q in XL, XR, XN, XY. rewrite <- Hp' in YT, YB, YN, YX.
  rewrite XY in YT, YB, YN.
  split; [intros H1; rewrite YX; auto|].
  split; [intros H1 H2; rewrite YX; auto|].
  split; [intros H1 H2; rewrite YX, (XN H1 H2); reflexivity|].
  split; [exact YT|]. split; [exact YB|].
  intros H1 H2. rewrite (YN H1 H2). exact XY.
Qed.

(** X6.  A particle that bounces stays on the canvas.  In bounce mode, for a
    frame that does not run backwards, a particle whose disc lies within the
    canvas along an axis, and which travels along that axis no further than
    the room the canvas leaves to the disc, has its centre after [update]
    still at least a radius away from both walls of that axis.  Along x this
    holds when sway, which moves the particle after the walls are checked, is
    disabled. *)
Theorem bounce_keeps_particle_on_canvas (M : MathLib) (cfg : Config)
  (canvas : Canvas) (delta : Q) (p : Particle.t) :
  move_out_mode cfg = mode_bounce -> 0 <= delta ->
  let r := Particle.radius p in
  let p' := update M cfg canvas delta p in
  (sway_enable cfg = false ->
   r <= Particle.x p <= width canvas - r ->
   - (width canvas - 2 * r) <= Particle.vx p * delta <= width canvas - 2 * r ->
   r <= Particle.x p' <= width canvas - r) /\
  (r <= Particle.y p <= height canvas - r ->
   - (height canvas - 2 * r) <= Particle.vy p * delta <= height canvas - 2 * r ->
   r <= Particle.y p' <= height canvas - r).
Proof.
  intros Hmode Hd r p'.
  pose proof (update_after_outMode M cfg canvas delta p) as (_ & _ & UY & UX).
  cbv zeta in UY, UX. fold p' in UY, UX.
  pose proof (integrate_fields delta p) as (IX & IY & IVX & IVY & IR).
  pose proof (handleOutMode_bounce cfg canvas (integrate delta p) Hmode)
    as (XL & XR & YT & YB & XN & YN).
  cbv zeta in XL, XR, YT, YB, XN, YN.
  rewrite IX, IVX, IR in XL, XR, XN. rewrite IY, IVY, IR in YT, YB, YN.
  fold r in XL, XR, XN, YT, YB, YN.
  split.
  - intros Hs Hx Hv. rewrite (UX Hs). clear UX UY YT YB YN.
    set (d := Particle.vx p * delta) in *.
    destruct (Qlt_le_dec (Particle.vx p) 0) as [Hneg|Hpos].
    + assert (Hdn : d <= 0) by (unfold d; nra).
      destruct (Qlt_le_dec 0 (Particle.x p + d - r)) as [Hin|Hout].
      * destruct XN as [_ XN]; [intros [? ?]; lra|intros [? ?]; lra|]. rewrite XN. lra.
      * destruct (XL Hout Hneg) as [_ XL']. rewrite XL'. lra.
    + assert (Hdp : 0 <= d) by (unfold d; nra).
      destruct (Qlt_le_dec 0 (Particle.vx p)) as [Hpos'|Hzero].
      * destruct (Qlt_le_dec (Particle.x p + d + r) (width canvas)) as [Hin|Hout].
        -- destruct XN as [_ XN]; [intros [? ?]; lra|intros [? ?]; lra|]. rewrite XN. lra.
        -- destruct (XR Hout Hpos') as [_ XR']. rewrite XR'. lra.
      * assert (Hz : d == 0) by (unfold d; nra).
        destruct XN as [_ XN]; [intros [? ?]; lra|intros [? ?]; lra|]. rewrite XN. lra.
  - intros Hy Hv. rewrite UY. clear UX UY XL XR XN.
    set (d := Particle.vy p * delta) in *.
    destruct (Qlt_le_dec (Particle.vy p) 0) as [Hneg|Hpos].
    + assert (Hdn : d <= 0) by (unfold d; nra).
      destruct (Qlt_le_dec 0 (Particle.y p + d - r)) as [Hin|Hout].
      * destruct YN as [_ YN]; [intros [? ?]; lra|intros [? ?]; lra|]. rewrite YN. lra.
      * destruct (YT Hout Hneg) as [_ YT']. rewrite YT'. lra.
    + assert (Hdp : 0 <= d) by (unfold d; nra).
      destruct (Qlt_le_dec 0 (Particle.vy p)) as [Hpos'|Hzero].
      * destruct (Qlt_le_dec (Particle.y p + d + r) (height canvas)) as [Hin|Hout].
        -- destruct YN as [_ YN]; [intros [? ?]; lra|intros [? ?]; lra|]. rewrite YN. lra.
        -- destruct (YB Hout Hpos') as [_ YB']. rewrite YB'. lra.
      * assert (Hz : d == 0) by (unfold d; nra).
        destruct YN as [_ YN]; [intros [? ?]; lra|intros [? ?]; lra|]. rewrite YN. lra.
Qed.

Lemma bounce_keeps_particle_on_canvas_witness :
  let p := movingParticle 4 50 (-(2)) 1 3 in
  let p' := update rationalMath
              (with_sway_enable false (with_move_out_mode mode_bounce DEFAULTS_default))
              (mkCanvas 100 100) 1 p in
  3 <= Particle.x p' <= 100 - 3 /\ 3 <= Particle.y p' <= 100 - 3.
Proof.
  intros p p'.
  pose proof (bounce_keeps_particle_on_canvas rationalMath
                (with_sway_enable false (with_move_out_mode mode_bounce DEFAULTS_default))
                (mkCanvas 100 100) 1 p eq_refl ltac:(lra)) as [Hx Hy].
  split.
  - apply Hx; [reflexivity| |]; vm_compute; split; discriminate.
  - apply Hy; vm_compute; split; discriminate.
Defined.

(** X7.  A particle that wraps stays in the band it wraps within.  In out
    mode a particle whose centre is no further than a radius outside the
    canvas along an axis, and which travels along that axis by no more than
    the wrap distance (the canvas dimension plus the diameter), has its
    centre after [update] again no further than a radius outside the canvas.
    Along x this holds when sway is disabled. *)
Theorem wrap_keeps_particle_in_band (M : MathLib) (cfg : Config)
  (canvas : Canvas) (delta : Q) (p : Particle.t) :
  move_out_mode cfg = mode_out ->
  let r := Particle.radius p in
  let p' := update M cfg canvas delta p in
  (sway_enable cfg = false ->
   - r <= Particle.x p <= width canvas + r ->
   - (width canvas + 2 * r) <= Particle.vx p * delta <= width canvas + 2 * r ->
   - r <= Particle.x p' <= width canvas + r) /\
  (- r <= Particle.y p <= height canvas + r ->
   - (height canvas + 2 * r) <= Particle.vy p * delta <= height canvas + 2 * r ->
   - r <= Particle.y p' <= height canvas + r).
Proof.
  intros Hmode r p'.
  pose proof (update_after_outMode M cfg canvas delta p) as (_ & _ & UY & UX).
  cbv zeta in UY, UX. fold p' in UY, UX.
  pose proof (integrate_fields delta p) as (IX & IY & _ & _ & IR).
  pose proof (handleOutMode_out cfg canvas (integrate delta p) Hmode)
    as (XL & XR & XN & YT & YB & YN).
  cbv zeta in XL, XR, XN, YT, YB, YN.
  rewrite IX, IR in XL, XR, XN. rewrite IY, IR in YT, YB, YN.
  fold r in XL, XR, XN, YT, YB, YN.
  split.
  - intros Hs Hx Hv. rewrite (UX Hs). clear UX UY YT YB YN.
    set (d := Particle.vx p * delta) in *.
    destruct (Qlt_le_dec (Particle.x p + d + r) 0) as [Hl|Hl].
    + rewrite (XL Hl). lra.
    + destruct (Qlt_le_dec (width canvas) (Particle.x p + d - r)) as [Hr|Hr].
      * rewrite (XR Hl Hr). lra.
      * rewrite (XN Hl Hr). lra.
  - intros Hy Hv. rewrite UY. clear UX UY XL XR XN.
    set (d := Particle.vy p * delta) in *.
    destruct (Qlt_le_dec (Particle.y p + d + r) 0) as [Hl|Hl].
    + rewrite (YT Hl). lra.
    + destruct (Qlt_le_dec (height canvas) (Particle.y p + d - r)) as [Hr|Hr].
      * rewrite (YB Hl Hr). lra.
      * rewrite (YN Hl Hr). lra.
Qed.

Lemma wrap_keeps_particle_in_band_witness :
  let p := movingParticle 102 (-(2)) 4 (-(3)) 3 in
  let p' := update rationalMath (with_sway_enable false DEFAULTS_default)
              (mkCanvas 100 100) 1 p in
  - (3) <= Particle.x p' <= 100 + 3 /\ - (3) <= Particle.y p' <= 100 + 3.
Proof.
  intros p p'.
  pose proof (wrap_keeps_particle_in_band rationalMath
                (with_sway_enable false DEFAULTS_default)
                (mkCanvas 100 100) 1 p eq_refl) as [Hx Hy].
  split.
  - apply Hx; [reflexivity| |]; vm_compute; split; discriminate.
  - apply Hy; vm_compute; split; discriminate.
Defined.

(** ** Attraction conserves the total velocity *)

Lemma Qsum_perm l l' : Permutation l l' -> Qsum l == Qsum l'.
Proof.
  induction 1; simpl.
  - reflexivity.
  - rewrite IHPermutation. reflexivity.
  - ring.
  - etransitivity; eauto.
Qed.

Lemma Qsum_map_ext {A} (f g : A -> Q) l :
  (forall a, In a l -> f a == g a) -> Qsum (map f l) == Qsum (map g l).
Proof.
  induction l as [|a l IH]; intro H; simpl; [reflexivity|].
  rewrite (H a (or_introl eq_refl)), IH; [reflexivity|].
  intros b Hb. apply H. right. exact Hb.
Qed.

Lemma Qsum_map_plus {A} (f g : A -> Q) l :
  Qsum (map (fun a => f a + g a) l) == Qsum (map f l) + Qsum (map g l).
Proof.
  induction l as [|a l IH]; simpl; [ring|]. rewrite IH. ring.
Qed.

Lemma Qsum_map_opp {A} (f : A -> Q) l :
  Qsum (map (fun a => - f a) l) == - Qsum (map f l).
Proof.
  induction l as [|a l IH]; simpl; [ring|]. rewrite IH. ring.
Qed.

Lemma Qsum_map_filter {A} (c : A -> bool) (f : A -> Q) l :
  Qsum (map f (filter c l)) == Qsum (map (fun a => if c a then f a else 0) l).
Proof.
  induction l as [|a l IH]; simpl; [reflexivity|].
  destruct (c a); simpl; rewrite IH; ring.
Qed.

(** A sum over all ordered pairs of a list vanishes when the summand changes
    sign as the pair is swapped. *)
Lemma Qsum_antisymmetric {A} (g : A -> A -> Q) l :
  (forall i j, In i l -> In j l -> g i j == - g j i) ->
  Qsum (map (fun i => Qsum (map (g i) l)) l) == 0.
Proof.
  induction l as [|a l IH]; intro H; [reflexivity|].
  cbn [map Qsum fold_right].
  change (fold_right Qplus 0 (map (g a) l)) with (Qsum (map (g a) l)).
  change (fold_right Qplus 0
            (map (fun i => g i a + fold_right Qplus 0 (map (g i) l)) l))
    with (Qsum (map (fun i => g i a + Qsum (map (g i) l)) l)).
  rewrite Qsum_map_plus.
  rewrite IH by (intros i j Hi Hj; apply H; right; assumption).
  assert (Haa : g a a == 0).
  { pose proof (H a a (or_introl eq_refl) (or_introl eq_refl)). lra. }
  assert (Hs : Qsum (map (fun i => g i a) l) == - Qsum (map (g a) l)).
  { rewrite <- Qsum_map_opp. apply Qsum_map_ext.
    intros i Hi. apply H; [right; exact Hi|left; reflexivity]. }
  rewrite Haa, Hs. ring.
Qed.

Lemma map_deref {B} (F : option Particle.t -> B) : forall h pre,
  map (fun i => F (deref (pre ++ h) i)) (seq (length pre) (length h)) =
  map (fun o => F (Some o)) h.
Proof.
  induction h as [|a h IH]; intro pre; [reflexivity|].
  cbn [length seq map]. f_equal.
  - unfold deref. rewrite nth_error_app2 by lia. rewrite Nat.sub_diag. reflexivity.
  - specialize (IH (pre ++ [a])). rewrite <- app_assoc in IH. cbn [app] in IH.
    rewrite length_app in IH. cbn [length] in IH.
    rewrite Nat.add_1_r in IH. exact IH.
Qed.

Lemma map_refs {B} (F : option Particle.t -> B) h :
  map (fun i => F (deref h i)) (Engine.refs h) = map (fun o => F (Some o)) h.
Proof. exact (map_deref F h []). Qed.

Lemma refs_deref hp i : In i (Engine.refs hp) -> exists o, deref hp i = Some o.
Proof.
  unfold Engine.refs. rewrite in_seq. intros [_ H].
  destruct (deref hp i) as [o|] eqn:E; [eauto|].
  apply nth_error_None in E. lia.
Qed.

Lemma deref_In hp i o : deref hp i = Some o -> In o hp.
Proof. apply nth_error_In. Qed.

(** The particles of the frame's tree lie within their nodes. *)
Lemma buildTree_inside (e : Engine.t) :
  QuadTree.inside (Engine.particles e) (Engine.buildTree e).
Proof.
  pose proof (insertAll_sound (Engine.particles e) (Engine.refs (Engine.particles e))
                (QuadTree.new (canvasBoundary (Engine.canvas e)))) as (_ & _ & I & _).
  exact (I (inside_new _ _)).
Qed.

(** When the tree of the frame holds every particle it answers a query with
    the particles of the range. *)
Lemma buildTree_query (e : Engine.t) (range : Boundary.t) :
  holdsAll e ->
  Permutation (QuadTree.query (Engine.particles e) (Engine.buildTree e) range [])
              (filter (Boundary.containsRef (Engine.particles e) range)
                      (Engine.refs (Engine.particles e))).
Proof.
  intro Hall.
  rewrite (query_elements _ range _ [] (buildTree_inside e)). cbn [app].
  apply perm_filter. exact Hall.
Qed.

Lemma attractRange_symmetric o1 o2 :
  Boundary.contains (attractRange o1) o2 = Boundary.contains (attractRange o2) o1.
Proof.
  destruct (Boundary.contains (attractRange o2) o1) eqn:E.
  - apply contains_spec in E. apply contains_spec.
    unfold attractRange, rangeRadius in *. cbn [Boundary.x Boundary.y Boundary.w Boundary.h] in *.
    lra.
  - destruct (Boundary.contains (attractRange o1) o2) eqn:E'; [|reflexivity].
    apply contains_spec in E'.
    assert (Boundary.contains (attractRange o2) o1 = true); [|congruence].
    apply contains_spec.
    unfold attractRange, rangeRadius in *. cbn [Boundary.x Boundary.y Boundary.w Boundary.h] in *.
    lra.
Qed.

Section Momentum.
Variable e : Engine.t.
Let hp := Engine.particles e.
Let qtree := Engine.buildTree e.
Hypothesis holds_all : holdsAll e.

(** The pull of [j] on [i] along an axis, [0] when [j] does not attract [i]. *)
Let pull (coord : Particle.t -> Q) (rot : Q) (i j : ref) : Q :=
  match deref hp i, deref hp j with
  | Some oi, Some oj =>
    if Boundary.contains (attractRange oi) oj
    then if negb (Nat.eqb i j) then (coord oi - coord oj) / rot else 0
    else 0
  | _, _ => 0
  end.

Lemma pull_antisymmetric coord rot i j : pull coord rot i j == - pull coord rot j i.
Proof.
  unfold pull. destruct (deref hp i) as [oi|], (deref hp j) as [oj|]; try ring.
  rewrite (attractRange_symmetric oj oi), (Nat.eqb_sym j i).
  destruct (Boundary.contains (attractRange oi) oj); [|ring].
  destruct (negb (Nat.eqb i j)); [|ring].
  unfold Qdiv. ring.
Qed.

Lemma attractors_pull (coord : Particle.t -> Q) rot i o :
  deref hp i = Some o ->
  Qsum (map (fun j => (coord o -
                       match deref hp j with Some oj => coord oj | None => 0 end) / rot)
            (attractors hp qtree i o)) ==
  Qsum (map (pull coord rot i) (Engine.refs hp)).
Proof.
  intro Ho. unfold attractors.
  rewrite Qsum_map_filter.
  etransitivity;
    [apply Qsum_perm, Permutation_map, (buildTree_query e (attractRange o) holds_all)|].
  fold hp. rewrite Qsum_map_filter.
  apply Qsum_map_ext. intros j Hj. destruct (refs_deref hp j Hj) as [oj Hoj].
  unfold pull, Boundary.containsRef. rewrite Ho, Hoj. reflexivity.
Qed.

Lemma attraction_total (cfg : Config) (coord vel : Particle.t -> Q) (rot : Q)
  (hp' : Heap) :
  length hp' = length hp ->
  (forall i o, deref hp i = Some o ->
     exists o', deref hp' i = Some o' /\
       vel o' == vel o -
         Qsum (map (fun j => (coord o -
                     match deref hp j with Some oj => coord oj | None => 0 end) / rot)
                   (attractors hp qtree i o))) ->
  Qsum (map vel hp') == Qsum (map vel hp).
Proof.
  intros Hlen Hall.
  assert (E' : map vel hp' =
               map (fun i => match deref hp' i with Some o => vel o | None => 0 end)
                   (Engine.refs hp')).
  { symmetry.
    exact (map_refs (fun r => match r with Some o => vel o | None => 0 end) hp'). }
  assert (E : map vel hp =
              map (fun i => match deref hp i with Some o => vel o | None => 0 end)
                  (Engine.refs hp)).
  { symmetry.
    exact (map_refs (fun r => match r with Some o => vel o | None => 0 end) hp). }
  rewrite E, E'.
  unfold Engine.refs. rewrite Hlen. fold (Engine.refs hp).
  transitivity
    (Qsum (map (fun i => match deref hp i with Some o => vel o | None => 0 end
                         + - Qsum (map (pull coord rot i) (Engine.refs hp)))
               (Engine.refs hp))).
  - apply Qsum_map_ext. intros i Hi. destruct (refs_deref hp i Hi) as [o Ho].
    destruct (Hall i o Ho) as (o' & Ho' & Hv).
    rewrite Ho, Ho', Hv, (attractors_pull coord rot i o Ho). ring.
  - rewrite Qsum_map_plus, Qsum_map_opp.
    rewrite (Qsum_antisymmetric (pull coord rot) (Engine.refs hp)
               (fun i j _ _ => pull_antisymmetric coord rot i j)).
    ring.
Qed.


End Momentum.

Lemma attractSample_holdsAll : holdsAll attractSample.
Proof. unfold holdsAll. vm_compute. apply Permutation_refl. Qed.


(** ** What the hover interaction does and leaves alone *)

Lemma modify_id f r : forall h, (forall o, f o = o) -> modify f r h = h.
Proof.
  intros h Hf. revert r. induction h as [|a h IH]; intros [|r]; simpl; auto.
  - rewrite Hf. reflexivity.
  - rewrite IH. reflexivity.
Qed.

Lemma modify_ext f g r : forall h, (forall o, f o = g o) -> modify f r h = modify g r h.
Proof.
  intros h Hf. revert r. induction h as [|a h IH]; intros [|r]; simpl; auto.
  - rewrite Hf. reflexivity.
  - rewrite IH. reflexivity.
Qed.

Lemma fold_modify_ext f g : (forall o, f o = g o) ->
  forall l hp, fold_left (fun h p => modify f p h) l hp =
               fold_left (fun h p => modify g p h) l hp.
Proof.
  intros Hf. induction l as [|p l IH]; intro hp; simpl; [reflexivity|].
  rewrite (modify_ext f g p hp Hf). apply IH.
Qed.

Lemma fold_modify_notin f i : forall l hp,
  ~ In i l -> deref (fold_left (fun h p => modify f p h) l hp) i = deref hp i.
Proof.
  induction l as [|p l IH]; intros hp Hn; simpl; [reflexivity|].
  rewrite IH by (intro; apply Hn; right; assumption).
  apply deref_modify_other. intro; apply Hn; left; assumption.
Qed.

Lemma interactOne_frame M cfg mouse o :
  Particle.vx (interactOne M cfg mouse o) = Particle.vx o /\
  Particle.vy (interactOne M cfg mouse o) = Particle.vy o /\
  Particle.initialRadius (interactOne M cfg mouse o) = Particle.initialRadius o /\
  Particle.initialOpacity (interactOne M cfg mouse o) = Particle.initialOpacity o /\
  Particle.rotation (interactOne M cfg mouse o) = Particle.rotation o /\
  (onhover_mode cfg = mode_grab -> interactOne M cfg mouse o = o) /\
  (onhover_mode cfg = mode_bubble ->
   Particle.x (interactOne M cfg mouse o) = Particle.x o /\
   Particle.y (interactOne M cfg mouse o) = Particle.y o).
Proof.
  unfold interactOne.
  destruct (Qltb _ _); [|repeat split; reflexivity].
  destruct (onhover_mode cfg); repeat split; try reflexivity; try discriminate;
    destruct (modes_bubble_opacity cfg) as [bo|]; try reflexivity;
    destruct (truthy bo); reflexivity.
Qed.

Lemma applyInteractions_keeps {B : Type} (g : Particle.t -> B) M qtree mouse cfg l hp :
  (forall o, g (bubbleReset o) = g o) ->
  (forall o, g (interactOne M cfg mouse o) = g o) ->
  map g (applyInteractions M qtree mouse cfg l hp) = map g hp.
Proof.
  intros Hr Hi. unfold applyInteractions.
  set (hp1 := match onhover_mode cfg with
              | mode_bubble => fold_left (fun hp p => modify bubbleReset p hp) l hp
              | _ => hp
              end).
  assert (H1 : map g hp1 = map g hp).
  { unfold hp1. destruct (onhover_mode cfg); try reflexivity.
    apply fold_modify_keeps. exact Hr. }
  destruct (negb (mouse_active mouse) || negb (onhover_enable cfg)); [exact H1|].
  rewrite fold_modify_keeps; [exact H1|exact Hi].
Qed.

(** X9.  What the hover interaction leaves alone.  Whatever the tree, the
    pointer and the list of particles it is given, [applyInteractions] keeps
    the number of particles, their velocities, their cached initial radius
    and opacity and their rotation.  In grab mode, which only draws lines, it
    changes nothing; in bubble mode it moves no particle; in repulse mode it
    changes no radius and no opacity. *)
Theorem hover_leaves_velocities_and_more (M : MathLib) (qtree : QuadTree.t)
  (mouse : Mouse) (cfg : Config) (l : list ref) (hp : Heap) :
  let hp' := applyInteractions M qtree mouse cfg l hp in
  length hp' = length hp /\
  map Particle.vx hp' = map Particle.vx hp /\
  map Particle.vy hp' = map Particle.vy hp /\
  map Particle.initialRadius hp' = map Particle.initialRadius hp /\
  map Particle.initialOpacity hp' = map Particle.initialOpacity hp /\
  map Particle.rotation hp' = map Particle.rotation hp /\
  (onhover_mode cfg = mode_grab -> hp' = hp) /\
  (onhover_mode cfg = mode_bubble ->
   map Particle.x hp' = map Particle.x hp /\ map Particle.y hp' = map Particle.y hp) /\
  (onhover_mode cfg = mode_repulse ->
   map Particle.radius hp' = map Particle.radius hp /\
   map Particle.opacity hp' = map Particle.opacity hp).
Proof.
  intro hp'. unfold hp'.
  assert (Hvx : map Particle.vx (applyInteractions M qtree mouse cfg l hp) =
                map Particle.vx hp).
  { apply applyInteractions_keeps; [reflexivity|]. intro o.
    apply (interactOne_frame M cfg mouse o). }
  split; [|split; [exact Hvx|]].
  { apply (f_equal (@length _)) in Hvx. rewrite !length_map in Hvx. exact Hvx. }
  split; [apply applyInteractions_keeps; [reflexivity|]; intro o;
          apply (interactOne_frame M cfg mouse o)|].
  split; [apply applyInteractions_keeps; [reflexivity|]; intro o;
          apply (interactOne_frame M cfg mouse o)|].
  split; [apply applyInteractions_keeps; [reflexivity|]; intro o;
          apply (interactOne_frame M cfg mouse o)|].
  split; [apply applyInteractions_keeps; [reflexivity|]; intro o;
          apply (interactOne_frame M cfg mouse o)|].
  split; [|split].
  - intro Hg. unfold applyInteractions. rewrite Hg.
    destruct (negb (mouse_active mouse) || negb (onhover_enable cfg)); [reflexivity|].
    generalize (QuadTree.query hp qtree (searchAreaOf cfg mouse) []).
    intro nb. generalize hp. induction nb as [|p nb IH]; intro h; simpl; [reflexivity|].
    rewrite modify_id; [apply IH|].
    intro o. apply (interactOne_frame M cfg mouse o). exact Hg.
  - intro Hb. split; (apply applyInteractions_keeps; [reflexivity|]); intro o;
      apply (interactOne_frame M cfg mouse o); exact Hb.
  - intro Hr.
    assert (Hn : onhover_mode cfg <> mode_bubble) by congruence.
    unfold applyInteractions. rewrite Hr.
    destruct (negb (mouse_active mouse) || negb (onhover_enable cfg));
      [split; reflexivity|].
    split; apply fold_modify_keeps; intro o;
      apply (interactOne_not_bubble M cfg mouse o Hn).
Qed.

Lemma Qdiv_unit (a d : Q) : 0 < d -> 0 <= a <= d -> 0 <= a / d <= 1.
Proof.
  intros Hd [H0 H1]. split.
  - apply Qle_shift_div_l; [exact Hd|]. lra.
  - apply Qle_shift_div_r; [exact Hd|]. lra.
Qed.

(** X10.  The bubble effect interpolates.  In bubble mode a particle no
    closer to the pointer than the bubble distance is left as it is, also
    when it lies in the square that was queried.  A particle within the
    distance, for which the host's square root of the squared distance lies
    between [0] and the bubble distance, gets a radius between its cached
    initial radius and the configured bubble size: the bubble size at the
    pointer, the initial radius at the rim.  Its position and its cached
    initial radius are kept. *)
Theorem bubble_radius_interpolates (M : MathLib) (cfg : Config) (mouse : Mouse)
  (o : Particle.t) :
  onhover_mode cfg = mode_bubble ->
  let dist := Math_sqrt M (distSqTo mouse o) in
  let o' := interactOne M cfg mouse o in
  (modes_bubble_distance cfg * modes_bubble_distance cfg <= distSqTo mouse o ->
   o' = o) /\
  (distSqTo mouse o < modes_bubble_distance cfg * modes_bubble_distance cfg ->
   0 < modes_bubble_distance cfg -> 0 <= dist <= modes_bubble_distance cfg ->
   (Particle.initialRadius o <= modes_bubble_size cfg ->
    Particle.initialRadius o <= Particle.radius o' <= modes_bubble_size cfg) /\
   (modes_bubble_size cfg <= Particle.initialRadius o ->
    modes_bubble_size cfg <= Particle.radius o' <= Particle.initialRadius o) /\
   (dist == 0 -> Particle.radius o' == modes_bubble_size cfg) /\
   (dist == modes_bubble_distance cfg ->
    Particle.radius o' == Particle.initialRadius o)) /\
  Particle.x o' = Particle.x o /\ Particle.y o' = Particle.y o /\
  Particle.initialRadius o' = Particle.initialRadius o.
Proof.
  intros Hmode dist o'.
  pose proof (interactOne_frame M cfg mouse o) as (_ & _ & Hir & _ & _ & _ & Hxy).
  destruct (Hxy Hmode) as [Hx Hy]. fold o' in Hx, Hy, Hir.
  split; [|split; [|auto]].
  - intro Hfar. unfold o', interactOne, queryDistOf. rewrite Hmode.
    fold (distSqTo mouse o).
    destruct (Qltb _ _) eqn:E; [|reflexivity]. q2prop. lra.
  - intros Hnear HD Hdist.
    assert (Hr : Particle.radius o' ==
                 Particle.initialRadius o +
                 (modes_bubble_size cfg - Particle.initialRadius o) *
                 (1 - dist / modes_bubble_distance cfg)).
    { unfold o', interactOne, queryDistOf. rewrite Hmode.
      fold (distSqTo mouse o). fold dist.
      destruct (Qltb _ _) eqn:E; [|q2prop; lra].
      destruct (modes_bubble_opacity cfg) as [bo|]; [destruct (truthy bo)|];
        reflexivity. }
    pose proof (Qdiv_unit dist (modes_bubble_distance cfg) HD Hdist) as Hu.
    set (t := dist / modes_bubble_distance cfg) in *.
    split; [|split; [|split]].
    + intro Hle. rewrite Hr. split; nra.
    + intro Hle. rewrite Hr. split; nra.
    + intro Hz. rewrite Hr.
      assert (Ht : t == 0) by (unfold t; rewrite Hz; unfold Qdiv; ring).
      rewrite Ht. ring.
    + intro Hz. rewrite Hr.
      assert (Ht : t == 1).
      { unfold t. rewrite Hz. field. lra. }
      rewrite Ht. ring.
Qed.

Lemma bubble_radius_interpolates_witness :
  let o' := interactOne rationalMath bubbleHoverConfig (mkMouse 400 300 true)
              (particleAt 430 340) in
  1 <= Particle.radius o' <= 80.
Proof.
  intro o'.
  pose proof (bubble_radius_interpolates rationalMath bubbleHoverConfig
                (mkMouse 400 300 true) (particleAt 430 340) eq_refl) as H.
  destruct H as (_ & H & _).
  apply H; vm_compute; try reflexivity; try discriminate; split; discriminate.
Defined.

(** X11.  The repulsion is bounded.  In repulse mode a particle no closer to
    the pointer than the repulse distance is left as it is.  A particle
    within the distance changes only its position; when the host's square
    root of the squared distance lies between [0] and the repulse distance,
    and the host's cosine and sine of the angle lie between [-1] and [1], it
    moves by at most ten pixels along each axis in a frame, whatever the
    time the frame took, and towards the side the cosine or sine points
    to. *)
Theorem repulse_moves_at_most_ten_pixels (M : MathLib) (cfg : Config)
  (mouse : Mouse) (o : Particle.t) :
  onhover_mode cfg = mode_repulse ->
  let dist := Math_sqrt M (distSqTo mouse o) in
  let angle := Math_atan2 M (Particle.y o - mouse_y mouse)
                            (Particle.x o - mouse_x mouse) in
  let o' := interactOne M cfg mouse o in
  (modes_repulse_distance cfg * modes_repulse_distance cfg <= distSqTo mouse o ->
   o' = o) /\
  (distSqTo mouse o < modes_repulse_distance cfg * modes_repulse_distance cfg ->
   0 < modes_repulse_distance cfg -> 0 <= dist <= modes_repulse_distance cfg ->
   (-(1) <= Math_cos M angle <= 1 ->
    -(10) <= Particle.x o' - Particle.x o <= 10) /\
   (-(1) <= Math_sin M angle <= 1 ->
    -(10) <= Particle.y o' - Particle.y o <= 10) /\
   (0 <= Math_cos M angle -> Particle.x o <= Particle.x o') /\
   (Math_cos M angle <= 0 -> Particle.x o' <= Particle.x o) /\
   (0 <= Math_sin M angle -> Particle.y o <= Particle.y o') /\
   (Math_sin M angle <= 0 -> Particle.y o' <= Particle.y o)) /\
  Particle.set_y (Particle.y o) (Particle.set_x (Particle.x o) o') = o.
Proof.
  intros Hmode dist angle o'.
  split; [|split].
  - intro Hfar. unfold o', interactOne, queryDistOf. rewrite Hmode.
    fold (distSqTo mouse o).
    destruct (Qltb _ _) eqn:E; [|reflexivity]. q2prop. lra.
  - intros Hnear HD Hdist.
    set (force := (modes_repulse_distance cfg - dist) / modes_repulse_distance cfg).
    assert (Hx : Particle.x o' == Particle.x o + Math_cos M angle * force * 10).
    { unfold o', interactOne, queryDistOf. rewrite Hmode.
      fold (distSqTo mouse o). destruct (Qltb _ _) eqn:E; [|q2prop; lra].
      reflexivity. }
    assert (Hy : Particle.y o' == Particle.y o + Math_sin M angle * force * 10).
    { unfold o', interactOne, queryDistOf. rewrite Hmode.
      fold (distSqTo mouse o). destruct (Qltb _ _) eqn:E; [|q2prop; lra].
      reflexivity. }
    assert (Hf : 0 <= force <= 1).
    { apply Qdiv_unit; [exact HD|]. lra. }
    generalize dependent force. intros force Hx Hy Hf.
    repeat split; intros; rewrite ?Hx, ?Hy; nra.
  - unfold o', interactOne. destruct (Qltb _ _); [|destruct o; reflexivity].
    rewrite Hmode. destruct o; reflexivity.
Qed.

Lemma repulse_moves_at_most_ten_pixels_witness :
  let o' := interactOne rationalMath DEFAULTS_default (mkMouse 400 300 true)
              (particleAt 430 340) in
  -(10) <= Particle.x o' - 430 <= 10 /\ 430 <= Particle.x o'.
Proof.
  intro o'.
  pose proof (repulse_moves_at_most_ten_pixels rationalMath DEFAULTS_default
                (mkMouse 400 300 true) (particleAt 430 340) eq_refl) as H.
  destruct H as (_ & H & _).
  destruct H as (H1 & _ & H3 & _);
    try (vm_compute; try reflexivity; try discriminate; split; discriminate).
  split; [apply H1|apply H3]; vm_compute; try discriminate; split; discriminate.
Defined.

(** X12.  A bubble opacity of [0] is no bubble opacity: the source tests the
    value for truthiness, so with [modes.bubble.opacity] set to [0] the
    interaction does what it does with the value left unset, and hovering
    cannot fade particles out completely. *)
Theorem bubble_opacity_zero_is_unset (M : MathLib) (qtree : QuadTree.t)
  (mouse : Mouse) (cfg : Config) (l : list ref) (hp : Heap) :
  applyInteractions M qtree mouse (with_modes_bubble_opacity (Some 0) cfg) l hp =
  applyInteractions M qtree mouse (with_modes_bubble_opacity None cfg) l hp.
Proof.
  unfold applyInteractions.
  change (onhover_mode (with_modes_bubble_opacity (Some 0) cfg)) with (onhover_mode cfg).
  change (onhover_mode (with_modes_bubble_opacity None cfg)) with (onhover_mode cfg).
  change (onhover_enable (with_modes_bubble_opacity (Some 0) cfg))
    with (onhover_enable cfg).
  change (onhover_enable (with_modes_bubble_opacity None cfg)) with (onhover_enable cfg).
  destruct (negb (mouse_active mouse) || negb (onhover_enable cfg)); [reflexivity|].
  change (searchAreaOf (with_modes_bubble_opacity (Some 0) cfg) mouse)
    with (searchAreaOf (with_modes_bubble_opacity None cfg) mouse).
  apply fold_modify_ext. intro o. unfold interactOne.
  change (queryDistOf (with_modes_bubble_opacity (Some 0) cfg))
    with (queryDistOf (with_modes_bubble_opacity None cfg)).
  destruct (Qltb _ _); [|reflexivity].
  change (onhover_mode (with_modes_bubble_opacity (Some 0) cfg)) with (onhover_mode cfg).
  change (onhover_mode (with_modes_bubble_opacity None cfg)) with (onhover_mode cfg).
  destruct (onhover_mode cfg); reflexivity.
Qed.

Section OffCanvas.
Variables (M : MathLib) (e : Engine.t).

Lemma buildTree_elements i :
  In i (QuadTree.elements (Engine.buildTree e)) ->
  Boundary.containsRef (Engine.particles e) (canvasBoundary (Engine.canvas e)) i = true.
Proof.
  intro Hi.
  pose proof (insertAll_sound (Engine.particles e) (Engine.refs (Engine.particles e))
                (QuadTree.new (canvasBoundary (Engine.canvas e))))
    as (_ & P & _ & _ & C).
  change (fst (QuadTree.insertAll (Engine.particles e)
                 (QuadTree.new (canvasBoundary (Engine.canvas e)))
                 (Engine.refs (Engine.particles e))))
    with (Engine.buildTree e) in P.
  cbn [QuadTree.elements QuadTree.new] in P. rewrite app_nil_r in P.
  rewrite Forall_forall in C. apply C.
  eapply Permutation_in; [exact P|exact Hi].
Qed.

(** X13.  A particle off the canvas is out of reach.  [insert] rejects it,
    so the tree of the frame does not hold it: no query returns it whatever
    the range, it attracts no particle, and the neighbour loop of
    [applyInteractions] never visits it.  After the interaction it is as it
    was, but for the reset of bubble mode, even with the pointer right next
    to it. *)
Theorem particle_off_canvas_is_out_of_reach (i : ref) (o : Particle.t) :
  deref (Engine.particles e) i = Some o ->
  Boundary.contains (canvasBoundary (Engine.canvas e)) o = false ->
  (forall h range, ~ In i (QuadTree.query h (Engine.buildTree e) range [])) /\
  (forall j oj, ~ In i (attractors (Engine.particles e) (Engine.buildTree e) j oj)) /\
  (forall h oh, deref h i = Some oh ->
     deref (applyInteractions M (Engine.buildTree e) (Engine.mouse e)
              (Engine.config e) (Engine.refs h) h) i =
     Some (match onhover_mode (Engine.config e) with
           | mode_bubble => bubbleReset oh
           | _ => oh
           end)).
Proof.
  intros Ho Hout.
  assert (Hq : forall h range, ~ In i (QuadTree.query h (Engine.buildTree e) range [])).
  { intros h range Hi. apply query_held in Hi. apply buildTree_elements in Hi.
    unfold Boundary.containsRef in Hi. rewrite Ho in Hi. congruence. }
  split; [exact Hq|]. split.
  - intros j oj Hi. unfold attractors in Hi. apply filter_In in Hi.
    destruct Hi as [Hi _]. exact (Hq _ _ Hi).
  - intros h oh Hoh.
    assert (Hn : forall h0 oh0, deref h0 i = Some oh0 ->
              deref (interactNeighbours M (Engine.buildTree e) (Engine.mouse e)
                       (Engine.config e) h0) i = Some oh0).
    { intros h0 oh0 H0. unfold interactNeighbours.
      destruct (negb (mouse_active (Engine.mouse e)) ||
                negb (onhover_enable (Engine.config e))); [exact H0|].
      rewrite fold_modify_notin; [exact H0|apply Hq]. }
    destruct (onhover_mode (Engine.config e)) eqn:Hm.
    + rewrite applyInteractions_not_bubble by congruence. apply Hn, Hoh.
    + rewrite applyInteractions_bubble by assumption. apply Hn.
      unfold deref in *. rewrite nth_error_map, Hoh. reflexivity.
    + rewrite applyInteractions_not_bubble by congruence. apply Hn, Hoh.
Qed.

End OffCanvas.

Lemma particle_off_canvas_is_out_of_reach_witness :
  deref (applyInteractions rationalMath (Engine.buildTree offCanvasSample)
           (Engine.mouse offCanvasSample) (Engine.config offCanvasSample)
           (Engine.refs (Engine.particles offCanvasSample))
           (Engine.particles offCanvasSample)) 1%nat =
  Some (particleAt (-(5)) 10).
Proof.
  apply (particle_off_canvas_is_out_of_reach rationalMath offCanvasSample 1%nat
           (particleAt (-(5)) 10) eq_refl eq_refl).
  reflexivity.
Defined.

(** ** The animations of a particle *)

Ltac ifcases' :=
  repeat match goal with
         | |- context [if ?c then _ else _] =>
           lazymatch c with
           | context [if _ then _ else _] => fail
           | _ => destruct c eqn:?
           end;
           cbn [Particle.radius Particle.opacity Particle.rotation
                Particle.rotationRadians Particle.sizeDirection
                Particle.opacityDirection Particle.initialRadius
                Particle.initialOpacity
                Particle.set_radius Particle.set_opacity Particle.set_rotation
                Particle.set_rotationRadians Particle.set_sizeDirection
                Particle.set_opacityDirection Particle.set_initialRadius
                Particle.set_initialOpacity]
         end.







Lemma truthy_nonzero v : ~ v == 0 -> truthy v = true.
Proof.
  intro H. unfold truthy. destruct (Qeq_bool v 0) eqn:E; [|reflexivity].
  apply Qeq_bool_iff in E. contradiction.
Qed.

Lemma truthy_zero v : v == 0 -> truthy v = false.
Proof.
  intro H. unfold truthy. apply Qeq_bool_iff in H. rewrite H. reflexivity.
Qed.

Lemma getDepth_span cfg p :
  minSizeOf cfg < size_value cfg ->
  getDepth cfg p == (Particle.radius p - minSizeOf cfg) / (size_value cfg - minSizeOf cfg).
Proof.
  intro H. unfold getDepth. fold (minSizeOf cfg).
  rewrite truthy_nonzero by lra. reflexivity.
Qed.

Lemma spriteIdx_le cfg p1 p2 :
  getDepth cfg p1 <= getDepth cfg p2 -> (spriteIdx cfg p1 <= spriteIdx cfg p2)%nat.
Proof.
  intro H. unfold spriteIdx, Qgtb.
  destruct (Qltb 0.66 (getDepth cfg p1)) eqn:E1, (Qltb 0.66 (getDepth cfg p2)) eqn:E2,
           (Qltb 0.33 (getDepth cfg p1)) eqn:E3, (Qltb 0.33 (getDepth cfg p2)) eqn:E4;
    q2prop; try lia; lra.
Qed.

(** X17.  The depth of a particle and its sprite.  When the configured size
    exceeds the smallest radius ([size_min] under size animation, [0]
    otherwise), [getDepth] is the position of the radius between the two:
    [0] at the smallest radius, [1] at the configured size, between [0] and
    [1] for a radius in between, and growing with the radius; so does the
    index of the sprite [draw] picks, which is [0] for the smallest and [2]
    for the largest particles. *)
Theorem depth_grows_with_radius (cfg : Config) (p : Particle.t) :
  minSizeOf cfg < size_value cfg ->
  (minSizeOf cfg <= Particle.radius p <= size_value cfg ->
   0 <= getDepth cfg p <= 1) /\
  (Particle.radius p == minSizeOf cfg ->
   getDepth cfg p == 0 /\ spriteIdx cfg p = 0%nat) /\
  (Particle.radius p == size_value cfg ->
   getDepth cfg p == 1 /\ spriteIdx cfg p = 2%nat) /\
  (forall p2, Particle.radius p <= Particle.radius p2 ->
     getDepth cfg p <= getDepth cfg p2 /\
     (spriteIdx cfg p <= spriteIdx cfg p2)%nat).
Proof.
  intro Hspan.
  pose proof (getDepth_span cfg p Hspan) as Hd.
  set (s := size_value cfg - minSizeOf cfg) in *.
  assert (Hs : 0 < s) by (unfold s; lra).
  split; [|split; [|split]].
  - intro Hr. rewrite Hd. apply Qdiv_unit; [exact Hs|]. unfold s. lra.
  - intro Hr.
    assert (H0 : getDepth cfg p == 0).
    { rewrite Hd, Hr. unfold Qdiv. ring. }
    split; [exact H0|]. unfold spriteIdx, Qgtb.
    destruct (Qltb 0.66 (getDepth cfg p)) eqn:E1; [q2prop; lra|].
    destruct (Qltb 0.33 (getDepth cfg p)) eqn:E2; [q2prop; lra|]. reflexivity.
  - intro Hr.
    assert (H1 : getDepth cfg p == 1).
    { rewrite Hd, Hr. fold s. field. lra. }
    split; [exact H1|]. unfold spriteIdx, Qgtb.
    destruct (Qltb 0.66 (getDepth cfg p)) eqn:E1; [reflexivity|q2prop; lra].
  - intros p2 Hle.
    assert (Hm : getDepth cfg p <= getDepth cfg p2).
    { rewrite Hd, (getDepth_span cfg p2 Hspan). fold s.
      unfold Qdiv. apply Qmult_le_compat_r; [lra|].
      apply Qlt_le_weak, Qinv_lt_0_compat, Hs. }
    split; [exact Hm|]. apply spriteIdx_le, Hm.
Qed.

Lemma depth_grows_with_radius_witness :
  getDepth DEFAULTS_default (movingParticle 0 0 0 0 3) == 1 /\
  spriteIdx DEFAULTS_default (movingParticle 0 0 0 0 3) = 2%nat.
Proof.
  apply (depth_grows_with_radius DEFAULTS_default (movingParticle 0 0 0 0 3));
    reflexivity.
Defined.

(** X18.  [draw] paints with an alpha between [0] and [1] whatever the
    opacity of the particle, which the bubble effect can take out of that
    range: the opacity itself when it lies in the range, the closer end of
    the range otherwise. *)
Theorem draw_alpha_is_clamped (p : Particle.t) :
  0 <= globalAlpha p <= 1 /\
  (0 <= Particle.opacity p <= 1 -> globalAlpha p = Particle.opacity p) /\
  (Particle.opacity p < 0 -> globalAlpha p = 0) /\
  (1 < Particle.opacity p -> globalAlpha p = 1).
Proof.
  unfold globalAlpha, Qgtb.
  destruct (Qltb (Particle.opacity p) 0) eqn:E1;
    destruct (Qltb 1 (Particle.opacity p)) eqn:E2;
    q2prop; repeat split; intros; try lra; reflexivity.
Qed.

(** ** The constructor, the population and the clicks *)

Ltac stage2 a g E :=
  match goal with
  | |- context [match ?e with pair _ _ => _ end] =>
    lazymatch type of e with
    | (Q * Rng)%type => destruct e as [a g] eqn:E
    end
  end.

Ltac stage3 a b g E :=
  match goal with
  | |- context [match ?e with pair _ _ => _ end] =>
    lazymatch type of e with
    | (Q * Q * Rng)%type => destruct e as [[a b] g] eqn:E
    end
  end.

(** The cases of a stage of the constructor, read off its equation. *)
Ltac stagecases E :=
  unfold random in E;
  repeat match type of E with
         | context [if ?c then _ else _] =>
           lazymatch c with
           | context [if _ then _ else _] => fail
           | _ => destruct c eqn:?
           end
         | context [match ?o with Some _ => _ | None => _ end] => destruct o eqn:?
         end;
  inversion E; subst; clear E.

Lemma initVelocity_stream cfg g vx vy g' :
  initVelocity cfg g = (vx, vy, g') ->
  draws g' = draws g /\ (cursor g <= cursor g')%nat.
Proof.
  unfold initVelocity, random. intro E.
  destruct (negb (move_enable cfg)); [inversion E; subst; split; [reflexivity|lia]|].
  destruct (move_direction_random cfg); inversion E; subst; cbn [draws cursor];
    split; try reflexivity; lia.
Qed.

Section Constructor.
Variables (M : MathLib) (canvas : Canvas) (cfg : Config).

Lemma newParticle_spec (position : option (Q * Q)) (g : Rng) :
  unitDraws g ->
  let p := fst (newParticle M canvas cfg position g) in
  let g' := snd (newParticle M canvas cfg position g) in
  atBaseline p /\
  (forall pos, position = Some pos ->
     Particle.x p = fst pos /\ Particle.y p = snd pos) /\
  (position = None ->
   0 <= size_value cfg -> 0 <= width canvas -> 0 <= height canvas ->
   inSpawnBand canvas cfg p) /\
  (0 <= size_anim_size_min cfg <= size_value cfg ->
   0 <= Particle.radius p <= size_value cfg /\
   (size_anim_enable cfg && negb (size_anim_sync cfg) = true ->
    size_anim_size_min cfg <= Particle.radius p) /\
   (size_anim_enable cfg && negb (size_anim_sync cfg) = false ->
    size_random cfg = false -> Particle.radius p == size_value cfg)) /\
  (0 <= opacity_anim_opacity_min cfg <= opacity_value cfg ->
   0 <= Particle.opacity p <= opacity_value cfg /\
   (opacity_anim_enable cfg && negb (opacity_anim_sync cfg) = true ->
    opacity_anim_opacity_min cfg <= Particle.opacity p) /\
   (opacity_anim_enable cfg && negb (opacity_anim_sync cfg) = false ->
    opacity_random cfg = false -> Particle.opacity p == opacity_value cfg)) /\
  (0 <= rotate_value cfg <= 360 -> 0 <= Particle.rotation p <= 360) /\
  Particle.rotationRadians p == Particle.rotation p * Math_PI M / 180 /\
  draws g' = draws g /\ (cursor g <= cursor g')%nat.
Proof.
  intros HP p g'. unfold p, g', newParticle. cbv zeta.
  stage2 x0 g1 E1. stage2 y0 g2 E2.
  stage3 opacity0 opacityDirection0 g3 E3.
  stage3 radius0 sizeDirection0 g4 E4.
  stage3 rotation0 rotationRadians0 g5 E5.
  stage2 swayPhase0 g6 E6.
  stage3 vx0 vy0 g7 E7.
  cbn [fst snd Particle.x Particle.y Particle.radius Particle.opacity
       Particle.rotation Particle.rotationRadians].
  assert (S1 : (draws g1 = draws g /\ (cursor g <= cursor g1)%nat) /\
               (forall pos, position = Some pos -> x0 = fst pos) /\
               (position = None -> 0 <= size_value cfg -> 0 <= width canvas ->
                - (size_value cfg * 2) <= x0 <= width canvas + size_value cfg * 2)).
  { pose proof (HP (cursor g)) as Hd. clear - E1 Hd. stagecases E1;
      cbn [draws cursor]; repeat split; intros;
      try reflexivity; try lia; try discriminate; try congruence; nra. }
  destruct S1 as ((D1 & C1) & X1 & X2).
  assert (HP1 : unitDraws g1) by (intro n; rewrite D1; apply HP).
  assert (S2 : (draws g2 = draws g1 /\ (cursor g1 <= cursor g2)%nat) /\
               (forall pos, position = Some pos -> y0 = snd pos) /\
               (position = None -> 0 <= size_value cfg -> 0 <= height canvas ->
                - (size_value cfg * 2) <= y0 <= height canvas + size_value cfg * 2)).
  { pose proof (HP1 (cursor g1)) as Hd. clear - E2 Hd. stagecases E2;
      cbn [draws cursor]; repeat split; intros;
      try reflexivity; try lia; try discriminate; try congruence; nra. }
  destruct S2 as ((D2 & C2) & Y1 & Y2).
  assert (HP2 : unitDraws g2) by (intro n; rewrite D2; apply HP1).
  assert (S3 : (draws g3 = draws g2 /\ (cursor g2 <= cursor g3)%nat) /\
               (0 <= opacity_anim_opacity_min cfg <= opacity_value cfg ->
                0 <= opacity0 <= opacity_value cfg /\
                (opacity_anim_enable cfg && negb (opacity_anim_sync cfg) = true ->
                 opacity_anim_opacity_min cfg <= opacity0) /\
                (opacity_anim_enable cfg && negb (opacity_anim_sync cfg) = false ->
                 opacity_random cfg = false -> opacity0 == opacity_value cfg))).
  { pose proof (HP2 (cursor g2)) as Hd. clear - E3 Hd. stagecases E3;
      cbn [draws cursor]; repeat split; intros;
      try reflexivity; try lia; try discriminate; try nra; ring. }
  destruct S3 as ((D3 & C3) & O3).
  assert (HP3 : unitDraws g3) by (intro n; rewrite D3; apply HP2).
  assert (S4 : (draws g4 = draws g3 /\ (cursor g3 <= cursor g4)%nat) /\
               (0 <= size_anim_size_min cfg <= size_value cfg ->
                0 <= radius0 <= size_value cfg /\
                (size_anim_enable cfg && negb (size_anim_sync cfg) = true ->
                 size_anim_size_min cfg <= radius0) /\
                (size_anim_enable cfg && negb (size_anim_sync cfg) = false ->
                 size_random cfg = false -> radius0 == size_value cfg))).
  { pose proof (HP3 (cursor g3)) as Hd. clear - E4 Hd. stagecases E4;
      cbn [draws cursor]; repeat split; intros;
      try reflexivity; try lia; try discriminate; try nra; ring. }
  destruct S4 as ((D4 & C4) & R4).
  assert (HP4 : unitDraws g4) by (intro n; rewrite D4; apply HP3).
  assert (S5 : (draws g5 = draws g4 /\ (cursor g4 <= cursor g5)%nat) /\
               (0 <= rotate_value cfg <= 360 -> 0 <= rotation0 <= 360) /\
               rotationRadians0 == rotation0 * Math_PI M / 180).
  { pose proof (HP4 (cursor g4)) as Hd. clear - E5 Hd. stagecases E5;
      cbn [draws cursor]; repeat split; intros;
      try reflexivity; try lia; try discriminate; lra. }
  destruct S5 as ((D5 & C5) & T5 & T5').
  assert (S6 : draws g6 = draws g5 /\ (cursor g5 <= cursor g6)%nat).
  { clear - E6. stagecases E6; cbn [draws cursor]; split; try reflexivity; lia. }
  destruct S6 as (D6 & C6).
  destruct (initVelocity_stream cfg g6 vx0 vy0 g7 E7) as (D7 & C7).
  split; [split; reflexivity|].
  split; [intros pos Hp; split; auto|].
  split; [intros Hn Hs Hw Hh; split; cbn [Particle.x Particle.y]; auto|].
  split; [exact R4|]. split; [exact O3|]. split; [exact T5|]. split; [exact T5'|].
  split; [congruence|lia].
Qed.

Lemma spawn_spec (Pred : Particle.t -> Prop) (position : option (Q * Q)) :
  (forall g, unitDraws g -> Pred (fst (newParticle M canvas cfg position g))) ->
  forall n g, unitDraws g ->
    Forall Pred (fst (spawn M canvas cfg position n g)) /\
    draws (snd (spawn M canvas cfg position n g)) = draws g.
Proof.
  intros HQ. induction n as [|n IH]; intros g HP; simpl; [auto|].
  pose proof (HQ g HP) as H1.
  pose proof (newParticle_spec position g HP) as (_ & _ & _ & _ & _ & _ & _ & D & _).
  cbv zeta in D.
  destruct (newParticle M canvas cfg position g) as [p g1]. simpl in H1, D.
  assert (HP1 : unitDraws g1) by (intro k; rewrite D; apply HP).
  destruct (IH g1 HP1) as [IH1 IH2].
  destruct (spawn M canvas cfg position n g1) as [ps g2]. simpl in *.
  split; [constructor; assumption|congruence].
Qed.

Lemma spawn_at (pos : Q * Q) : forall n g,
  Forall (fun p => Particle.x p = fst pos /\ Particle.y p = snd pos /\ atBaseline p)
         (fst (spawn M canvas cfg (Some pos) n g)).
Proof.
  induction n as [|n IH]; intro g; simpl; [constructor|].
  assert (H1 : Particle.x (fst (newParticle M canvas cfg (Some pos) g)) = fst pos /\
               Particle.y (fst (newParticle M canvas cfg (Some pos) g)) = snd pos /\
               atBaseline (fst (newParticle M canvas cfg (Some pos) g))).
  { unfold newParticle. cbv zeta.
    stage3 opacity0 opacityDirection0 g3 E3.
    stage3 radius0 sizeDirection0 g4 E4.
    stage3 rotation0 rotationRadians0 g5 E5.
    stage2 swayPhase0 g6 E6.
    stage3 vx0 vy0 g7 E7.
    repeat split. }
  destruct (newParticle M canvas cfg (Some pos) g) as [p g1]. simpl in H1.
  specialize (IH g1). destruct (spawn M canvas cfg (Some pos) n g1) as [ps g2].
  simpl in *. constructor; assumption.
Qed.

(** X19.  What the constructor establishes.  With draws in [0, 1), a new
    particle has its radius and opacity cached as initial values; it is at
    the position given, when one is given, and otherwise within the canvas
    widened by the spawn buffer of twice the configured size.  For a size
    range [0 <= size_min <= value] its radius lies between [0] and [value],
    and not below [size_min] when the size animation runs unsynchronised; it
    is [value] when neither the animation nor [random] applies; likewise for
    the opacity.  Its rotation lies within a turn when the configured
    rotation value does, and is cached in radians.  The constructor only
    reads the stream of draws forward. *)
Theorem constructor_respects_the_configuration (position : option (Q * Q)) (g : Rng) :
  unitDraws g ->
  let p := fst (newParticle M canvas cfg position g) in
  let g' := snd (newParticle M canvas cfg position g) in
  atBaseline p /\
  (forall pos, position = Some pos ->
     Particle.x p = fst pos /\ Particle.y p = snd pos) /\
  (position = None ->
   0 <= size_value cfg -> 0 <= width canvas -> 0 <= height canvas ->
   inSpawnBand canvas cfg p) /\
  (0 <= size_anim_size_min cfg <= size_value cfg ->
   0 <= Particle.radius p <= size_value cfg /\
   (size_anim_enable cfg && negb (size_anim_sync cfg) = true ->
    size_anim_size_min cfg <= Particle.radius p) /\
   (size_anim_enable cfg && negb (size_anim_sync cfg) = false ->
    size_random cfg = false -> Particle.radius p == size_value cfg)) /\
  (0 <= opacity_anim_opacity_min cfg <= opacity_value cfg ->
   0 <= Particle.opacity p <= opacity_value cfg /\
   (opacity_anim_enable cfg && negb (opacity_anim_sync cfg) = true ->
    opacity_anim_opacity_min cfg <= Particle.opacity p) /\
   (opacity_anim_enable cfg && negb (opacity_anim_sync cfg) = false ->
    opacity_random cfg = false -> Particle.opacity p == opacity_value cfg)) /\
  (0 <= rotate_value cfg <= 360 -> 0 <= Particle.rotation p <= 360) /\
  Particle.rotationRadians p == Particle.rotation p * Math_PI M / 180 /\
  draws g' = draws g /\ (cursor g <= cursor g')%nat.
Proof.
  exact (newParticle_spec position g).
Qed.

End Constructor.

Lemma halfRng_unitDraws : unitDraws halfRng.
Proof. intro n. split; vm_compute; [discriminate|reflexivity]. Qed.

Lemma constructor_respects_the_configuration_witness :
  inSpawnBand (mkCanvas 800 600) DEFAULTS_default
    (fst (newParticle rationalMath (mkCanvas 800 600) DEFAULTS_default None halfRng)).
Proof.
  apply (constructor_respects_the_configuration rationalMath (mkCanvas 800 600)
           DEFAULTS_default None halfRng halfRng_unitDraws);
    [reflexivity|vm_compute; discriminate..].
Defined.

Lemma init_band (M : MathLib) (e : Engine.t) :
  unitDraws (Engine.rng e) ->
  0 <= size_value (Engine.config e) ->
  0 <= width (Engine.canvas e) -> 0 <= height (Engine.canvas e) ->
  Forall (fun p => inSpawnBand (Engine.canvas e) (Engine.config e) p /\
                   atBaseline p /\
                   (0 <= size_anim_size_min (Engine.config e) <=
                         size_value (Engine.config e) ->
                    0 <= Particle.radius p <= size_value (Engine.config e)))
         (Engine.particles (Engine.init M e)) /\
  draws (Engine.rng (Engine.init M e)) = draws (Engine.rng e) /\
  (forall ps, Engine.init M (Engine.set_particles ps e) = Engine.init M e).
Proof.
  intros HP Hs Hw Hh. unfold Engine.init.
  pose proof (spawn_spec M (Engine.canvas e) (Engine.config e)
                (fun p => inSpawnBand (Engine.canvas e) (Engine.config e) p /\
                          atBaseline p /\
                          (0 <= size_anim_size_min (Engine.config e) <=
                                size_value (Engine.config e) ->
                           0 <= Particle.radius p <= size_value (Engine.config e)))
                None) as H.
  destruct (H (fun g Hg =>
    match newParticle_spec M (Engine.canvas e) (Engine.config e) None g Hg with
    | conj B (conj _ (conj Hband (conj Hr _))) =>
      conj (Hband eq_refl Hs Hw Hh) (conj B (fun Hm => proj1 (Hr Hm)))
    end) (loopCount (Engine.calculateParticleCount e)) (Engine.rng e) HP) as [H1 H2].
  split; [|split; [|reflexivity]];
    destruct (spawn M (Engine.canvas e) (Engine.config e) None
                (loopCount (Engine.calculateParticleCount e)) (Engine.rng e)) as [ps g];
    cbn [fst snd] in H1, H2; assumption.
Qed.

(** X20.  The particles of a fresh population.  With draws in [0, 1), a
    size that is not negative and a canvas of non-negative width and height,
    every particle [init] creates lies within the canvas widened by the
    spawn buffer, has a radius between [0] and the configured size when the
    configured size minimum lies between [0] and the size, and has that
    radius and its opacity cached as initial values.  [init] drops the
    particles the engine held and reads the stream of draws forward. *)
Theorem init_spawns_within_the_band (M : MathLib) (e : Engine.t) :
  unitDraws (Engine.rng e) ->
  0 <= size_value (Engine.config e) ->
  0 <= width (Engine.canvas e) -> 0 <= height (Engine.canvas e) ->
  Forall (fun p => inSpawnBand (Engine.canvas e) (Engine.config e) p /\
                   atBaseline p /\
                   (0 <= size_anim_size_min (Engine.config e) <=
                         size_value (Engine.config e) ->
                    0 <= Particle.radius p <= size_value (Engine.config e)))
         (Engine.particles (Engine.init M e)) /\
  draws (Engine.rng (Engine.init M e)) = draws (Engine.rng e) /\
  (forall ps, Engine.init M (Engine.set_particles ps e) = Engine.init M e).
Proof.
  exact (init_band M e).
Qed.

Lemma init_spawns_within_the_band_witness :
  Forall (fun p => inSpawnBand (mkCanvas 800 600) DEFAULTS_default p /\
                   atBaseline p /\
                   (0 <= size_anim_size_min DEFAULTS_default <=
                         size_value DEFAULTS_default ->
                    0 <= Particle.radius p <= size_value DEFAULTS_default))
         (Engine.particles (Engine.create rationalMath (mkCanvas 800 600)
                              DEFAULTS_default halfRng)).
Proof.
  apply (init_spawns_within_the_band rationalMath
           (Engine.mk [] DEFAULTS_default (mkMouse 0 0 false) (mkCanvas 800 600)
                      0 true halfRng) halfRng_unitDraws);
    vm_compute; discriminate.
Defined.

(** X21.  The initial velocity.  With movement disabled the velocity is zero
    and no draw is made.  With movement enabled and a fixed direction the
    velocity is the direction vector times a speed: the configured speed,
    or, with randomised speed, a drawn speed that is never below the
    configured minimum (default 1) and, when the minimum does not exceed the
    maximum (default 5), never above the maximum.  The draw for the
    randomised speed is made also when it is not used. *)
Theorem initial_velocity_is_direction_times_speed (cfg : Config) (g : Rng) :
  let vx := fst (fst (initVelocity cfg g)) in
  let vy := snd (fst (initVelocity cfg g)) in
  let g' := snd (initVelocity cfg g) in
  (move_enable cfg = false -> vx = 0 /\ vy = 0 /\ g' = g) /\
  (move_enable cfg = true ->
   cursor g' = (cursor g + if move_direction_random cfg then 3 else 1)%nat /\
   draws g' = draws g /\
   (move_direction_random cfg = false ->
    exists s,
      vx = fst (DIRECTION_MAP (move_direction_to cfg)) * s /\
      vy = snd (DIRECTION_MAP (move_direction_to cfg)) * s /\
      (move_randomized_enable cfg = false -> s = move_speed cfg) /\
      (move_randomized_enable cfg = true ->
       speedMin cfg <= s /\ (speedMin cfg <= speedMax cfg -> s <= speedMax cfg)))).
Proof.
  intros vx vy g'. unfold vx, vy, g', initVelocity, random.
  destruct (move_enable cfg); cbn [negb fst snd].
  2:{ split; [auto|discriminate]. }
  split; [discriminate|]. intros _.
  destruct (move_direction_random cfg); cbn [fst snd draws cursor].
  - split; [lia|]. split; [reflexivity|discriminate].
  - split; [lia|]. split; [reflexivity|]. intros _.
    fold (speedMin cfg) (speedMax cfg).
    destruct (move_randomized_enable cfg).
    + eexists. split; [reflexivity|]. split; [reflexivity|].
      split; [discriminate|]. intros _.
      split; [apply Q.le_max_r|]. intro Hle.
      apply Q.max_lub; [apply Q.le_min_r|exact Hle].
    + eexists. split; [reflexivity|]. split; [reflexivity|].
      split; [reflexivity|discriminate].
Qed.

(** X22.  A click in push mode.  The click appends new particles to the
    array and leaves the particles it held as they are, in place.  The
    number of new particles is the configured quantity, rounded up when it
    is fractional; each of them is at the position the pointer was last
    seen at, whether or not the pointer is still over the canvas, and has
    its radius and opacity cached as initial values.  The configuration,
    the pointer and the canvas are kept. *)
Theorem push_click_appends_at_the_pointer (M : MathLib) (e : Engine.t) :
  onclick_enable (Engine.config e) = true ->
  onclick_mode (Engine.config e) = mode_push ->
  let e' := Engine.handleClick M e in
  exists added,
    Engine.particles e' = Engine.particles e ++ added /\
    length added = loopCount (modes_push_quantity (Engine.config e)) /\
    Forall (fun p => Particle.x p = mouse_x (Engine.mouse e) /\
                     Particle.y p = mouse_y (Engine.mouse e) /\
                     atBaseline p) added /\
    Engine.config e' = Engine.config e /\ Engine.mouse e' = Engine.mouse e /\
    Engine.canvas e' = Engine.canvas e.
Proof.
  intros He Hm e'. unfold e', Engine.handleClick. rewrite He, Hm. cbn [negb].
  pose proof (spawn_length M (Engine.canvas e) (Engine.config e)
                (Some (mouse_x (Engine.mouse e), mouse_y (Engine.mouse e)))
                (loopCount (modes_push_quantity (Engine.config e))) (Engine.rng e)) as Hl.
  pose proof (spawn_at M (Engine.canvas e) (Engine.config e)
                (mouse_x (Engine.mouse e), mouse_y (Engine.mouse e))
                (loopCount (modes_push_quantity (Engine.config e))) (Engine.rng e)) as Ha.
  destruct (spawn M (Engine.canvas e) (Engine.config e) _ _ (Engine.rng e)) as [ps g].
  cbn [fst] in Hl, Ha. exists ps. cbn. auto 10.
Qed.

Lemma push_click_appends_at_the_pointer_witness :
  exists added,
    Engine.particles (Engine.handleClick rationalMath pushSample) =
    Engine.particles pushSample ++ added /\
    length added = 4%nat /\
    Forall (fun p => Particle.x p = 30 /\ Particle.y p = 40 /\ atBaseline p) added /\
    Engine.config (Engine.handleClick rationalMath pushSample) = DEFAULTS_default /\
    Engine.mouse (Engine.handleClick rationalMath pushSample) = mkMouse 30 40 true /\
    Engine.canvas (Engine.handleClick rationalMath pushSample) = mkCanvas 100 100.
Proof.
  exact (push_click_appends_at_the_pointer rationalMath pushSample eq_refl eq_refl).
Defined.

(** X23.  The number of particles a remove click takes.  The click removes
    the configured quantity truncated to an integer, and all the particles
    when there are no more than that: a quantity below [1], or negative,
    removes nothing and only sorts the array, where a push click rounds its
    quantity up. *)
Theorem remove_click_takes_the_truncated_quantity (M : MathLib) (e : Engine.t) :
  onclick_enable (Engine.config e) = true ->
  onclick_mode (Engine.config e) = mode_remove ->
  let q := modes_remove_quantity (Engine.config e) in
  let e' := Engine.handleClick M e in
  length (Engine.particles e') =
  (length (Engine.particles e) - Z.to_nat (Qfloor q))%nat /\
  (q < 1 -> Engine.particles e' =
            sort (compareDist (Engine.mouse e)) (Engine.particles e)) /\
  (inject_Z (Z.of_nat (length (Engine.particles e))) <= q ->
   Engine.particles e' = []).
Proof.
  intros He Hm q e'. unfold e'.
  rewrite (handleClick_remove M e He Hm).
  unfold Engine.removeClosest, splice0, spliceCount. cbn [snd]. fold q.
  pose proof (Permutation_length (sort_perm (compareDist (Engine.mouse e))
                                            (Engine.particles e))) as Hl.
  split; [rewrite length_skipn, Hl; reflexivity|]. split.
  - intro Hq.
    assert (Hz : (Qfloor q < 1)%Z).
    { rewrite Zlt_Qlt. eapply Qle_lt_trans; [apply Qfloor_le|exact Hq]. }
    replace (Z.to_nat (Qfloor q)) with 0%nat by lia. reflexivity.
  - intro Hq. apply skipn_all2. rewrite Hl.
    apply Qfloor_resp_le in Hq. rewrite Qfloor_Z in Hq. lia.
Qed.

Lemma remove_click_takes_the_truncated_quantity_witness :
  length (Engine.particles (Engine.handleClick rationalMath removeSample)) = 3%nat.
Proof.
  apply (remove_click_takes_the_truncated_quantity rationalMath removeSample
           eq_refl eq_refl).
Defined.

(** ** Frames *)

Lemma frame_unit (x : Q) : x / (1000 / 60) == x * 0.06.
Proof. field. Qed.


Lemma applyInteractions_length M qtree mouse cfg l hp :
  length (applyInteractions M qtree mouse cfg l hp) = length hp.
Proof.
  pose proof (applyInteractions_keeps Particle.vx M qtree mouse cfg l hp
                (fun _ => eq_refl)
                (fun o => proj1 (interactOne_frame M cfg mouse o))) as H.
  apply (f_equal (@length _)) in H. rewrite !length_map in H. exact H.
Qed.

Lemma applyAttraction_length cfg qtree hp :
  length (applyAttraction (Engine.refs hp) cfg qtree hp) = length hp.
Proof.
  pose proof (applyAttraction_unvel cfg qtree hp) as H.
  apply (f_equal (@length _)) in H. rewrite !length_map in H. exact H.
Qed.

Lemma render_frame M e timestamp :
  let e' := Engine.render M e timestamp in
  length (Engine.particles e') = length (Engine.particles e) /\
  Engine.config e' = Engine.config e /\ Engine.canvas e' = Engine.canvas e /\
  Engine.mouse e' = Engine.mouse e /\ Engine.rng e' = Engine.rng e /\
  Engine.firstFrame e' = false /\ Engine.lastTimestamp e' = timestamp.
Proof.
  unfold Engine.render. destruct (Engine.firstFrame e); cbn; [auto 10|].
  rewrite length_map, applyInteractions_length, applyAttraction_length. auto 10.
Qed.

(** X25.  The animation loop keeps the population.  Whatever the
    timestamps, after any number of frames the engine holds as many
    particles as before, with the configuration, the canvas, the pointer
    and the stream of draws it had: [render] creates and removes no
    particle and makes no draw.  The first frame of an engine only records
    its timestamp, so that the particles first move in the second frame. *)
Theorem frames_keep_the_population (M : MathLib) (e : Engine.t)
  (timestamps : list Q) :
  let e' := frames M e timestamps in
  length (Engine.particles e') = length (Engine.particles e) /\
  Engine.config e' = Engine.config e /\ Engine.canvas e' = Engine.canvas e /\
  Engine.mouse e' = Engine.mouse e /\ Engine.rng e' = Engine.rng e /\
  (timestamps <> [] ->
   Engine.firstFrame e' = false /\
   Engine.lastTimestamp e' = last timestamps 0) /\
  (Engine.firstFrame e = true ->
   forall t, Engine.particles (frames M e [t]) = Engine.particles e).
Proof.
  intro e'. unfold e'. clear e'.
  split; [|split; [|split; [|split; [|split; [|split]]]]].
  1-5: unfold frames; revert e; induction timestamps as [|t ts IH]; intro e;
       [reflexivity|]; cbn [fold_left]; rewrite IH; apply (render_frame M e t).
  - revert e. induction timestamps as [|t ts IH]; intros e Hne; [congruence|].
    destruct ts as [|t' ts].
    + cbn. split; apply (render_frame M e t).
    + change (frames M e (t :: t' :: ts)) with (frames M (Engine.render M e t) (t' :: ts)).
      change (last (t :: t' :: ts) 0) with (last (t' :: ts) 0).
      apply IH. discriminate.
  - intros Hf t. cbn. unfold Engine.render. rewrite Hf. reflexivity.
Qed.

(** X26.  A frame without forces.  With attraction disabled, and with the
    hover interaction disabled or the pointer away and a hover mode other
    than bubble, a frame past the first is [update] applied to every
    particle, with the time factor of the frame. *)
Theorem quiet_frame_only_updates (M : MathLib) (e : Engine.t) (timestamp : Q) :
  Engine.firstFrame e = false ->
  move_attract_enable (Engine.config e) = false ->
  onhover_mode (Engine.config e) <> mode_bubble ->
  mouse_active (Engine.mouse e) = false \/ onhover_enable (Engine.config e) = false ->
  Engine.particles (Engine.render M e timestamp) =
  map (update M (Engine.config e) (Engine.canvas e) (Engine.deltaOf e timestamp))
      (Engine.particles e).
Proof.
  intros Hf Ha Hm Hq. rewrite (render_particles M e timestamp Hf).
  f_equal.
  assert (E : applyAttraction (Engine.refs (Engine.particles e)) (Engine.config e)
                (Engine.buildTree e) (Engine.particles e) = Engine.particles e).
  { unfold applyAttraction. rewrite Ha. reflexivity. }
  rewrite E. rewrite (applyInteractions_not_bubble M _ _ _ _ Hm).
  unfold interactNeighbours.
  destruct Hq as [Hq|Hq]; rewrite Hq; cbn [negb orb]; [reflexivity|].
  rewrite orb_true_r. reflexivity.
Qed.

Lemma quiet_frame_only_updates_witness :
  Engine.particles (Engine.render rationalMath
                      (Engine.handleMouseLeave offCanvasSample) 16) =
  map (update rationalMath DEFAULTS_default (mkCanvas 100 100)
         (Engine.deltaOf offCanvasSample 16))
      (Engine.particles offCanvasSample).
Proof.
  apply (quiet_frame_only_updates rationalMath (Engine.handleMouseLeave offCanvasSample)
           16 eq_refl eq_refl).
  - discriminate.
  - left. reflexivity.
Defined.

(** ** Update, the density formula and a resize *)

Lemma bounceX_vx r wd p :
  Particle.vx (bounceX r wd p) == Particle.vx p \/
  Particle.vx (bounceX r wd p) == - Particle.vx p.
Proof.
  unfold bounceX. destruct (_ && _); [right; cbn; ring|].
  destruct (_ && _); [right; cbn; ring|left; reflexivity].
Qed.

Lemma bounceY_vy r ht p :
  Particle.vy (bounceY r ht p) == Particle.vy p \/
  Particle.vy (bounceY r ht p) == - Particle.vy p.
Proof.
  unfold bounceY. destruct (_ && _); [right; cbn; ring|].
  destruct (_ && _); [right; cbn; ring|left; reflexivity].
Qed.

(** X27.  [update] keeps the speed.  Along each axis the velocity of a
    particle after [update] is its velocity before, or its opposite after a
    bounce; in out mode it is the velocity before.  Sway and the animations
    leave the velocity alone, so that only attraction changes the speed of
    a particle. *)
Theorem update_keeps_the_speed (M : MathLib) (cfg : Config) (canvas : Canvas)
  (delta : Q) (p : Particle.t) :
  let p' := update M cfg canvas delta p in
  (Particle.vx p' == Particle.vx p \/ Particle.vx p' == - Particle.vx p) /\
  (Particle.vy p' == Particle.vy p \/ Particle.vy p' == - Particle.vy p) /\
  Particle.vx p' * Particle.vx p' == Particle.vx p * Particle.vx p /\
  Particle.vy p' * Particle.vy p' == Particle.vy p * Particle.vy p /\
  (move_out_mode cfg = mode_out ->
   Particle.vx p' = Particle.vx p /\ Particle.vy p' = Particle.vy p).
Proof.
  intro p'.
  pose proof (update_after_outMode M cfg canvas delta p) as (UX & UY & _).
  cbv zeta in UX, UY. fold p' in UX, UY.
  pose proof (integrate_fields delta p) as (_ & _ & IVX & IVY & _).
  set (p1 := integrate delta p) in *.
  assert (Hx : Particle.vx p' == Particle.vx p \/ Particle.vx p' == - Particle.vx p).
  { rewrite UX, <- IVX. unfold handleOutMode. destruct (move_out_mode cfg).
    - left. destruct (wrapY_spec (Particle.radius p1) (height canvas)
                        (wrapX (Particle.radius p1)
                               (width canvas + Particle.radius p1 * 2)
                               (width canvas) p1)) as (_ & _ & _ & _ & V & _).
      cbv zeta in V. rewrite V.
      destruct (wrapX_spec (Particle.radius p1) (width canvas) p1)
        as (_ & _ & _ & _ & V' & _).
      cbv zeta in V'. rewrite V'. reflexivity.
    - destruct (bounceY_spec (Particle.radius p1) (height canvas)
                  (bounceX (Particle.radius p1) (width canvas) p1))
        as (_ & _ & _ & _ & V & _).
      cbv zeta in V. rewrite V. apply bounceX_vx. }
  assert (Hy : Particle.vy p' == Particle.vy p \/ Particle.vy p' == - Particle.vy p).
  { rewrite UY, <- IVY. unfold handleOutMode. destruct (move_out_mode cfg).
    - left. destruct (wrapY_spec (Particle.radius p1) (height canvas)
                        (wrapX (Particle.radius p1)
                               (width canvas + Particle.radius p1 * 2)
                               (width canvas) p1)) as (_ & _ & _ & _ & _ & V & _).
      cbv zeta in V. rewrite V.
      destruct (wrapX_spec (Particle.radius p1) (width canvas) p1)
        as (_ & _ & _ & _ & _ & V' & _).
      cbv zeta in V'. rewrite V'. reflexivity.
    - destruct (bounceX_spec (Particle.radius p1) (width canvas) p1)
        as (_ & _ & _ & _ & V & _).
      cbv zeta in V. rewrite <- V. apply bounceY_vy. }
  split; [exact Hx|]. split; [exact Hy|].
  split; [destruct Hx as [H|H]; rewrite H; ring|].
  split; [destruct Hy as [H|H]; rewrite H; ring|].
  intro Hm. rewrite UX, UY, <- IVX, <- IVY. unfold handleOutMode. rewrite Hm.
  destruct (wrapY_spec (Particle.radius p1) (height canvas)
              (wrapX (Particle.radius p1)
                     (width canvas + Particle.radius p1 * 2)
                     (width canvas) p1)) as (_ & _ & _ & _ & V1 & V2 & _).
  destruct (wrapX_spec (Particle.radius p1) (width canvas) p1)
    as (_ & _ & _ & _ & V3 & V4 & _).
  cbv zeta in V1, V2, V3, V4. rewrite V1, V2, V3, V4. split; reflexivity.
Qed.

Lemma densityArea_pos cfg : 0 < densityArea cfg.
Proof.
  unfold densityArea. pose proof (Q.le_max_r (number_density_area cfg) 0.001). lra.
Qed.



(** X29.  A resize starts the population over.  After [handleResize] the
    canvas has its displayed size and the engine holds a fresh population
    for it, whatever it held before: as many particles as the count for the
    new size, each within the new canvas widened by the spawn buffer when
    the draws lie in [0, 1).  The pointer, the configuration and the clock
    of the animation are kept. *)
Theorem resize_starts_the_population_over (M : MathLib) (offsetWidth offsetHeight : Q)
  (e : Engine.t) :
  unitDraws (Engine.rng e) ->
  0 <= size_value (Engine.config e) -> 0 <= offsetWidth -> 0 <= offsetHeight ->
  let e' := handleResize M offsetWidth offsetHeight e in
  Engine.canvas e' = mkCanvas offsetWidth offsetHeight /\
  length (Engine.particles e') =
  loopCount (Engine.calculateParticleCount (resizeCanvas offsetWidth offsetHeight e)) /\
  Forall (inSpawnBand (mkCanvas offsetWidth offsetHeight) (Engine.config e))
         (Engine.particles e') /\
  (forall ps, handleResize M offsetWidth offsetHeight (Engine.set_particles ps e) = e') /\
  Engine.config e' = Engine.config e /\ Engine.mouse e' = Engine.mouse e /\
  Engine.firstFrame e' = Engine.firstFrame e /\
  Engine.lastTimestamp e' = Engine.lastTimestamp e.
Proof.
  intros HP Hs Hw Hh e'.
  pose proof (init_band M (resizeCanvas offsetWidth offsetHeight e) HP Hs Hw Hh)
    as (HB & _ & HI).
  pose proof (init_length M (resizeCanvas offsetWidth offsetHeight e)) as HL.
  fold (handleResize M offsetWidth offsetHeight e) in HB, HL. fold e' in HB, HL.
  assert (HF : Engine.canvas e' = mkCanvas offsetWidth offsetHeight /\
               Engine.config e' = Engine.config e /\ Engine.mouse e' = Engine.mouse e /\
               Engine.firstFrame e' = Engine.firstFrame e /\
               Engine.lastTimestamp e' = Engine.lastTimestamp e).
  { unfold e', handleResize, Engine.init.
    destruct (spawn _ _ _ _ _ _) as [ps g]. cbn. auto. }
  destruct HF as (F1 & F2 & F3 & F4 & F5).
  split; [exact F1|]. split; [exact HL|]. split.
  { eapply Forall_impl; [|exact HB]. cbv beta. intros p Hp. apply Hp. }
  split; [|auto]. intro ps. exact (HI ps).
Qed.

Lemma resize_starts_the_population_over_witness :
  Forall (inSpawnBand (mkCanvas 400 300) DEFAULTS_default)
         (Engine.particles (handleResize rationalMath 400 300 pushSample)).
Proof.
  apply (resize_starts_the_population_over rationalMath 400 300 pushSample
           halfRng_unitDraws); vm_compute; discriminate.
Defined.
